(** * Verification of the block assembler and the scrypt nonce scanner

    A shallow embedding of [src/miner.cpp]: the nonce scanner
    [ScanScryptHash], the submission path [ProcessBlockFound], and the block
    assembler ([resetBlock], [TestPackage], [AddToBlock],
    [UpdatePackagesForAdded], [SortForBlock], [addPackageTxs],
    [CreateNewBlock]).

    Conventions.  Unsigned machine integers are [Z] with the wrap-around
    written out ([u32], [u64], [u256]); signed 64-bit quantities ([CAmount],
    sig-op costs, counters) are plain [Z], since signed overflow is undefined
    in the source language.  [std::set] is [gset], the multi-index overlay
    [mapModifiedTx] is a [gmap] keyed by the entry handle. *)

From Stdlib Require Import ZArith List Lia Bool String.
From stdpp Require Import base gmap sets list fin_sets fin_maps sorting.

Local Open Scope Z_scope.

(** ** Machine integers *)

Definition u32 (z : Z) : Z := z mod 2 ^ 32.
Definition u64 (z : Z) : Z := z mod 2 ^ 64.
Definition u256 (z : Z) : Z := z mod 2 ^ 256.

(** Byte [i] of a little-endian 256-bit blob: [((uint8_t* )&x)[i]]. *)
Definition byte_at (x : Z) (i : nat) : Z :=
  Z.land (Z.shiftr x (8 * Z.of_nat i)) 255.

(** ** The nonce scanner *)

Module Scan.

Record CBlockHeader := {
  nVersion : Z;
  hashPrevBlock : Z;
  hashMerkleRoot : Z;
  nTime : Z;
  nBits : Z;
  nNonce : Z
}.

Definition set_nNonce (h : CBlockHeader) (n : Z) : CBlockHeader :=
  {| nVersion := nVersion h; hashPrevBlock := hashPrevBlock h;
     hashMerkleRoot := hashMerkleRoot h; nTime := nTime h;
     nBits := nBits h; nNonce := n |}.

(** What a call leaves behind: the return value, the two reference
    parameters, the output buffer, and (ghost) how many times
    [scrypt_1024_1_1_256] was run. *)
Record ScanResult := {
  ret : bool;
  out_nNonce : Z;
  out_phash : Z;
  out_hashesScanned : Z;
  scrypt_calls : nat
}.

(** [for ( ; firstLEZeroByte > 1 ; -- firstLEZeroByte )
      if ( bytes[ firstLEZeroByte - 1 ] != 0 ) break ;]
    started at [f]. *)
Fixpoint firstLEZeroByte_from (solution : Z) (f : nat) : nat :=
  match f with
  | S (S _ as p) =>
      if byte_at solution p =? 0 then firstLEZeroByte_from solution p else f
  | _ => f
  end.

Definition firstLEZeroByte (solution : Z) : nat :=
  firstLEZeroByte_from solution 32.

(** [found]: every byte [j] with [firstLEZeroByte <= j < 32] is zero. *)
Definition found (f : nat) (hash : Z) : bool :=
  forallb (fun j => byte_at hash j =? 0) (seq f (32 - f)).

Section Scanner.

(** [scrypt_1024_1_1_256] lives in [crypto/scrypt]; it is a parameter here.
    Its 32 output bytes are read as a little-endian number. *)
Variable scrypt : CBlockHeader -> Z.

(** The [while ( true )] loop.  [fuel] bounds the iterations of the model;
    [ScanScryptHash_total] shows that 4096 always suffice. *)
Fixpoint scan_loop (fuel : nat) (blockHeader : CBlockHeader) (f : nat)
    (nNonce phash hashesScanned : Z) (calls : nat) : option ScanResult :=
  match fuel with
  | O => None
  | S fuel' =>
      let blockHeader := set_nNonce blockHeader nNonce in
      let phash := u256 (scrypt blockHeader) in
      let hashesScanned := u32 (hashesScanned + 1) in
      let nNonce := u32 (nNonce + 1) in
      if found f phash then
        Some {| ret := true; out_nNonce := nNonce; out_phash := phash;
                out_hashesScanned := hashesScanned; scrypt_calls := S calls |}
      else if Z.land nNonce 0xfff =? 0 then
        Some {| ret := false; out_nNonce := nNonce; out_phash := phash;
                out_hashesScanned := hashesScanned; scrypt_calls := S calls |}
      else scan_loop fuel' blockHeader f nNonce phash hashesScanned (S calls)
  end.

Definition ScanScryptHash (blockHeader : CBlockHeader) (nNonce phash : Z)
    (solutionHash : Z) (hashesScanned : Z) : option ScanResult :=
  let uint256solution := u256 solutionHash in
  let f := firstLEZeroByte uint256solution in
  if Nat.eqb f 32 then
    Some {| ret := true; out_nNonce := nNonce; out_phash := phash;
            out_hashesScanned := hashesScanned; scrypt_calls := 0 |}
  else scan_loop 4096 blockHeader f nNonce phash hashesScanned 0.

End Scanner.

End Scan.

(** ** The block assembler *)

Module Assembler.

(** [CTxMemPool::txiter]: the handle of a mempool entry.  Handles are
    totally ordered (the source orders them by transaction hash). *)
Abbreviation txiter := nat.

(** Modelled from the spec: [consensus/consensus.h] is not part of the
    sources at hand; the glossary fixes the factor ("non-witness bytes count
    4 (the WITNESS_SCALE_FACTOR)"). *)
Definition WITNESS_SCALE_FACTOR : Z := 4.

(** The observable attributes of a mempool entry (the getters of
    [CTxMemPoolEntry] that [miner.cpp] calls). *)
Record CTxMemPoolEntry := {
  GetFee : Z;
  GetModifiedFee : Z;
  GetTxSize : Z;
  GetTxWeight : Z;
  GetSigOpCost : Z;
  GetCountWithAncestors : Z;
  GetSizeWithAncestors : Z;
  GetModFeesWithAncestors : Z;
  GetSigOpCostWithAncestors : Z;
  HasWitness : bool
}.

(** The aggregates of an overlay entry.  The [iter] member of the source
    struct is the key under which the entry sits in [mapModifiedTx]. *)
Record CTxMemPoolModifiedEntry := {
  nSizeWithAncestors : Z;
  nModFeesWithAncestors : Z;
  nSigOpCostWithAncestors : Z
}.

(** A mempool snapshot, as [addPackageTxs] reads it under [mempool.cs]. *)
Record CTxMemPool := {
  entry : txiter -> CTxMemPoolEntry;
  (** [mapTx.get<ancestor_score>()], from [begin()] to [end()] *)
  mapTx_ancestor_score : list txiter;
  CalculateDescendants : txiter -> gset txiter;
  CalculateMemPoolAncestors : txiter -> gset txiter
}.

Record CBlockIndex := {
  nHeight_tip : Z;
  GetMedianTimePast : Z;
  GetBlockHash : Z
}.

Record CFeeRate := { nSatoshisPerK : Z }.

(** Constants and functions of other translation units. *)
Record Collaborators := {
  MAX_BLOCK_WEIGHT : Z;
  MAX_BLOCK_SIGOPS_COST : Z;
  (** [STANDARD_LOCKTIME_VERIFY_FLAGS & LOCKTIME_MEDIAN_TIME_PAST] is non-zero *)
  locktime_median_time_past : bool;
  (** [CFeeRate::GetFee] *)
  FeeRate_GetFee : CFeeRate -> Z -> Z;
  (** the order of the [ancestor_score] index of [mapModifiedTx] *)
  CompareTxMemPoolEntryByAncestorFee :
    txiter * CTxMemPoolModifiedEntry -> txiter * CTxMemPoolModifiedEntry -> bool;
  (** [IsFinalTx(it->GetTx(), nHeight, nLockTimeCutoff)] *)
  IsFinalTx : txiter -> Z -> Z -> bool;
  ComputeBlockVersion : CBlockIndex -> Z;
  IsWitnessEnabled : CBlockIndex -> bool;
  GetBlockSubsidy : Z -> Z;
  MineBlocksOnDemand : bool;
  (** [-blockversion], when given *)
  arg_blockversion : option Z
}.

Inductive ScriptElem := PushNum (n : Z) | OP_0.

(** The coinbase built by [CreateNewBlock]: one input, one output. *)
Record CMutableTransaction := {
  vin0_prevout_null : bool;
  vin0_scriptSig : list ScriptElem;
  vout0_scriptPubKey : list ScriptElem;
  vout0_nValue : Z
}.

Inductive CTransactionRef :=
  | NullTx                                 (* [vtx.emplace_back()] *)
  | CoinbaseTx (tx : CMutableTransaction)
  | PoolTx (it : txiter).                  (* [iter->GetSharedTx()] *)

Record Options := {
  opt_blockMinFeeRate : CFeeRate;
  opt_nBlockMaxWeight : Z
}.

(** The assembler together with the template it owns ([pblocktemplate],
    [pblock]): the block's [vtx], the parallel vectors and the two header
    fields written before the selection loop. *)
Record BlockAssembler := {
  vtx : list CTransactionRef;
  vTxFees : list Z;
  vTxSigOpsCost : list Z;
  blk_nVersion : Z;
  blk_nTime : Z;
  fIncludeWitness : bool;
  nBlockMaxWeight : Z;
  blockMinFeeRate : CFeeRate;
  nBlockWeight : Z;
  nBlockTx : Z;
  nBlockSigOpsCost : Z;
  nFees : Z;
  inBlock : gset txiter;
  nHeight : Z;
  nLockTimeCutoff : Z
}.

(** The locals of [addPackageTxs], with the assembler they work on. *)
Record PackageLoop := {
  asm : BlockAssembler;
  mi : list txiter;
  mapModifiedTx : gmap txiter CTxMemPoolModifiedEntry;
  failedTx : gset txiter;
  nConsecutiveFailed : Z;
  nPackagesSelected : Z;
  nDescendantsUpdated : Z
}.

(** How one pass through the body of the [while] ends. *)
Inductive Outcome :=
  | Continue (st : PackageLoop)     (* next iteration *)
  | Stop (st : PackageLoop)         (* condition false, [return] or [break] *)
  | AssertFailed.                   (* [assert(!inBlock.count(iter))] *)

Inductive LoopResult :=
  | Finished (st : PackageLoop)
  | Aborted
  | OutOfFuel.

Section Code.

Variable cc : Collaborators.
Variable mempool : CTxMemPool.

(** [BlockAssembler::BlockAssembler(params, options)]; the members not set
    by the constructor are given the values [resetBlock] would give. *)
Definition clamp_nBlockMaxWeight (o : Options) : Z :=
  u32 (Z.max 4000 (Z.min (u32 (MAX_BLOCK_WEIGHT cc - 4000)) (u64 (opt_nBlockMaxWeight o)))).

Definition new_BlockAssembler (o : Options) : BlockAssembler :=
  {| vtx := []; vTxFees := []; vTxSigOpsCost := [];
     blk_nVersion := 0; blk_nTime := 0;
     fIncludeWitness := false;
     nBlockMaxWeight := clamp_nBlockMaxWeight o;
     blockMinFeeRate := opt_blockMinFeeRate o;
     nBlockWeight := 4000; nBlockTx := 0; nBlockSigOpsCost := 400; nFees := 0;
     inBlock := ∅; nHeight := 0; nLockTimeCutoff := 0 |}.

Definition resetBlock (a : BlockAssembler) : BlockAssembler :=
  {| vtx := vtx a; vTxFees := vTxFees a; vTxSigOpsCost := vTxSigOpsCost a;
     blk_nVersion := blk_nVersion a; blk_nTime := blk_nTime a;
     fIncludeWitness := false;
     nBlockMaxWeight := nBlockMaxWeight a;
     blockMinFeeRate := blockMinFeeRate a;
     nBlockWeight := 4000; nBlockTx := 0; nBlockSigOpsCost := 400; nFees := 0;
     inBlock := ∅; nHeight := nHeight a; nLockTimeCutoff := nLockTimeCutoff a |}.

Definition onlyUnconfirmed (a : BlockAssembler) (testSet : gset txiter) : gset txiter :=
  testSet ∖ inBlock a.

Definition TestPackage (a : BlockAssembler) (packageSize packageSigOpsCost : Z) : bool :=
  if u64 (nBlockWeight a + u64 (WITNESS_SCALE_FACTOR * packageSize)) >=? nBlockMaxWeight a
  then false
  else if u64 (nBlockSigOpsCost a + packageSigOpsCost) >=? u64 (MAX_BLOCK_SIGOPS_COST cc)
  then false
  else true.

Definition TestPackageTransactions (a : BlockAssembler) (package : gset txiter) : bool :=
  forallb (fun it =>
             if negb (IsFinalTx cc it (nHeight a) (nLockTimeCutoff a)) then false
             else if negb (fIncludeWitness a) && HasWitness (entry mempool it) then false
             else true)
          (elements package).

(** [-printpriority] only adds a log line and is left out. *)
Definition AddToBlock (a : BlockAssembler) (iter : txiter) : BlockAssembler :=
  let e := entry mempool iter in
  {| vtx := vtx a ++ [PoolTx iter];
     vTxFees := vTxFees a ++ [GetFee e];
     vTxSigOpsCost := vTxSigOpsCost a ++ [GetSigOpCost e];
     blk_nVersion := blk_nVersion a; blk_nTime := blk_nTime a;
     fIncludeWitness := fIncludeWitness a;
     nBlockMaxWeight := nBlockMaxWeight a;
     blockMinFeeRate := blockMinFeeRate a;
     nBlockWeight := u64 (nBlockWeight a + GetTxWeight e);
     nBlockTx := u64 (nBlockTx a + 1);
     nBlockSigOpsCost := u64 (nBlockSigOpsCost a + GetSigOpCost e);
     nFees := nFees a + GetFee e;
     inBlock := inBlock a ∪ {[ iter ]};
     nHeight := nHeight a; nLockTimeCutoff := nLockTimeCutoff a |}.

(** [CTxMemPoolModifiedEntry(desc)]: the overlay entry starts from the
    aggregates the mempool reports.  Modelled from the spec: the constructor
    is declared in [miner.h]; "a fresh modified entry whose aggregates equal
    d's originals minus x's individuals". *)
Definition fresh_modified (desc : txiter) : CTxMemPoolModifiedEntry :=
  let e := entry mempool desc in
  {| nSizeWithAncestors := GetSizeWithAncestors e;
     nModFeesWithAncestors := GetModFeesWithAncestors e;
     nSigOpCostWithAncestors := GetSigOpCostWithAncestors e |}.

(** The three [-=] of lines 269-271, which are also what
    [update_for_parent_inclusion(it)] does.  Modelled from the spec for the
    latter (declared in [miner.h]): "if present, decrement its aggregates by
    x's individuals". *)
Definition update_for_parent_inclusion (it : txiter) (m : CTxMemPoolModifiedEntry)
    : CTxMemPoolModifiedEntry :=
  let e := entry mempool it in
  {| nSizeWithAncestors := u64 (nSizeWithAncestors m - GetTxSize e);
     nModFeesWithAncestors := nModFeesWithAncestors m - GetModifiedFee e;
     nSigOpCostWithAncestors := nSigOpCostWithAncestors m - GetSigOpCost e |}.

(** The body of the inner [for] of [UpdatePackagesForAdded], for one
    descendant [desc] of [it]. *)
Definition update_descendant (alreadyAdded : gset txiter) (it : txiter)
    (acc : Z * gmap txiter CTxMemPoolModifiedEntry) (desc : txiter)
    : Z * gmap txiter CTxMemPoolModifiedEntry :=
  if decide (desc ∈ alreadyAdded) then acc
  else
    let nDescendantsUpdated := acc.1 + 1 in
    match acc.2 !! desc with
    | None =>
        (nDescendantsUpdated,
         <[desc := update_for_parent_inclusion it (fresh_modified desc)]> acc.2)
    | Some modEntry =>
        (nDescendantsUpdated,
         <[desc := update_for_parent_inclusion it modEntry]> acc.2)
    end.

Definition UpdatePackagesForAdded (alreadyAdded : gset txiter)
    (mapModifiedTx : gmap txiter CTxMemPoolModifiedEntry)
    : Z * gmap txiter CTxMemPoolModifiedEntry :=
  foldl (fun acc it =>
           foldl (update_descendant alreadyAdded it) acc
                 (elements (CalculateDescendants mempool it)))
        (0, mapModifiedTx) (elements alreadyAdded).

Definition SkipMapTxEntry (a : BlockAssembler) (it : txiter)
    (mapModifiedTx : gmap txiter CTxMemPoolModifiedEntry) (failedTx : gset txiter) : bool :=
  bool_decide (is_Some (mapModifiedTx !! it))
  || bool_decide (it ∈ inBlock a)
  || bool_decide (it ∈ failedTx).

(** Modelled from the spec: [CompareTxIterByAncestorCount] is declared in
    [miner.h]; "sort the expanded set by ancestor count ascending", ties
    falling back on the handle. *)
Definition CompareTxIterByAncestorCount (x y : txiter) : Prop :=
  GetCountWithAncestors (entry mempool x) < GetCountWithAncestors (entry mempool y)
  \/ (GetCountWithAncestors (entry mempool x) = GetCountWithAncestors (entry mempool y)
      /\ (x <= y)%nat).

#[local] Instance CompareTxIterByAncestorCount_dec x y :
  Decision (CompareTxIterByAncestorCount x y).
Proof. unfold CompareTxIterByAncestorCount. apply _. Defined.

Definition SortForBlock (package : gset txiter) : list txiter :=
  merge_sort CompareTxIterByAncestorCount (elements package).

(** [mapModifiedTx.get<ancestor_score>().begin()]: the entry no other entry
    of the overlay is ordered before. *)
Definition best_of (x : txiter * CTxMemPoolModifiedEntry)
    (acc : option (txiter * CTxMemPoolModifiedEntry))
    : option (txiter * CTxMemPoolModifiedEntry) :=
  match acc with
  | None => Some x
  | Some b => if CompareTxMemPoolEntryByAncestorFee cc x b then Some x else Some b
  end.

Definition modified_begin (mapModifiedTx : gmap txiter CTxMemPoolModifiedEntry)
    : option (txiter * CTxMemPoolModifiedEntry) :=
  foldr best_of None (map_to_list mapModifiedTx).

(** The package the loop decided to look at, and the cursor [mi] after the
    decision. *)
Record Candidate := {
  iter : txiter;
  fUsingModified : bool;
  packageSize : Z;
  packageFees : Z;
  packageSigOpsCost : Z;
  mi_next : list txiter
}.

Definition from_mapTx (it : txiter) (rest : list txiter) : Candidate :=
  let e := entry mempool it in
  {| iter := it; fUsingModified := false;
     packageSize := GetSizeWithAncestors e;
     packageFees := GetModFeesWithAncestors e;
     packageSigOpsCost := GetSigOpCostWithAncestors e;
     mi_next := rest |}.

Definition from_modified (modit : txiter * CTxMemPoolModifiedEntry)
    (cursor : list txiter) : Candidate :=
  {| iter := modit.1; fUsingModified := true;
     packageSize := nSizeWithAncestors modit.2;
     packageFees := nModFeesWithAncestors modit.2;
     packageSigOpsCost := nSigOpCostWithAncestors modit.2;
     mi_next := cursor |}.

(** Lines 349-384.  [None] stands for dereferencing [end()] of an empty
    overlay, which the loop condition excludes. *)
Definition choose (st : PackageLoop) : option Candidate :=
  let modit := modified_begin (mapModifiedTx st) in
  match mi st with
  | [] =>
      match modit with
      | Some m => Some (from_modified m [])
      | None => None
      end
  | it :: rest =>
      match modit with
      | Some m =>
          if CompareTxMemPoolEntryByAncestorFee cc m (it, fresh_modified it)
          then Some (from_modified m (it :: rest))
          else Some (from_mapTx it rest)
      | None => Some (from_mapTx it rest)
      end
  end.

Definition set_asm (st : PackageLoop) (a : BlockAssembler) : PackageLoop :=
  {| asm := a; mi := mi st; mapModifiedTx := mapModifiedTx st;
     failedTx := failedTx st; nConsecutiveFailed := nConsecutiveFailed st;
     nPackagesSelected := nPackagesSelected st;
     nDescendantsUpdated := nDescendantsUpdated st |}.

Definition set_mi (st : PackageLoop) (cursor : list txiter) : PackageLoop :=
  {| asm := asm st; mi := cursor; mapModifiedTx := mapModifiedTx st;
     failedTx := failedTx st; nConsecutiveFailed := nConsecutiveFailed st;
     nPackagesSelected := nPackagesSelected st;
     nDescendantsUpdated := nDescendantsUpdated st |}.

(** [if (fUsingModified) { erase(modit); failedTx.insert(iter); }] *)
Definition record_failure (st : PackageLoop) (c : Candidate) : PackageLoop :=
  if fUsingModified c then
    {| asm := asm st; mi := mi st;
       mapModifiedTx := delete (iter c) (mapModifiedTx st);
       failedTx := failedTx st ∪ {[ iter c ]};
       nConsecutiveFailed := nConsecutiveFailed st;
       nPackagesSelected := nPackagesSelected st;
       nDescendantsUpdated := nDescendantsUpdated st |}
  else st.

Definition bump_failed (st : PackageLoop) : PackageLoop :=
  {| asm := asm st; mi := mi st; mapModifiedTx := mapModifiedTx st;
     failedTx := failedTx st;
     nConsecutiveFailed := nConsecutiveFailed st + 1;
     nPackagesSelected := nPackagesSelected st;
     nDescendantsUpdated := nDescendantsUpdated st |}.

Definition MAX_CONSECUTIVE_FAILURES : Z := 1000.

(** Lines 410-416: the package of [iter]. *)
Definition package_of (a : BlockAssembler) (it : txiter) : gset txiter :=
  onlyUnconfirmed a (CalculateMemPoolAncestors mempool it) ∪ {[ it ]}.

(** Lines 434-438: [AddToBlock] and the erasure from the overlay, entry by
    entry. *)
Definition add_and_erase
    (acc : BlockAssembler * gmap txiter CTxMemPoolModifiedEntry) (it : txiter)
    : BlockAssembler * gmap txiter CTxMemPoolModifiedEntry :=
  (AddToBlock acc.1 it, delete it acc.2).

(** Lines 427-443: the package goes in. *)
Definition commit (st : PackageLoop) (ancestors : gset txiter) : PackageLoop :=
  let sortedEntries := SortForBlock ancestors in
  let added := foldl add_and_erase (asm st, mapModifiedTx st) sortedEntries in
  let upd := UpdatePackagesForAdded ancestors added.2 in
  {| asm := added.1; mi := mi st; mapModifiedTx := upd.2;
     failedTx := failedTx st;
     nConsecutiveFailed := 0;
     nPackagesSelected := nPackagesSelected st + 1;
     nDescendantsUpdated := nDescendantsUpdated st + upd.1 |}.

(** Lines 391-443, for the candidate [c]: the budget test, the
    transaction-level checks, the commit. *)
Definition try_package (st : PackageLoop) (c : Candidate) : Outcome :=
  let a := asm st in
  if negb (TestPackage a (packageSize c) (packageSigOpsCost c)) then
    let st := bump_failed (record_failure st c) in
    if (nConsecutiveFailed st >? MAX_CONSECUTIVE_FAILURES)
       && (nBlockWeight a >? u32 (nBlockMaxWeight a - 4000))
    then Stop st
    else Continue st
  else
    let ancestors := package_of a (iter c) in
    if negb (TestPackageTransactions a ancestors) then
      Continue (record_failure st c)
    else Continue (commit st ancestors).

(** Lines 375-389, then [try_package]; [st] already has the cursor
    [mi_next c]. *)
Definition consider (st : PackageLoop) (c : Candidate) : Outcome :=
  let a := asm st in
  if bool_decide (iter c ∈ inBlock a) then AssertFailed
  else if packageFees c <? FeeRate_GetFee cc (blockMinFeeRate a) (packageSize c)
  then Stop st
  else try_package st c.

(** [mi != end() || !mapModifiedTx.empty()] *)
Definition loop_condition (st : PackageLoop) : bool :=
  match mi st with
  | [] => negb (bool_decide (mapModifiedTx st = ∅))
  | _ :: _ => true
  end.

(** Lines 347-443. *)
Definition evaluate (st : PackageLoop) : Outcome :=
  match choose st with
  | Some c => consider (set_mi st (mi_next c)) c
  | None => Stop st
  end.

(** One evaluation of the loop condition followed by one pass through the
    body. *)
Definition iteration (st : PackageLoop) : Outcome :=
  if negb (loop_condition st) then Stop st
  else
    match mi st with
    | it :: rest =>
        if SkipMapTxEntry (asm st) it (mapModifiedTx st) (failedTx st)
        then Continue (set_mi st rest)
        else evaluate st
    | [] => evaluate st
    end.

Fixpoint run (fuel : nat) (st : PackageLoop) : LoopResult :=
  match fuel with
  | O => OutOfFuel
  | S fuel' =>
      match iteration st with
      | Continue st' => run fuel' st'
      | Stop st' => Finished st'
      | AssertFailed => Aborted
      end
  end.

(** Enough passes for any snapshot of [n] entries. *)
Definition enough_fuel : nat :=
  let n := length (mapTx_ancestor_score mempool) in
  ((n + 1) * (2 * n + 1))%nat.

(** Lines 321-336: the locals before the [while]. *)
Definition addPackageTxs_init (a : BlockAssembler) : PackageLoop :=
  {| asm := a;
     mi := mapTx_ancestor_score mempool;
     mapModifiedTx := (UpdatePackagesForAdded (inBlock a) ∅).2;
     failedTx := ∅;
     nConsecutiveFailed := 0;
     nPackagesSelected := 0;
     nDescendantsUpdated := 0 |}.

Definition addPackageTxs (a : BlockAssembler) : LoopResult :=
  run enough_fuel (addPackageTxs_init a).

(** [CreateNewBlock], lines 115-158: reset, template skeleton, header
    prelude, selection.  [now] is what [GetAdjustedTime()] returns; the
    header keeps it in 32 bits, and [GetBlockTime()] reads it back. *)
Definition CreateNewBlock_prelude (a : BlockAssembler) (pindexPrev : CBlockIndex)
    (now : Z) (fMineWitnessTx : bool) : BlockAssembler :=
  let a := resetBlock a in
  let version := ComputeBlockVersion cc pindexPrev in
  let version :=
    if MineBlocksOnDemand cc then default version (arg_blockversion cc) else version in
  let nMedianTimePast := GetMedianTimePast pindexPrev in
  {| vtx := [NullTx]; vTxFees := [-1]; vTxSigOpsCost := [-1];
     blk_nVersion := version;
     blk_nTime := u32 now;
     fIncludeWitness := IsWitnessEnabled cc pindexPrev && fMineWitnessTx;
     nBlockMaxWeight := nBlockMaxWeight a;
     blockMinFeeRate := blockMinFeeRate a;
     nBlockWeight := nBlockWeight a; nBlockTx := nBlockTx a;
     nBlockSigOpsCost := nBlockSigOpsCost a; nFees := nFees a;
     inBlock := inBlock a;
     nHeight := nHeight_tip pindexPrev + 1;
     nLockTimeCutoff :=
       if locktime_median_time_past cc then nMedianTimePast else u32 now |}.

Definition CreateNewBlock_select (a : BlockAssembler) (pindexPrev : CBlockIndex)
    (now : Z) (fMineWitnessTx : bool) : LoopResult :=
  addPackageTxs (CreateNewBlock_prelude a pindexPrev now fMineWitnessTx).

(** Lines 165-173 and 175: the coinbase replaces the placeholder. *)
Definition coinbaseTx (a : BlockAssembler) (scriptPubKeyIn : list ScriptElem)
    : CMutableTransaction :=
  {| vin0_prevout_null := true;
     vin0_scriptSig := [PushNum (nHeight a); OP_0];
     vout0_scriptPubKey := scriptPubKeyIn;
     vout0_nValue := nFees a + GetBlockSubsidy cc (nHeight a) |}.

Definition CreateNewBlock_coinbase (a : BlockAssembler)
    (scriptPubKeyIn : list ScriptElem) : BlockAssembler :=
  {| vtx := <[0%nat := CoinbaseTx (coinbaseTx a scriptPubKeyIn)]> (vtx a);
     vTxFees := <[0%nat := - nFees a]> (vTxFees a);
     vTxSigOpsCost := vTxSigOpsCost a;
     blk_nVersion := blk_nVersion a; blk_nTime := blk_nTime a;
     fIncludeWitness := fIncludeWitness a;
     nBlockMaxWeight := nBlockMaxWeight a;
     blockMinFeeRate := blockMinFeeRate a;
     nBlockWeight := nBlockWeight a; nBlockTx := nBlockTx a;
     nBlockSigOpsCost := nBlockSigOpsCost a; nFees := nFees a;
     inBlock := inBlock a;
     nHeight := nHeight a; nLockTimeCutoff := nLockTimeCutoff a |}.

(** [CreateNewBlock] up to line 175.  The witness commitment, the rest of
    the header and the call of [TestBlockValidity] (lines 174, 177-194) are
    not modelled. *)
Definition CreateNewBlock (a : BlockAssembler) (pindexPrev : CBlockIndex)
    (now : Z) (scriptPubKeyIn : list ScriptElem) (fMineWitnessTx : bool)
    : option BlockAssembler :=
  match CreateNewBlock_select a pindexPrev now fMineWitnessTx with
  | Finished st => Some (CreateNewBlock_coinbase (asm st) scriptPubKeyIn)
  | Aborted | OutOfFuel => None
  end.

End Code.

End Assembler.

(** ** Submission of a found block *)

Module Submit.

Record CBlock := {
  header : Scan.CBlockHeader;
  block_vtx : list Assembler.CTransactionRef
}.

Inductive LogLine :=
  | LogBlock (b : CBlock)          (* [block->ToString()] *)
  | LogGenerated (b : CBlock)      (* ["generated %s"] *)
  | LogError (msg : string).       (* what [error(...)] prints *)

Section Code.

(** The validation layer: the active chain, the hash of its tip, and
    [ProcessNewBlock], which may move the tip. *)
Variable Chain : Type.
Variable Tip_GetBlockHash : Chain -> Z.
Variable ProcessNewBlock : Chain -> CBlock -> bool * Chain.

(** The node as [ProcessBlockFound] sees it; [handed_over] lists (ghost)
    the blocks given to [ProcessNewBlock], oldest first. *)
Record Node := {
  chainActive : Chain;
  debug_log : list LogLine;
  handed_over : list CBlock
}.

Definition LogPrintf (l : LogLine) (n : Node) : Node :=
  {| chainActive := chainActive n; debug_log := debug_log n ++ [l];
     handed_over := handed_over n |}.

(** [error(msg)] prints the message and returns [false]. *)
Definition error (msg : string) (n : Node) : bool * Node :=
  (false, LogPrintf (LogError msg) n).

Definition call_ProcessNewBlock (block : CBlock) (n : Node) : bool * Node :=
  let r := ProcessNewBlock (chainActive n) block in
  (r.1, {| chainActive := r.2; debug_log := debug_log n;
           handed_over := handed_over n ++ [block] |}).

Definition ProcessBlockFound (block : CBlock) (n : Node) : bool * Node :=
  let n := LogPrintf (LogBlock block) n in
  let n := LogPrintf (LogGenerated block) n in
  if negb (Scan.hashPrevBlock (header block) =? Tip_GetBlockHash (chainActive n))
  then error "ProcessBlockFound: generated block is stale" n
  else
    let r := call_ProcessNewBlock block n in
    if negb r.1
    then error "ProcessBlockFound: ProcessNewBlock, block not accepted" r.2
    else (true, r.2).

End Code.

End Submit.

(** ** The rest of the miner

    The clock update [UpdateTime], the default options of the assembler,
    the end of [CreateNewBlock] (header, validity check), the extra nonce,
    one turn of the search loop of [CoinMiner], and the thread group of
    [GenerateCoins]. *)

Module Miner.

Import Scan Assembler Submit.

(** What a function of this file throws. *)
Inductive Thrown :=
  | runtime_error (what : string)
  | thread_interrupted.

(** Constants and functions of other translation units used below. *)
Record Environment := {
  (** [consensusParams.fPowAllowMinDifficultyBlocks] *)
  fPowAllowMinDifficultyBlocks : bool;
  (** [GetNextWorkRequired(pindexPrev, pblock, consensusParams)] *)
  GetNextWorkRequired : CBlockIndex -> CBlockHeader -> Z;
  (** [GenerateCoinbaseCommitment(block, pindexPrev, consensusParams)]: the
      commitment it returns and the block it leaves (the block is passed by
      reference) *)
  GenerateCoinbaseCommitment : CBlock -> CBlockIndex -> list Z * CBlock;
  GetLegacySigOpCount : CTransactionRef -> Z;
  (** [TestBlockValidity(state, chainparams, block, pindexPrev, false, false)]:
      [None] when the block is valid, [FormatStateMessage(state)] otherwise *)
  TestBlockValidity : CBlock -> CBlockIndex -> option string;
  (** the header of [CBlock()] *)
  null_header : CBlockHeader;
  (** [(CScript() << nHeight << CScriptNum(nExtraNonce)) + COINBASE_FLAGS] *)
  extranonce_scriptSig : Z -> Z -> list ScriptElem;
  (** [CScript::size()] *)
  script_size : list ScriptElem -> Z;
  BlockMerkleRoot : CBlock -> Z;
  (** [arith_uint256().SetCompact(nBits)] *)
  SetCompact : Z -> Z;
  (** [CBlockHeader::GetPoWHash()] *)
  GetPoWHash : CBlockHeader -> Z;
  DEFAULT_BLOCK_MAX_WEIGHT : Z;
  DEFAULT_BLOCK_MIN_TX_FEE : Z;
  (** [ParseMoney(str, nRet)]: whether it succeeded, and [nRet] afterwards,
      from the string and [nRet] before *)
  ParseMoney : string -> Z -> bool * Z;
  GetNumCores : Z
}.

(** The command line, as [gArgs] answers for the two options read here. *)
Record ArgsManager := {
  arg_blockmaxweight : option Z;
  arg_blockmintxfee : option string
}.

Definition set_nTime (h : CBlockHeader) (t : Z) : CBlockHeader :=
  {| nVersion := nVersion h; hashPrevBlock := hashPrevBlock h;
     hashMerkleRoot := hashMerkleRoot h; nTime := t;
     nBits := nBits h; nNonce := nNonce h |}.

Definition set_nBits (h : CBlockHeader) (b : Z) : CBlockHeader :=
  {| nVersion := nVersion h; hashPrevBlock := hashPrevBlock h;
     hashMerkleRoot := hashMerkleRoot h; nTime := nTime h;
     nBits := b; nNonce := nNonce h |}.

Definition set_hashPrevBlock (h : CBlockHeader) (p : Z) : CBlockHeader :=
  {| nVersion := nVersion h; hashPrevBlock := p;
     hashMerkleRoot := hashMerkleRoot h; nTime := nTime h;
     nBits := nBits h; nNonce := nNonce h |}.

Definition set_hashMerkleRoot (h : CBlockHeader) (r : Z) : CBlockHeader :=
  {| nVersion := nVersion h; hashPrevBlock := hashPrevBlock h;
     hashMerkleRoot := r; nTime := nTime h;
     nBits := nBits h; nNonce := nNonce h |}.

Definition set_header (b : CBlock) (h : CBlockHeader) : CBlock :=
  {| header := h; block_vtx := block_vtx b |}.

(** The template [CreateNewBlock] returns. *)
Record CBlockTemplate := {
  block : CBlock;
  vTxFees : list Z;
  vTxSigOpsCost : list Z;
  vchCoinbaseCommitment : list Z
}.

(** The two globals [CreateNewBlock] leaves for the RPC layer. *)
Record LastBlock := {
  nLastBlockTx : Z;
  nLastBlockWeight : Z
}.

(** [minerThreads]: the thread group, if there is one, as the list of the
    characters its threads were started with.  [interrupted] lists (ghost)
    the groups [interrupt_all] was called on, the latest first. *)
Record Threads := {
  minerThreads : option (list Z);
  interrupted : list (list Z)
}.

Section Code.

Variable env : Environment.

(** [UpdateTime]: the header afterwards and the value returned.  [now] is
    what [GetAdjustedTime()] returns. *)
Definition UpdateTime (pblock : CBlockHeader) (pindexPrev : CBlockIndex) (now : Z)
    : CBlockHeader * Z :=
  let nOldTime := nTime pblock in
  let nNewTime := Z.max (GetMedianTimePast pindexPrev + 1) now in
  let pblock := if nOldTime <? nNewTime then set_nTime pblock (u32 nNewTime) else pblock in
  let pblock :=
    if fPowAllowMinDifficultyBlocks env
    then set_nBits pblock (u32 (GetNextWorkRequired env pindexPrev pblock))
    else pblock in
  (pblock, nNewTime - nOldTime).

(** [BlockAssembler::Options::Options()] *)
Definition Options_default : Options :=
  {| opt_blockMinFeeRate := {| nSatoshisPerK := DEFAULT_BLOCK_MIN_TX_FEE env |};
     opt_nBlockMaxWeight := DEFAULT_BLOCK_MAX_WEIGHT env |}.

Definition DefaultOptions (gArgs : ArgsManager) : Options :=
  let options := Options_default in
  let nBlockMaxWeight :=
    u64 (default (DEFAULT_BLOCK_MAX_WEIGHT env) (arg_blockmaxweight gArgs)) in
  match arg_blockmintxfee gArgs with
  | Some str =>
      let n := 0 in
      let n := (ParseMoney env str n).2 in
      {| opt_blockMinFeeRate := {| nSatoshisPerK := n |};
         opt_nBlockMaxWeight := nBlockMaxWeight |}
  | None =>
      {| opt_blockMinFeeRate := {| nSatoshisPerK := DEFAULT_BLOCK_MIN_TX_FEE env |};
         opt_nBlockMaxWeight := nBlockMaxWeight |}
  end.

(** [IncrementExtraNonce].  [static_hashPrevBlock] is the function's static
    variable.  The result is [None] when [vtx[0]] is not a coinbase as
    [CreateNewBlock] builds it, or when the assertion of line 460 fails;
    otherwise the static variable, the block and [nExtraNonce] afterwards. *)
Definition IncrementExtraNonce (static_hashPrevBlock : Z) (pblock : CBlock)
    (pindexPrev : CBlockIndex) (nExtraNonce : Z) : option (Z * CBlock * Z) :=
  let changed := negb (static_hashPrevBlock =? hashPrevBlock (header pblock)) in
  let nExtraNonce := if changed then 0 else nExtraNonce in
  let static_hashPrevBlock :=
    if changed then hashPrevBlock (header pblock) else static_hashPrevBlock in
  let nExtraNonce := u32 (nExtraNonce + 1) in
  let nHeight := u32 (nHeight_tip pindexPrev + 1) in
  match block_vtx pblock with
  | CoinbaseTx tx :: rest =>
      let txCoinbase :=
        {| vin0_prevout_null := vin0_prevout_null tx;
           vin0_scriptSig := extranonce_scriptSig env nHeight nExtraNonce;
           vout0_scriptPubKey := vout0_scriptPubKey tx;
           vout0_nValue := vout0_nValue tx |} in
      if script_size env (vin0_scriptSig txCoinbase) <=? 100 then
        let pblock := {| header := header pblock;
                         block_vtx := CoinbaseTx txCoinbase :: rest |} in
        let pblock :=
          set_header pblock (set_hashMerkleRoot (header pblock) (BlockMerkleRoot env pblock)) in
        Some (static_hashPrevBlock, pblock, nExtraNonce)
      else None
  | _ => None
  end.

(** *** The thread group *)

Definition HowManyMiningThreads (t : Threads) : Z :=
  match minerThreads t with
  | Some group => Z.of_nat (length group)
  | None => 0
  end.

(** The characters ['1' + i] for [i] below [n], each kept in a [char]. *)
Definition thread_chars (n : Z) : list Z :=
  map (fun i => (49 + Z.of_nat i) mod 256) (seq 0 (Z.to_nat n)).

Definition GenerateCoins (fGenerate : bool) (nThreads : Z) (t : Threads) : Threads :=
  let nThreads := if nThreads <? 0 then GetNumCores env else nThreads in
  let t :=
    match minerThreads t with
    | Some group => {| minerThreads := None; interrupted := group :: interrupted t |}
    | None => t
    end in
  if (nThreads =? 0) || negb fGenerate then t
  else {| minerThreads := Some (thread_chars (u32 nThreads));
          interrupted := interrupted t |}.

(** *** The end of [CreateNewBlock] *)

Variable cc : Collaborators.
Variable mempool : CTxMemPool.

(** [BlockAssembler::BlockAssembler(params)] *)
Definition BlockAssembler_default (gArgs : ArgsManager) : BlockAssembler :=
  new_BlockAssembler cc (DefaultOptions gArgs).

(** The block the assembler holds through [pblock]: the header of a fresh
    [CBlock] with the two fields written by lines 135-141, and [vtx]. *)
Definition block_of (a : BlockAssembler) : CBlock :=
  {| header :=
       {| nVersion := blk_nVersion a;
          hashPrevBlock := hashPrevBlock (null_header env);
          hashMerkleRoot := hashMerkleRoot (null_header env);
          nTime := blk_nTime a;
          nBits := nBits (null_header env);
          nNonce := nNonce (null_header env) |};
     block_vtx := vtx a |}.

(** Lines 174 and 180-183, on the assembler as line 173 and line 175 leave
    it: the commitment, and the block with its header filled in.  [now] is
    the clock as [UpdateTime] reads it. *)
Definition CreateNewBlock_header (a : BlockAssembler) (pindexPrev : CBlockIndex)
    (now : Z) : list Z * CBlock :=
  let gen := GenerateCoinbaseCommitment env (block_of a) pindexPrev in
  let pblock := gen.2 in
  let h := set_hashPrevBlock (header pblock) (GetBlockHash pindexPrev) in
  let h := (UpdateTime h pindexPrev now).1 in
  let h := set_nBits h (u32 (GetNextWorkRequired env pindexPrev h)) in
  let h := set_nNonce h 0 in
  (gen.1, set_header pblock h).

(** Lines 174-194.  [None]: [vtx] or [vTxSigOpsCost] has no first element
    to read or to write. *)
Definition CreateNewBlock_finish (a : BlockAssembler) (pindexPrev : CBlockIndex)
    (now : Z) : option (Thrown + CBlockTemplate) :=
  let built := CreateNewBlock_header a pindexPrev now in
  let pblock := built.2 in
  match block_vtx pblock, Assembler.vTxSigOpsCost a with
  | tx0 :: _, _ :: sigops =>
      let tpl :=
        {| block := pblock;
           vTxFees := Assembler.vTxFees a;
           vTxSigOpsCost :=
             u32 (WITNESS_SCALE_FACTOR * GetLegacySigOpCount env tx0) :: sigops;
           vchCoinbaseCommitment := built.1 |} in
      match TestBlockValidity env pblock pindexPrev with
      | Some msg =>
          Some (inl (runtime_error
                       ("CreateNewBlock: TestBlockValidity failed: " ++ msg)))
      | None => Some (inr tpl)
      end
  | _, _ => None
  end.

(** The whole of [CreateNewBlock]: the assembler afterwards, the two
    globals, and the exception or the template.  [now] and [now'] are the
    two readings of the adjusted clock (line 141, and line 57 through line
    181).  [None]: the assertion of line 375 fails. *)
Definition CreateNewBlock_template (a : BlockAssembler) (pindexPrev : CBlockIndex)
    (now now' : Z) (scriptPubKeyIn : list ScriptElem) (fMineWitnessTx : bool)
    : option (BlockAssembler * LastBlock * (Thrown + CBlockTemplate)) :=
  match CreateNewBlock cc mempool a pindexPrev now scriptPubKeyIn fMineWitnessTx with
  | Some a =>
      match CreateNewBlock_finish a pindexPrev now' with
      | Some r =>
          Some (a, {| nLastBlockTx := nBlockTx a; nLastBlockWeight := nBlockWeight a |}, r)
      | None => None
      end
  | None => None
  end.

(** *** The search loop of [CoinMiner] *)

Variable scrypt : CBlockHeader -> Z.
Variable Chain : Type.
Variable Tip_GetBlockHash : Chain -> Z.
Variable ProcessNewBlock : Chain -> CBlock -> bool * Chain.

(** The variables of the inner [while ( true )] (lines 642-647), the node
    it acts on, and (ghost) whether [KeepScript()] was called. *)
Record Search := {
  pblock : CBlock;
  nNonce : Z;
  hash : Z;
  hashesScanned : Z;
  solutionHash : Z;
  node : Node Chain;
  KeepScript_called : bool
}.

(** What one turn of the loop reads from outside. *)
Record Readings := {
  (** [randomNumber()], line 687 *)
  randomNumber : Z;
  (** [boost::this_thread::interruption_point()] throws *)
  interruption_requested : bool;
  (** [pindexPrev != chainActive.Tip()], line 696 *)
  tip_moved : bool;
  (** [GetAdjustedTime()], in [UpdateTime] *)
  adjusted_time : Z
}.

(** How a turn ends: the loop goes on, is left by [break], or is left by
    an exception. *)
Inductive TurnEnd :=
  | Again (s : Search)
  | Break (s : Search)
  | Throw (e : Thrown) (s : Search).

Definition after_scan (s : Search) (r : ScanResult) : Search :=
  {| pblock := pblock s; nNonce := out_nNonce r; hash := out_phash r;
     hashesScanned := out_hashesScanned r; solutionHash := solutionHash s;
     node := node s; KeepScript_called := KeepScript_called s |}.

(** Lines 691-709. *)
Definition check_rebuild (pindexPrev : CBlockIndex) (rd : Readings) (s : Search)
    : TurnEnd :=
  if interruption_requested rd then Throw thread_interrupted s
  else if tip_moved rd then Break s
  else
    let upd := UpdateTime (header (pblock s)) pindexPrev (adjusted_time rd) in
    let s' :=
      {| pblock := set_header (pblock s) upd.1; nNonce := nNonce s; hash := hash s;
         hashesScanned := hashesScanned s; solutionHash := solutionHash s;
         node := node s; KeepScript_called := KeepScript_called s |} in
    if upd.2 <? 0 then Break s'
    else if fPowAllowMinDifficultyBlocks env then
      Again {| pblock := pblock s'; nNonce := nNonce s'; hash := hash s';
               hashesScanned := hashesScanned s';
               solutionHash := u256 (SetCompact env (Scan.nBits (header (pblock s'))));
               node := node s'; KeepScript_called := KeepScript_called s' |}
    else Again s'.

(** Lines 662-688, when the scanner has returned [true].  The log lines of
    [CoinMiner] itself are left out. *)
Definition solution_found (pindexPrev : CBlockIndex) (rd : Readings) (s : Search)
    : TurnEnd :=
  if u256 (hash s) <=? u256 (solutionHash s) then
    let s :=
      {| pblock := set_header (pblock s) (set_nNonce (header (pblock s)) (nNonce s));
         nNonce := nNonce s; hash := hash s;
         hashesScanned := hashesScanned s; solutionHash := solutionHash s;
         node := node s; KeepScript_called := KeepScript_called s |} in
    if negb (u256 (hash s) =? u256 (GetPoWHash env (header (pblock s)))) then
      Throw (runtime_error "hash != pblock->GetPoWHash()") s
    else
      let r := ProcessBlockFound Chain Tip_GetBlockHash ProcessNewBlock (pblock s) (node s) in
      let s :=
        {| pblock := pblock s; nNonce := nNonce s; hash := hash s;
           hashesScanned := hashesScanned s; solutionHash := solutionHash s;
           node := r.2; KeepScript_called := true |} in
      if MineBlocksOnDemand cc then Throw thread_interrupted s else Break s
  else
    check_rebuild pindexPrev rd
      {| pblock := pblock s; nNonce := u32 (randomNumber rd); hash := hash s;
         hashesScanned := hashesScanned s; solutionHash := solutionHash s;
         node := node s; KeepScript_called := KeepScript_called s |}.

(** One turn of the loop of lines 657-710.  [None] only if the model of the
    scanner ran out of fuel, which it does not. *)
Definition CoinMiner_turn (pindexPrev : CBlockIndex) (rd : Readings) (s : Search)
    : option TurnEnd :=
  match ScanScryptHash scrypt (header (pblock s)) (nNonce s) (hash s)
          (solutionHash s) (hashesScanned s) with
  | Some r =>
      let s := after_scan s r in
      if ret r then Some (solution_found pindexPrev rd s)
      else Some (check_rebuild pindexPrev rd s)
  | None => None
  end.

(** Lines 625-647: the block to search on and the variables of the
    search.  [pindexPrev] is the tip [CoinMiner] reads at line 625 and [tip]
    the one [CreateNewBlock] reads at line 131; [null_hash] is the value of
    [uint256 hash ;].  The result, when there is no exception: the static
    variable of [IncrementExtraNonce], [nExtraNonce], and the search. *)
Definition CoinMiner_prepare (gArgs : ArgsManager) (pindexPrev tip : CBlockIndex)
    (now now' : Z) (reserveScript : list ScriptElem) (fMineWitnessTx : bool)
    (static_hashPrevBlock nExtraNonce null_hash rnd : Z) (n : Node Chain)
    : option (Thrown + Z * Z * Search) :=
  match CreateNewBlock_template (BlockAssembler_default gArgs) tip now now'
          reserveScript fMineWitnessTx with
  | Some (_, _, inl e) => Some (inl e)
  | Some (_, _, inr pblocktemplate) =>
      match IncrementExtraNonce static_hashPrevBlock (block pblocktemplate)
              pindexPrev nExtraNonce with
      | Some (static_hashPrevBlock, pblock, nExtraNonce) =>
          Some (inr (static_hashPrevBlock, nExtraNonce,
                     {| pblock := pblock;
                        nNonce := u32 rnd;
                        hash := null_hash;
                        hashesScanned := 0;
                        solutionHash := u256 (SetCompact env (Scan.nBits (header pblock)));
                        node := n;
                        KeepScript_called := false |}))
      | None => None
      end
  | None => None
  end.

(** The loop, for as many turns as there are readings; [Again] at the end
    means that the search is still going on. *)
Fixpoint CoinMiner_search (pindexPrev : CBlockIndex) (rds : list Readings)
    (s : Search) : option TurnEnd :=
  match rds with
  | [] => Some (Again s)
  | rd :: rds =>
      match CoinMiner_turn pindexPrev rd s with
      | Some (Again s') => CoinMiner_search pindexPrev rds s'
      | other => other
      end
  end.

End Code.

Arguments pblock {Chain}.
Arguments nNonce {Chain}.
Arguments hash {Chain}.
Arguments hashesScanned {Chain}.
Arguments solutionHash {Chain}.
Arguments node {Chain}.
Arguments KeepScript_called {Chain}.
Arguments Again {Chain}.
Arguments Break {Chain}.
Arguments Throw {Chain}.

(** The variables as a turn of the search leaves them. *)
Definition state_of {Chain : Type} (e : TurnEnd Chain) : Search Chain :=
  match e with
  | Again s | Break s | Throw _ s => s
  end.

End Miner.

(** * Part II: properties *)

(** ** The nonce scanner *)

Lemma firstLEZeroByte_from_SS (t : Z) (p : nat) :
  Scan.firstLEZeroByte_from t (S (S p)) =
  if byte_at t (S p) =? 0 then Scan.firstLEZeroByte_from t (S p) else S (S p).
Proof. reflexivity. Qed.

Lemma firstLEZeroByte_from_le (t : Z) (k : nat) :
  (Scan.firstLEZeroByte_from t k <= k)%nat.
Proof.
  induction k as [|k IH]; [cbn; lia|].
  destruct k as [|k]; [cbn; lia|].
  rewrite firstLEZeroByte_from_SS.
  destruct (byte_at t (S k) =? 0); lia.
Qed.

Lemma firstLEZeroByte_32 (t : Z) :
  Scan.firstLEZeroByte t = 32%nat <-> byte_at t 31 <> 0.
Proof.
  unfold Scan.firstLEZeroByte. change 32%nat with (S (S 30)).
  rewrite firstLEZeroByte_from_SS. change (S 30) with 31%nat.
  pose proof (firstLEZeroByte_from_le t 31).
  destruct (byte_at t 31 =? 0) eqn:E.
  - apply Z.eqb_eq in E. split; [lia | contradiction].
  - apply Z.eqb_neq in E. tauto.
Qed.

(** *** Bytes of a 256-bit number *)

Lemma byte_at_div (x : Z) (i : nat) :
  byte_at x i = (x / 2 ^ (8 * Z.of_nat i)) mod 256.
Proof.
  unfold byte_at. rewrite Z.shiftr_div_pow2 by lia.
  change 255 with (Z.ones 8). rewrite Z.land_ones by lia. reflexivity.
Qed.

Lemma byte_at_above (h : Z) (f j : nat) :
  0 <= h < 2 ^ (8 * Z.of_nat f) -> (f <= j)%nat -> byte_at h j = 0.
Proof.
  intros [H0 Hlt] Hfj. rewrite byte_at_div.
  rewrite Z.div_small; [reflexivity|]. split; [lia|].
  eapply Z.lt_le_trans; [exact Hlt|].
  apply Z.pow_le_mono_r; lia.
Qed.

Lemma zero_byte_lowers_bound (t : Z) (k : nat) :
  0 <= t < 2 ^ (8 * Z.of_nat (S k)) -> byte_at t k = 0 ->
  t < 2 ^ (8 * Z.of_nat k).
Proof.
  intros [H0 Hlt] Hb. rewrite byte_at_div in Hb.
  assert (Hp : 0 < 2 ^ (8 * Z.of_nat k)) by (apply Z.pow_pos_nonneg; lia).
  assert (Hq : t / 2 ^ (8 * Z.of_nat k) < 256).
  { apply Z.div_lt_upper_bound; [lia|].
    replace (8 * Z.of_nat (S k)) with (8 * Z.of_nat k + 8) in Hlt by lia.
    rewrite Z.pow_add_r in Hlt by lia. change (2 ^ 8) with 256 in Hlt. lia. }
  assert (Hz : 0 <= t / 2 ^ (8 * Z.of_nat k)) by (apply Z.div_pos; lia).
  rewrite Z.mod_small in Hb by lia.
  apply Z.div_small_iff in Hb; lia.
Qed.

Lemma zero_bytes_bound (t : Z) (k : nat) :
  (k <= 32)%nat -> 0 <= t < 2 ^ 256 ->
  (forall j, (k <= j < 32)%nat -> byte_at t j = 0) ->
  t < 2 ^ (8 * Z.of_nat k).
Proof.
  intros Hk Ht Hz.
  remember (32 - k)%nat as d eqn:Hd. revert k Hk Hz Hd.
  induction d as [|d IH]; intros k Hk Hz Hd.
  - assert (k = 32%nat) by lia. subst k. exact (proj2 Ht).
  - apply zero_byte_lowers_bound; [|apply Hz; lia].
    split; [lia|]. apply IH; [lia| |lia].
    intros j Hj. apply Hz. lia.
Qed.

Lemma firstLEZeroByte_from_zero (t : Z) (n : nat) :
  (forall j, (n <= j < 32)%nat -> byte_at t j = 0) ->
  forall j, (Scan.firstLEZeroByte_from t n <= j < 32)%nat -> byte_at t j = 0.
Proof.
  induction n as [|n IH]; intros Hz j Hj; [apply Hz; exact Hj|].
  destruct n as [|n]; [apply Hz; exact Hj|].
  change (Scan.firstLEZeroByte_from t (S (S n)))
    with (if byte_at t (S n) =? 0 then Scan.firstLEZeroByte_from t (S n) else S (S n)) in Hj.
  destruct (byte_at t (S n) =? 0) eqn:E; [|apply Hz; exact Hj].
  apply Z.eqb_eq in E. apply IH; [|exact Hj].
  intros i Hi. destruct (Nat.eq_dec i (S n)) as [->|Hne]; [exact E|].
  apply Hz. lia.
Qed.

Lemma firstLEZeroByte_zero (t : Z) (j : nat) :
  (Scan.firstLEZeroByte t <= j < 32)%nat -> byte_at t j = 0.
Proof. apply firstLEZeroByte_from_zero. intros i Hi. lia. Qed.

Lemma found_spec (f : nat) (h : Z) :
  Scan.found f h = true <-> forall j, (f <= j < 32)%nat -> byte_at h j = 0.
Proof.
  unfold Scan.found. rewrite forallb_forall. split.
  - intros H j Hj. apply Z.eqb_eq, H, in_seq. lia.
  - intros H j Hj. apply in_seq in Hj. apply Z.eqb_eq, H. lia.
Qed.

(** Every hash not above the target passes the scanner's test. *)
Lemma below_target_is_found (t h : Z) :
  0 <= h <= u256 t -> Scan.found (Scan.firstLEZeroByte (u256 t)) h = true.
Proof.
  intros Hh. apply found_spec. intros j Hj.
  assert (Ht : 0 <= u256 t < 2 ^ 256) by (apply Z.mod_pos_bound; lia).
  pose proof (firstLEZeroByte_from_le (u256 t) 32) as Hle.
  apply (byte_at_above h (Scan.firstLEZeroByte (u256 t))); [|lia].
  split; [lia|].
  eapply Z.le_lt_trans; [exact (proj2 Hh)|].
  apply zero_bytes_bound; [exact Hle | exact Ht |].
  intros i Hi. apply firstLEZeroByte_zero. exact Hi.
Qed.

Section ScanProofs.

Import Scan.

Variable scrypt : CBlockHeader -> Z.

(** *** Arithmetic of the nonce counter *)

Lemma land_fff (x : Z) : Z.land x 0xfff = x mod 4096.
Proof. change 0xfff with (Z.ones 12). rewrite Z.land_ones by lia. reflexivity. Qed.

Lemma u32_mod_4096 (x : Z) : u32 x mod 4096 = x mod 4096.
Proof.
  unfold u32. apply Z.mod_mod_divide. exists 1048576. reflexivity.
Qed.

Lemma u32_add_l (x y : Z) : u32 (u32 x + y) = u32 (x + y).
Proof. unfold u32. apply Zplus_mod_idemp_l. Qed.

(** Distance, in hashes, from [nNonce] to the next multiple of 4096. *)
Definition to_boundary (nNonce : Z) : Z := 4096 - nNonce mod 4096.

Lemma to_boundary_range (n : Z) : 1 <= to_boundary n <= 4096.
Proof. unfold to_boundary. pose proof (Z.mod_pos_bound n 4096). lia. Qed.

Lemma to_boundary_step (n : Z) :
  Z.land (u32 (n + 1)) 0xfff <> 0 ->
  to_boundary (u32 (n + 1)) = to_boundary n - 1.
Proof.
  rewrite land_fff, u32_mod_4096. unfold to_boundary. rewrite u32_mod_4096.
  intros Hne.
  pose proof (Z.mod_pos_bound n 4096 ltac:(lia)) as Hb.
  destruct (Z.eq_dec (n mod 4096) 4095) as [E|E].
  - exfalso. apply Hne.
    rewrite <- Zplus_mod_idemp_l, E. reflexivity.
  - rewrite <- Zplus_mod_idemp_l. rewrite Z.mod_small by lia. lia.
Qed.

(** What one call of the scan loop guarantees about its outputs. *)
Record scan_post (blockHeader : CBlockHeader) (f : nat)
    (nNonce hashesScanned : Z) (calls : nat) (r : ScanResult) : Prop := {
  post_calls : exists k : nat,
      (1 <= k)%nat /\ Z.of_nat k <= to_boundary nNonce /\
      scrypt_calls r = (calls + k)%nat /\
      out_nNonce r = u32 (nNonce + Z.of_nat k) /\
      out_hashesScanned r = u32 (hashesScanned + Z.of_nat k);
  post_false : ret r = false -> Z.land (out_nNonce r) 0xfff = 0;
  post_true : ret r = true -> found f (out_phash r) = true;
  post_hash : exists n, out_phash r = u256 (scrypt (set_nNonce blockHeader n))
}.

Lemma set_nNonce_twice (h : CBlockHeader) (a b : Z) :
  set_nNonce (set_nNonce h a) b = set_nNonce h b.
Proof. reflexivity. Qed.

Lemma scan_loop_total (fuel : nat) :
  forall blockHeader f nNonce phash hashesScanned calls,
    to_boundary nNonce <= Z.of_nat fuel ->
    exists r,
      scan_loop scrypt fuel blockHeader f nNonce phash hashesScanned calls = Some r /\
      scan_post blockHeader f nNonce hashesScanned calls r.
Proof.
  induction fuel as [|fuel IH]; intros hdr f n ph hs calls Hfuel.
  - pose proof (to_boundary_range n). lia.
  - cbn [scan_loop].
    destruct (found f (u256 (scrypt (set_nNonce hdr n)))) eqn:Hfound.
    + eexists; split; [reflexivity|].
      pose proof (to_boundary_range n).
      split; cbn; try done.
      * exists 1%nat. repeat split; auto; lia.
      * eauto.
    + destruct (Z.land (u32 (n + 1)) 0xfff =? 0) eqn:Hb.
      * apply Z.eqb_eq in Hb. eexists; split; [reflexivity|].
        pose proof (to_boundary_range n).
        split; cbn; try done.
        -- exists 1%nat. repeat split; auto; lia.
        -- eauto.
      * apply Z.eqb_neq in Hb. pose proof (to_boundary_step n Hb) as Hstep.
        destruct (IH (set_nNonce hdr n) f (u32 (n + 1))
                    (u256 (scrypt (set_nNonce hdr n))) (u32 (hs + 1)) (S calls))
          as (r & Hr & [Hk Hf Ht Hh]); [lia|].
        exists r; split; [exact Hr|]. split; auto.
        destruct Hk as (k & Hk1 & Hk2 & Hk3 & Hk4 & Hk5).
        exists (S k). rewrite Nat2Z.inj_succ.
        repeat split; try lia.
        -- rewrite Hk4, u32_add_l. f_equal; lia.
        -- rewrite Hk5, u32_add_l. f_equal; lia.
Qed.


Lemma ScanScryptHash_total blockHeader nNonce phash solutionHash hashesScanned :
  exists r,
    ScanScryptHash scrypt blockHeader nNonce phash solutionHash hashesScanned = Some r /\
    (byte_at (u256 solutionHash) 31 <> 0 ->
       r = {| ret := true; out_nNonce := nNonce; out_phash := phash;
              out_hashesScanned := hashesScanned; scrypt_calls := 0 |}) /\
    (byte_at (u256 solutionHash) 31 = 0 ->
       scan_post blockHeader (firstLEZeroByte (u256 solutionHash))
                 nNonce hashesScanned 0 r).
Proof.
  unfold ScanScryptHash.
  destruct (Nat.eqb (firstLEZeroByte (u256 solutionHash)) 32) eqn:Hf.
  - apply Nat.eqb_eq, firstLEZeroByte_32 in Hf.
    eexists; split; [reflexivity|]. split; [reflexivity|].
    intros Hz. contradiction.
  - apply Nat.eqb_neq in Hf. rewrite firstLEZeroByte_32 in Hf.
    destruct (scan_loop_total 4096 blockHeader
                (firstLEZeroByte (u256 solutionHash)) nNonce phash hashesScanned 0)
      as (r & Hr & Hpost).
    { pose proof (to_boundary_range nNonce). lia. }
    exists r; split; [exact Hr|]. split; [|intros _; exact Hpost].
    intros Hnz. contradiction.
Qed.

(** C9: every call of [ScanScryptHash] returns, after at most 4096 runs of
    scrypt and no later than when the incremented nonce reaches a multiple
    of 4096; a call that returns without success ends exactly on such a
    multiple, and the two counters advanced by the number of hashes. *)
Theorem C9_ScanScryptHash_terminates
    blockHeader nNonce phash solutionHash hashesScanned :
  exists r,
    ScanScryptHash scrypt blockHeader nNonce phash solutionHash hashesScanned = Some r /\
    (scrypt_calls r <= 4096)%nat /\
    Z.of_nat (scrypt_calls r) <= 4096 - nNonce mod 4096 /\
    (ret r = false ->
       (1 <= scrypt_calls r)%nat /\ Z.land (out_nNonce r) 0xfff = 0) /\
    (scrypt_calls r = 0%nat ->
       ret r = true /\ out_nNonce r = nNonce /\ out_hashesScanned r = hashesScanned) /\
    ((1 <= scrypt_calls r)%nat ->
       out_nNonce r = u32 (nNonce + Z.of_nat (scrypt_calls r)) /\
       out_hashesScanned r = u32 (hashesScanned + Z.of_nat (scrypt_calls r))).
Proof.
  destruct (ScanScryptHash_total blockHeader nNonce phash solutionHash hashesScanned)
    as (r & Hr & Hnz & Hz).
  exists r. split; [exact Hr|].
  pose proof (to_boundary_range nNonce) as Hb. unfold to_boundary in Hb.
  destruct (Z.eq_dec (byte_at (u256 solutionHash) 31) 0) as [E|E].
  - destruct (Hz E) as [(k & Hk1 & Hk2 & Hk3 & Hk4 & Hk5) Hf _ _].
    unfold to_boundary in Hk2. cbn in Hk3. rewrite Hk3.
    repeat split; try lia; auto.
  - rewrite (Hnz E). cbn. repeat split; try lia; try discriminate.
Qed.

(** C4 (amended): a target whose most significant byte (byte 31) is not
    zero makes [ScanScryptHash] return success at once, without a single
    hash and without touching its outputs. *)
Theorem C4_nonzero_top_byte_returns_at_once
    blockHeader nNonce phash solutionHash hashesScanned :
  byte_at (u256 solutionHash) 31 <> 0 ->
  ScanScryptHash scrypt blockHeader nNonce phash solutionHash hashesScanned =
  Some {| ret := true; out_nNonce := nNonce; out_phash := phash;
          out_hashesScanned := hashesScanned; scrypt_calls := 0 |}.
Proof.
  intros Hnz.
  destruct (ScanScryptHash_total blockHeader nNonce phash solutionHash hashesScanned)
    as (r & Hr & Hr' & _).
  rewrite Hr, (Hr' Hnz). reflexivity.
Qed.

(** Any other target, the all-zero one included, costs at least one hash. *)
Lemma zero_top_byte_computes_a_hash
    blockHeader nNonce phash solutionHash hashesScanned :
  byte_at (u256 solutionHash) 31 = 0 ->
  exists r,
    ScanScryptHash scrypt blockHeader nNonce phash solutionHash hashesScanned = Some r /\
    (1 <= scrypt_calls r)%nat.
Proof.
  intros Hz.
  destruct (ScanScryptHash_total blockHeader nNonce phash solutionHash hashesScanned)
    as (r & Hr & _ & Hpost).
  exists r. split; [exact Hr|].
  destruct (Hpost Hz) as [(k & Hk1 & _ & Hk3 & _) _ _ _]. cbn in Hk3. lia.
Qed.

(** C3 (amended): when [ScanScryptHash] returns success after scanning, the
    hash it leaves in [*phash] is a scrypt hash of the header whose bytes
    from [firstLEZeroByte] up to byte 31 are all zero.  Every hash that is
    at most the target has these zero bytes too, so the test is necessary
    for [hash <= target]; it does not imply it. *)
Theorem C3_success_means_leading_zero_bytes
    blockHeader nNonce phash solutionHash hashesScanned r :
  byte_at (u256 solutionHash) 31 = 0 ->
  ScanScryptHash scrypt blockHeader nNonce phash solutionHash hashesScanned = Some r ->
  ret r = true ->
  (exists n, out_phash r = u256 (scrypt (set_nNonce blockHeader n))) /\
  (forall j, (firstLEZeroByte (u256 solutionHash) <= j < 32)%nat ->
             byte_at (out_phash r) j = 0) /\
  (forall h, 0 <= h <= u256 solutionHash ->
     forall j, (firstLEZeroByte (u256 solutionHash) <= j < 32)%nat ->
               byte_at h j = 0).
Proof.
  intros Hz Hr Hret.
  destruct (ScanScryptHash_total blockHeader nNonce phash solutionHash hashesScanned)
    as (r' & Hr' & _ & Hpost).
  rewrite Hr in Hr'. injection Hr' as <-.
  destruct (Hpost Hz) as [_ _ Ht Hh].
  split; [exact Hh|]. split.
  - apply found_spec, Ht, Hret.
  - intros h Hh'. apply found_spec, below_target_is_found, Hh'.
Qed.

(** The nonce the scanner reports is one past the nonce it hashed last:
    [nNonce ++] comes before the test of the hash. *)
Lemma scan_loop_last_nonce (fuel : nat) :
  forall blockHeader f nNonce phash hashesScanned calls r,
    0 <= nNonce < 2 ^ 32 ->
    scan_loop scrypt fuel blockHeader f nNonce phash hashesScanned calls = Some r ->
    out_phash r = u256 (scrypt (set_nNonce blockHeader (u32 (out_nNonce r - 1)))).
Proof.
  assert (Hback : forall n, 0 <= n < 2 ^ 32 -> u32 (u32 (n + 1) - 1) = n).
  { intros n Hn. unfold u32. rewrite Zminus_mod_idemp_l.
    replace (n + 1 - 1) with n by lia. apply Z.mod_small. exact Hn. }
  induction fuel as [|fuel IH]; intros hdr f n ph hs calls r Hn; [discriminate|].
  cbn [scan_loop].
  destruct (found f (u256 (scrypt (set_nNonce hdr n)))).
  - intros [= <-]. cbn. rewrite Hback by exact Hn. reflexivity.
  - destruct (Z.land (u32 (n + 1)) 0xfff =? 0).
    + intros [= <-]. cbn. rewrite Hback by exact Hn. reflexivity.
    + intros Hr. apply IH in Hr; [exact Hr|]. apply Z.mod_pos_bound. lia.
Qed.

(** After a scan, [*phash] is the scrypt hash of the header at the nonce
    just below the one reported in [nNonce]. *)
Theorem ScanScryptHash_reports_next_nonce
    blockHeader nNonce phash solutionHash hashesScanned r :
  0 <= nNonce < 2 ^ 32 ->
  byte_at (u256 solutionHash) 31 = 0 ->
  ScanScryptHash scrypt blockHeader nNonce phash solutionHash hashesScanned = Some r ->
  out_phash r = u256 (scrypt (set_nNonce blockHeader (u32 (out_nNonce r - 1)))).
Proof.
  intros Hn Hz. unfold ScanScryptHash.
  destruct (Nat.eqb (firstLEZeroByte (u256 solutionHash)) 32) eqn:Hf.
  - apply Nat.eqb_eq, firstLEZeroByte_32 in Hf. contradiction.
  - apply scan_loop_last_nonce. exact Hn.
Qed.

End ScanProofs.

(** *** Concrete runs of the scanner *)

Definition header0 : Scan.CBlockHeader :=
  {| Scan.nVersion := 1; Scan.hashPrevBlock := 0; Scan.hashMerkleRoot := 0;
     Scan.nTime := 0; Scan.nBits := 0; Scan.nNonce := 0 |}.

(** A stand-in hash whose bytes are all [0xff]. *)
Definition all_ones_hash (h : Scan.CBlockHeader) : Z := 2 ^ 256 - 1.

(** A stand-in hash with byte 30 equal to 2 and every other byte zero. *)
Definition two_at_byte_30 (h : Scan.CBlockHeader) : Z := 2 * 2 ^ 240.

(** C4, counterexample: with the all-zero target the scanner does not
    return at once.  Whatever the hash function, it computes at least one
    hash; with the stand-in above it hashes 4096 headers from nonce 0 and
    then reports no success. *)
Lemma C4_all_zero_target_is_scanned :
  Scan.ScanScryptHash all_ones_hash header0 0 0 0 0 =
    Some {| Scan.ret := false; Scan.out_nNonce := 4096;
            Scan.out_phash := 2 ^ 256 - 1;
            Scan.out_hashesScanned := 4096; Scan.scrypt_calls := 4096 |} /\
  (forall scrypt blockHeader nNonce phash hashesScanned,
     exists r,
       Scan.ScanScryptHash scrypt blockHeader nNonce phash 0 hashesScanned = Some r /\
       (1 <= Scan.scrypt_calls r)%nat).
Proof.
  split; [vm_compute; reflexivity|].
  intros scrypt blockHeader nNonce phash hashesScanned.
  apply zero_top_byte_computes_a_hash. reflexivity.
Qed.

Lemma C4_witness :
  byte_at (u256 (2 ^ 255)) 31 <> 0 /\
  Scan.ScanScryptHash all_ones_hash header0 7 9 (2 ^ 255) 3 =
  Some {| Scan.ret := true; Scan.out_nNonce := 7; Scan.out_phash := 9;
          Scan.out_hashesScanned := 3; Scan.scrypt_calls := 0 |}.
Proof.
  split; [vm_compute; discriminate|].
  apply (C4_nonzero_top_byte_returns_at_once all_ones_hash header0 7 9 (2 ^ 255) 3).
  vm_compute; discriminate.
Defined.

(** C3, counterexample: target [1 * 2^240], hash [2 * 2^240] at every
    nonce.  The scanner reports success at once although the hash, at the
    reported nonce as at any other, is above the target. *)
Lemma C3_success_above_target :
  exists r,
    Scan.ScanScryptHash two_at_byte_30 header0 0 0 (2 ^ 240) 0 = Some r /\
    Scan.ret r = true /\
    2 ^ 240 < Scan.out_phash r /\
    2 ^ 240 < two_at_byte_30 (Scan.set_nNonce header0 (Scan.out_nNonce r)).
Proof.
  eexists. split; [vm_compute; reflexivity|].
  split; [reflexivity|]. split; vm_compute; reflexivity.
Qed.

Lemma C3_witness :
  byte_at (u256 (2 ^ 240)) 31 = 0 /\
  (forall j, (Scan.firstLEZeroByte (u256 (2 ^ 240)) <= j < 32)%nat ->
             byte_at (2 * 2 ^ 240) j = 0).
Proof.
  split; [vm_compute; reflexivity|].
  refine (proj1 (proj2 (C3_success_means_leading_zero_bytes two_at_byte_30
    header0 0 0 (2 ^ 240) 0
    {| Scan.ret := true; Scan.out_nNonce := 1; Scan.out_phash := 2 * 2 ^ 240;
       Scan.out_hashesScanned := 1; Scan.scrypt_calls := 1 |} _ _ _)));
    vm_compute; reflexivity.
Defined.

(** A stand-in hash that is zero exactly at nonce 5. *)
Definition zero_at_5 (h : Scan.CBlockHeader) : Z :=
  if Scan.nNonce h =? 5 then 0 else 2 ^ 256 - 1.

Lemma ScanScryptHash_reports_next_nonce_witness :
  0 <= 3 < 2 ^ 32 /\ byte_at (u256 (2 ^ 200)) 31 = 0 /\
  Scan.ScanScryptHash zero_at_5 header0 3 0 (2 ^ 200) 0 =
    Some {| Scan.ret := true; Scan.out_nNonce := 6; Scan.out_phash := 0;
            Scan.out_hashesScanned := 3; Scan.scrypt_calls := 3 |} /\
  0 = u256 (zero_at_5 (Scan.set_nNonce header0 (u32 (6 - 1)))).
Proof.
  assert (H : Scan.ScanScryptHash zero_at_5 header0 3 0 (2 ^ 200) 0 =
              Some {| Scan.ret := true; Scan.out_nNonce := 6; Scan.out_phash := 0;
                      Scan.out_hashesScanned := 3; Scan.scrypt_calls := 3 |})
    by (vm_compute; reflexivity).
  split; [lia|]. split; [vm_compute; reflexivity|]. split; [exact H|].
  apply (ScanScryptHash_reports_next_nonce zero_at_5 header0 3 0 (2 ^ 200) 0 _
           ltac:(lia) ltac:(vm_compute; reflexivity) H).
Defined.

(** ** Submission of a found block *)

Section SubmitProofs.

Import Submit.

Variable Chain : Type.
Variable Tip_GetBlockHash : Chain -> Z.
Variable ProcessNewBlock : Chain -> CBlock -> bool * Chain.

Definition stale (block : CBlock) (n : Node Chain) : Prop :=
  Scan.hashPrevBlock (header block) <> Tip_GetBlockHash (chainActive Chain n).

(** A block built on the current tip is handed to [ProcessNewBlock], and
    nothing else is. *)
Lemma ProcessBlockFound_fresh (block : CBlock) (n : Node Chain) :
  ~ stale block n ->
  let r := ProcessBlockFound Chain Tip_GetBlockHash ProcessNewBlock block n in
  handed_over Chain r.2 = handed_over Chain n ++ [block] /\
  r.1 = (ProcessNewBlock (chainActive Chain n) block).1.
Proof.
  unfold stale, ProcessBlockFound. cbn. intros Hfresh.
  destruct (Z.eqb_spec (Scan.hashPrevBlock (header block))
                       (Tip_GetBlockHash (chainActive Chain n))) as [_|Hne];
    [|exfalso; apply Hfresh; exact Hne].
  cbn. destruct (ProcessNewBlock (chainActive Chain n) block) as [[] c]; cbn; auto.
Qed.

(** C7: a found block whose previous-block hash is not the hash of the
    current tip makes [ProcessBlockFound] log the block, log the error
    "generated block is stale" and return [false]; the chain is left as it
    was and the block is not handed to [ProcessNewBlock]. *)
Theorem C7_stale_block_is_rejected (block : CBlock) (n : Node Chain) :
  stale block n ->
  ProcessBlockFound Chain Tip_GetBlockHash ProcessNewBlock block n =
  (false,
   {| chainActive := chainActive Chain n;
      debug_log := debug_log Chain n ++
        [LogBlock block; LogGenerated block;
         LogError "ProcessBlockFound: generated block is stale"];
      handed_over := handed_over Chain n |}).
Proof.
  unfold stale, ProcessBlockFound. cbn. intros Hstale.
  destruct (Z.eqb_spec (Scan.hashPrevBlock (header block))
                       (Tip_GetBlockHash (chainActive Chain n))) as [He|_];
    [contradiction|].
  cbn. unfold error, LogPrintf. cbn.
  rewrite <- !app_assoc. reflexivity.
Qed.

End SubmitProofs.

(** A chain that is just the hash of its tip; every block is accepted and
    becomes the tip. *)
Definition accept_all (c : Z) (b : Submit.CBlock) : bool * Z :=
  (true, Scan.hashPrevBlock (Submit.header b) + 1).

Definition block_on_5 : Submit.CBlock :=
  {| Submit.header :=
       {| Scan.nVersion := 1; Scan.hashPrevBlock := 5; Scan.hashMerkleRoot := 0;
          Scan.nTime := 0; Scan.nBits := 0; Scan.nNonce := 42 |};
     Submit.block_vtx := [] |}.

Definition node_at_6 : Submit.Node Z :=
  {| Submit.chainActive := 6; Submit.debug_log := []; Submit.handed_over := [] |}.

Lemma C7_witness :
  stale Z (fun c => c) block_on_5 node_at_6 /\
  Submit.ProcessBlockFound Z (fun c => c) accept_all block_on_5 node_at_6 =
  (false,
   {| Submit.chainActive := 6;
      Submit.debug_log :=
        [Submit.LogBlock block_on_5; Submit.LogGenerated block_on_5;
         Submit.LogError "ProcessBlockFound: generated block is stale"];
      Submit.handed_over := [] |}).
Proof.
  split; [vm_compute; discriminate|].
  apply (C7_stale_block_is_rejected Z (fun c => c) accept_all block_on_5 node_at_6).
  vm_compute; discriminate.
Defined.

(** ** The block assembler *)

(** *** Sums over lists and finite sets *)

Fixpoint sumZ (l : list Z) : Z :=
  match l with
  | [] => 0
  | x :: l => x + sumZ l
  end.

Definition sum_over (f : nat -> Z) (X : gset nat) : Z := sumZ (f <$> elements X).

Lemma sumZ_app (l1 l2 : list Z) : sumZ (l1 ++ l2) = sumZ l1 + sumZ l2.
Proof. induction l1 as [|x l1 IH]; cbn; [reflexivity|]. rewrite IH. lia. Qed.

Lemma sumZ_perm (l1 l2 : list Z) : l1 ≡ₚ l2 -> sumZ l1 = sumZ l2.
Proof. induction 1; cbn; lia. Qed.

Lemma sumZ_nonneg (f : nat -> Z) (l : list nat) :
  (forall x, x ∈ l -> 0 <= f x) -> 0 <= sumZ (f <$> l).
Proof.
  induction l as [|x l IH]; cbn; intros H; [lia|].
  pose proof (H x ltac:(left)).
  assert (0 <= sumZ (f <$> l)) by (apply IH; intros; apply H; right; assumption).
  lia.
Qed.

Lemma sumZ_le (f g : nat -> Z) (l : list nat) :
  (forall x, x ∈ l -> f x <= g x) -> sumZ (f <$> l) <= sumZ (g <$> l).
Proof.
  induction l as [|x l IH]; cbn; intros H; [lia|].
  pose proof (H x ltac:(left)).
  assert (sumZ (f <$> l) <= sumZ (g <$> l))
    by (apply IH; intros; apply H; right; assumption).
  lia.
Qed.

Lemma sum_over_list (f : nat -> Z) (X : gset nat) (l : list nat) :
  l ≡ₚ elements X -> sumZ (f <$> l) = sum_over f X.
Proof. intros Hp. unfold sum_over. apply sumZ_perm. rewrite Hp. reflexivity. Qed.

Lemma sum_over_empty (f : nat -> Z) : sum_over f ∅ = 0.
Proof. unfold sum_over. rewrite elements_empty. reflexivity. Qed.

Lemma sum_over_insert (f : nat -> Z) (X : gset nat) (x : nat) :
  x ∉ X -> sum_over f ({[ x ]} ∪ X) = f x + sum_over f X.
Proof.
  intros Hx. unfold sum_over.
  rewrite (sumZ_perm _ (f <$> (x :: elements X))); [reflexivity|].
  apply fmap_Permutation, elements_union_singleton, Hx.
Qed.

Lemma sum_over_remove (f : nat -> Z) (X : gset nat) (x : nat) :
  x ∈ X -> sum_over f (X ∖ {[ x ]}) = sum_over f X - f x.
Proof.
  intros Hx.
  assert (X = {[ x ]} ∪ (X ∖ {[ x ]})) as HX.
  { apply set_eq. intros y. destruct (decide (y = x)); set_solver. }
  rewrite HX at 2. rewrite sum_over_insert by set_solver. lia.
Qed.

Lemma sum_over_nonneg (f : nat -> Z) (X : gset nat) :
  (forall x, x ∈ X -> 0 <= f x) -> 0 <= sum_over f X.
Proof.
  intros H. unfold sum_over. apply sumZ_nonneg.
  intros x Hx. apply H, elem_of_elements, Hx.
Qed.

Lemma sum_over_subseteq (f : nat -> Z) (X Y : gset nat) :
  X ⊆ Y -> (forall x, x ∈ Y -> 0 <= f x) -> sum_over f X <= sum_over f Y.
Proof.
  revert Y. induction X as [|x X Hx IH] using set_ind_L; intros Y HXY Hf.
  - rewrite sum_over_empty. apply sum_over_nonneg, Hf.
  - rewrite sum_over_insert by exact Hx.
    assert (x ∈ Y) by set_solver.
    assert (sum_over f X <= sum_over f (Y ∖ {[ x ]})).
    { apply IH; [set_solver|]. intros y Hy. apply Hf. set_solver. }
    rewrite sum_over_remove in * by assumption. lia.
Qed.

Lemma sum_over_le (f g : nat -> Z) (X : gset nat) :
  (forall x, x ∈ X -> f x <= g x) -> sum_over f X <= sum_over g X.
Proof.
  intros H. unfold sum_over. apply sumZ_le.
  intros x Hx. apply H, elem_of_elements, Hx.
Qed.

Lemma sum_over_scale (c : Z) (f : nat -> Z) (X : gset nat) :
  sum_over (fun x => c * f x) X = c * sum_over f X.
Proof.
  unfold sum_over. induction (elements X) as [|x l IH]; cbn; [lia|].
  rewrite IH. lia.
Qed.

Section AssemblerProofs.

Import Assembler.

Variable cc : Collaborators.
Variable mempool : CTxMemPool.

Local Abbreviation E := (entry mempool).
Local Abbreviation anc := (CalculateMemPoolAncestors mempool).
Local Abbreviation desc := (CalculateDescendants mempool).

(** The entries of the snapshot. *)
Definition pool : gset nat := list_to_set (mapTx_ancestor_score mempool).

(** Attributes of the entry behind a handle. *)
Definition fee_of (x : nat) : Z := GetFee (E x).
Definition size_of (x : nat) : Z := GetTxSize (E x).
Definition weight_of (x : nat) : Z := GetTxWeight (E x).
Definition sigops_of (x : nat) : Z := GetSigOpCost (E x).
Definition count_of (x : nat) : Z := GetCountWithAncestors (E x).

(** *** [AddToBlock] over a list of entries *)

Lemma u64_small (z : Z) : 0 <= z < 2 ^ 64 -> u64 z = z.
Proof. intros H. unfold u64. apply Z.mod_small. exact H. Qed.

Lemma u32_small (z : Z) : 0 <= z < 2 ^ 32 -> u32 z = z.
Proof. intros H. unfold u32. apply Z.mod_small. exact H. Qed.

Lemma AddToBlock_all_vtx (a : BlockAssembler) (l : list nat) :
  vtx (foldl (AddToBlock mempool) a l) = vtx a ++ (PoolTx <$> l).
Proof.
  revert a. induction l as [|x l IH]; intros a; cbn.
  - rewrite app_nil_r. reflexivity.
  - rewrite IH. cbn. rewrite <- app_assoc. reflexivity.
Qed.

Lemma AddToBlock_all_vTxFees (a : BlockAssembler) (l : list nat) :
  vTxFees (foldl (AddToBlock mempool) a l) = vTxFees a ++ (fee_of <$> l).
Proof.
  revert a. induction l as [|x l IH]; intros a; cbn.
  - rewrite app_nil_r. reflexivity.
  - rewrite IH. cbn. rewrite <- app_assoc. reflexivity.
Qed.

Lemma AddToBlock_all_vTxSigOpsCost (a : BlockAssembler) (l : list nat) :
  vTxSigOpsCost (foldl (AddToBlock mempool) a l) = vTxSigOpsCost a ++ (sigops_of <$> l).
Proof.
  revert a. induction l as [|x l IH]; intros a; cbn.
  - rewrite app_nil_r. reflexivity.
  - rewrite IH. cbn. rewrite <- app_assoc. reflexivity.
Qed.

Lemma AddToBlock_all_nFees (a : BlockAssembler) (l : list nat) :
  nFees (foldl (AddToBlock mempool) a l) = nFees a + sumZ (fee_of <$> l).
Proof.
  revert a. induction l as [|x l IH]; intros a; cbn; [lia|].
  rewrite IH. cbn. unfold fee_of. lia.
Qed.

Lemma AddToBlock_all_inBlock (a : BlockAssembler) (l : list nat) :
  inBlock (foldl (AddToBlock mempool) a l) = inBlock a ∪ list_to_set l.
Proof.
  revert a. induction l as [|x l IH]; intros a; cbn.
  - set_solver.
  - rewrite IH. cbn. set_solver.
Qed.

(** What [AddToBlock] never writes. *)
Definition same_settings (a b : BlockAssembler) : Prop :=
  nBlockMaxWeight b = nBlockMaxWeight a /\
  blockMinFeeRate b = blockMinFeeRate a /\
  fIncludeWitness b = fIncludeWitness a /\
  nHeight b = nHeight a /\
  nLockTimeCutoff b = nLockTimeCutoff a /\
  blk_nVersion b = blk_nVersion a /\
  blk_nTime b = blk_nTime a.

Lemma same_settings_refl (a : BlockAssembler) : same_settings a a.
Proof. repeat split. Qed.

Lemma same_settings_trans (a b c : BlockAssembler) :
  same_settings a b -> same_settings b c -> same_settings a c.
Proof. unfold same_settings. intuition congruence. Qed.

Lemma AddToBlock_all_settings (a : BlockAssembler) (l : list nat) :
  same_settings a (foldl (AddToBlock mempool) a l).
Proof.
  revert a. induction l as [|x l IH]; intros a; cbn.
  - apply same_settings_refl.
  - eapply same_settings_trans; [|apply IH]. repeat split.
Qed.

Lemma AddToBlock_all_nBlockWeight (a : BlockAssembler) (l : list nat) :
  0 <= nBlockWeight a ->
  (forall x, x ∈ l -> 0 <= weight_of x) ->
  nBlockWeight a + sumZ (weight_of <$> l) < 2 ^ 64 ->
  nBlockWeight (foldl (AddToBlock mempool) a l) =
  nBlockWeight a + sumZ (weight_of <$> l).
Proof.
  revert a. induction l as [|x l IH]; intros a H0 Hw Hlt.
  - cbn. lia.
  - rewrite fmap_cons in *. cbn [sumZ foldl] in *.
    pose proof (Hw x ltac:(left)) as Hx.
    assert (0 <= sumZ (weight_of <$> l)) as Hs.
    { apply sumZ_nonneg. intros y Hy. apply Hw. right. exact Hy. }
    assert (nBlockWeight (AddToBlock mempool a x) = nBlockWeight a + weight_of x) as Hstep.
    { change (nBlockWeight (AddToBlock mempool a x))
        with (u64 (nBlockWeight a + weight_of x)).
      apply u64_small. lia. }
    rewrite IH; rewrite ?Hstep; try lia.
    intros y Hy. apply Hw. right. exact Hy.
Qed.

Lemma AddToBlock_all_nBlockSigOpsCost (a : BlockAssembler) (l : list nat) :
  0 <= nBlockSigOpsCost a ->
  (forall x, x ∈ l -> 0 <= sigops_of x) ->
  nBlockSigOpsCost a + sumZ (sigops_of <$> l) < 2 ^ 64 ->
  nBlockSigOpsCost (foldl (AddToBlock mempool) a l) =
  nBlockSigOpsCost a + sumZ (sigops_of <$> l).
Proof.
  revert a. induction l as [|x l IH]; intros a H0 Hw Hlt.
  - cbn. lia.
  - rewrite fmap_cons in *. cbn [sumZ foldl] in *.
    pose proof (Hw x ltac:(left)) as Hx.
    assert (0 <= sumZ (sigops_of <$> l)) as Hs.
    { apply sumZ_nonneg. intros y Hy. apply Hw. right. exact Hy. }
    assert (nBlockSigOpsCost (AddToBlock mempool a x) = nBlockSigOpsCost a + sigops_of x) as Hstep.
    { change (nBlockSigOpsCost (AddToBlock mempool a x))
        with (u64 (nBlockSigOpsCost a + sigops_of x)).
      apply u64_small. lia. }
    rewrite IH; rewrite ?Hstep; try lia.
    intros y Hy. apply Hw. right. exact Hy.
Qed.

(** The interleaved loop of lines 434-438 is the two loops run apart. *)
Lemma add_and_erase_all (a : BlockAssembler)
    (m : gmap nat CTxMemPoolModifiedEntry) (l : list nat) :
  foldl (add_and_erase mempool) (a, m) l =
  (foldl (AddToBlock mempool) a l, foldl (fun m it => delete it m) m l).
Proof.
  revert a m. induction l as [|x l IH]; intros a m; cbn; [reflexivity|].
  unfold add_and_erase at 2. cbn. apply IH.
Qed.

Lemma erase_all_lookup (m : gmap nat CTxMemPoolModifiedEntry) (l : list nat) (d : nat) :
  foldl (fun m it => delete it m) m l !! d =
  if decide (d ∈ l) then None else m !! d.
Proof.
  revert m. induction l as [|x l IH]; intros m; cbn.
  - destruct (decide (d ∈ [])) as [H|H]; [inversion H | reflexivity].
  - rewrite IH. destruct (decide (d ∈ l)) as [Hl|Hl].
    + rewrite decide_True by (right; exact Hl). reflexivity.
    + destruct (decide (d = x)) as [->|Hne].
      * rewrite decide_True by left. apply lookup_delete_eq.
      * rewrite decide_False by (intros H; inversion H; subst; tauto).
        apply lookup_delete_ne. congruence.
Qed.

(** *** [UpdatePackagesForAdded], descendant by descendant *)

Lemma update_descendant_eq (P : gset nat) (x : nat)
    (acc : Z * gmap nat CTxMemPoolModifiedEntry) (d : nat) :
  update_descendant mempool P x acc d =
  if decide (d ∈ P) then acc
  else (acc.1 + 1,
        <[d := update_for_parent_inclusion mempool x
                 (default (fresh_modified mempool d) (acc.2 !! d))]> acc.2).
Proof.
  unfold update_descendant. destruct (decide (d ∈ P)); [reflexivity|].
  destruct (acc.2 !! d); reflexivity.
Qed.

Lemma update_descendants_lookup (P : gset nat) (x : nat) (l : list nat) :
  NoDup l ->
  forall (n : Z) (M : gmap nat CTxMemPoolModifiedEntry) (d : nat),
    (foldl (update_descendant mempool P x) (n, M) l).2 !! d =
    if decide (d ∈ l /\ d ∉ P)
    then Some (update_for_parent_inclusion mempool x
                 (default (fresh_modified mempool d) (M !! d)))
    else M !! d.
Proof.
  induction 1 as [|y l Hy Hl IH]; intros n M d; cbn [foldl].
  - rewrite decide_False; [reflexivity|]. intros [H _]. inversion H.
  - rewrite update_descendant_eq. cbn [fst snd].
    destruct (decide (y ∈ P)) as [HyP|HyP].
    + rewrite IH. destruct (decide (d ∈ l /\ d ∉ P)) as [[H1 H2]|Hn].
      * rewrite decide_True; [reflexivity|]. split; [right; exact H1 | exact H2].
      * rewrite decide_False; [reflexivity|].
        intros [H1 H2]. apply Hn. split; [|exact H2].
        inversion H1; subst; [contradiction | assumption].
    + rewrite IH. destruct (decide (d ∈ l /\ d ∉ P)) as [[H1 H2]|Hn].
      * rewrite decide_True by (split; [right; exact H1 | exact H2]).
        rewrite lookup_insert_ne; [reflexivity|]. intros ->. contradiction.
      * destruct (decide (d = y)) as [->|Hne].
        -- rewrite decide_True by (split; [left | exact HyP]).
           apply lookup_insert_eq.
        -- rewrite decide_False.
           ++ apply lookup_insert_ne. congruence.
           ++ intros [H1 H2]. apply Hn. split; [|exact H2].
              inversion H1; subst; [congruence | assumption].
Qed.

(** The overlay after the inner [for] of one added entry [x]. *)
Definition descendants_updated (P : gset nat) (x : nat)
    (M : gmap nat CTxMemPoolModifiedEntry) : gmap nat CTxMemPoolModifiedEntry :=
  (foldl (update_descendant mempool P x) (0, M) (elements (desc x))).2.

Lemma descendants_updated_lookup (P : gset nat) (x : nat)
    (M : gmap nat CTxMemPoolModifiedEntry) (d : nat) :
  descendants_updated P x M !! d =
  if decide (d ∈ desc x /\ d ∉ P)
  then Some (update_for_parent_inclusion mempool x
               (default (fresh_modified mempool d) (M !! d)))
  else M !! d.
Proof.
  unfold descendants_updated.
  rewrite update_descendants_lookup by apply NoDup_elements.
  destruct (decide (d ∈ elements (desc x) /\ d ∉ P)) as [[H1 H2]|Hn].
  - rewrite decide_True; [reflexivity|]. split; [|exact H2].
    apply elem_of_elements, H1.
  - rewrite decide_False; [reflexivity|]. intros [H1 H2]. apply Hn.
    split; [|exact H2]. apply elem_of_elements, H1.
Qed.

Lemma update_descendants_snd (P : gset nat) (x : nat) (n : Z)
    (M : gmap nat CTxMemPoolModifiedEntry) :
  (foldl (update_descendant mempool P x) (n, M) (elements (desc x))).2 =
  descendants_updated P x M.
Proof.
  apply map_eq. intros d. unfold descendants_updated.
  rewrite !update_descendants_lookup by apply NoDup_elements. reflexivity.
Qed.

Lemma UpdatePackagesForAdded_snd_list (P : gset nat) (l : list nat) :
  forall (n : Z) (M : gmap nat CTxMemPoolModifiedEntry),
    (foldl (fun acc it =>
              foldl (update_descendant mempool P it) acc (elements (desc it)))
           (n, M) l).2 =
    foldl (fun M x => descendants_updated P x M) M l.
Proof.
  induction l as [|x l IH]; intros n M; cbn [foldl]; [reflexivity|].
  destruct (foldl (update_descendant mempool P x) (n, M) (elements (desc x)))
    as [n' M'] eqn:Hfold.
  rewrite IH. f_equal.
  change M' with (n', M').2. rewrite <- Hfold. apply update_descendants_snd.
Qed.

Lemma UpdatePackagesForAdded_snd (P : gset nat)
    (M : gmap nat CTxMemPoolModifiedEntry) :
  (UpdatePackagesForAdded mempool P M).2 =
  foldl (fun M x => descendants_updated P x M) M (elements P).
Proof. apply UpdatePackagesForAdded_snd_list. Qed.

(** Induction over the entries of [alreadyAdded]: [Q I M] is carried from
    the included set [I] to [I ∪ alreadyAdded], one added entry at a time. *)
Lemma UpdatePackagesForAdded_ind
    (Q : gset nat -> gmap nat CTxMemPoolModifiedEntry -> Prop)
    (P I : gset nat) (M : gmap nat CTxMemPoolModifiedEntry) :
  Q I M ->
  (forall X x M', X ⊆ P -> x ∈ P -> x ∉ X ->
                  Q (I ∪ X) M' -> Q (I ∪ (X ∪ {[ x ]})) (descendants_updated P x M')) ->
  Q (I ∪ P) (UpdatePackagesForAdded mempool P M).2.
Proof.
  intros HQ Hstep. rewrite UpdatePackagesForAdded_snd.
  assert (Hgen : forall l X M',
             NoDup l -> (forall x, x ∈ l -> x ∈ P /\ x ∉ X) -> X ⊆ P ->
             Q (I ∪ X) M' ->
             Q (I ∪ (X ∪ list_to_set l))
               (foldl (fun M x => descendants_updated P x M) M' l)).
  { induction l as [|x l IH]; intros X M' Hnd Hl HX HQ'; cbn [foldl].
    - replace (X ∪ list_to_set []) with X by set_solver. exact HQ'.
    - apply NoDup_cons in Hnd as [Hx Hnd].
      destruct (Hl x ltac:(left)) as [HxP HxX].
      replace (X ∪ list_to_set (x :: l)) with ((X ∪ {[ x ]}) ∪ list_to_set l)
        by set_solver.
      apply IH; [exact Hnd | | set_solver |].
      + intros y Hy. destruct (Hl y ltac:(right; exact Hy)) as [HyP HyX].
        split; [exact HyP|]. intros [H|H]%elem_of_union; [contradiction|].
        apply elem_of_singleton in H. subst y. contradiction.
      + apply Hstep; assumption. }
  specialize (Hgen (elements P) ∅ M (NoDup_elements P)).
  replace (∅ ∪ list_to_set (elements P)) with P in Hgen.
  - apply Hgen.
    + intros x Hx. split; [apply elem_of_elements, Hx | set_solver].
    + set_solver.
    + replace (I ∪ ∅) with I by set_solver. exact HQ.
  - apply set_eq. intros y. rewrite elem_of_union, elem_of_list_to_set, elem_of_elements.
    set_solver.
Qed.
(** *** Consistency of a mempool snapshot

    What [CTxMemPool] maintains for the entries it holds.  Structure: the
    index lists every entry once, ancestors and descendants are entries of
    the pool and mirror each other, ancestry is transitive, and an entry
    counts more ancestors than any of its ancestors. *)
Record mempool_structure : Prop := {
  wf_index_nodup : NoDup (mapTx_ancestor_score mempool);
  wf_anc_pool : forall x, x ∈ pool -> anc x ⊆ pool;
  wf_desc_pool : forall x, x ∈ pool -> desc x ⊆ pool;
  wf_duality : forall x d, x ∈ pool -> d ∈ pool -> d <> x ->
                           (d ∈ desc x <-> x ∈ anc d);
  wf_anc_trans : forall x a, x ∈ pool -> a ∈ anc x -> anc a ⊆ anc x;
  wf_anc_count : forall x a, x ∈ pool -> a ∈ anc x -> count_of a < count_of x
}.

(** Aggregates: sizes, weights and sig-op costs are not negative, the
    virtual size covers the weight, and the cached ancestor aggregates are
    the sums over the entry and its ancestors, within the range of their
    types. *)
Record mempool_aggregates : Prop := {
  wf_nonneg : forall x, x ∈ pool ->
                        0 <= size_of x /\ 0 <= weight_of x /\ 0 <= sigops_of x;
  wf_weight_size : forall x, x ∈ pool ->
                             weight_of x <= WITNESS_SCALE_FACTOR * size_of x;
  wf_size_anc : forall x, x ∈ pool ->
      GetSizeWithAncestors (E x) = sum_over size_of (anc x ∪ {[ x ]});
  wf_sigops_anc : forall x, x ∈ pool ->
      GetSigOpCostWithAncestors (E x) = sum_over sigops_of (anc x ∪ {[ x ]});
  wf_size_bound : forall x, x ∈ pool -> GetSizeWithAncestors (E x) < 2 ^ 61;
  wf_sigops_bound : forall x, x ∈ pool -> GetSigOpCostWithAncestors (E x) < 2 ^ 63
}.

Definition mempool_consistent : Prop := mempool_structure /\ mempool_aggregates.

(** The sig-op limit leaves room for the coinbase reserve and fits the
    signed 64-bit constant that holds it. *)
Definition limits_ok : Prop := 400 <= MAX_BLOCK_SIGOPS_COST cc < 2 ^ 63.

(** What is left of the package of [d] once the entries of [I] are in the
    block. *)
Definition remaining_size (d : nat) (I : gset nat) : Z :=
  sum_over size_of ((anc d ∪ {[ d ]}) ∖ I).

Definition remaining_sigops (d : nat) (I : gset nat) : Z :=
  sum_over sigops_of ((anc d ∪ {[ d ]}) ∖ I).

(** Every entry of [l] comes after its ancestors that are in [l]. *)
Definition topological (l : list nat) : Prop :=
  forall i j x y, l !! i = Some x -> l !! j = Some y -> y ∈ anc x -> (j < i)%nat.

(** The overlay entry of [d] is between what is left of the package of [d]
    and what the mempool reports for it. *)
Definition overlay_bounds (I : gset nat)
    (M : gmap nat CTxMemPoolModifiedEntry) : Prop :=
  forall d m, M !! d = Some m ->
    d ∈ pool /\
    remaining_size d I <= nSizeWithAncestors m <= GetSizeWithAncestors (E d) /\
    remaining_sigops d I <= nSigOpCostWithAncestors m <= GetSigOpCostWithAncestors (E d).

(** The transactions of the template, in order, behind the placeholder. *)
Record template_of (a : BlockAssembler) (l : list nat) : Prop := {
  tpl_vtx : vtx a = NullTx :: (PoolTx <$> l);
  tpl_fees : vTxFees a = -1 :: (fee_of <$> l);
  tpl_sigops : vTxSigOpsCost a = -1 :: (sigops_of <$> l);
  tpl_nFees : nFees a = sumZ (fee_of <$> l);
  tpl_inBlock : inBlock a = list_to_set l;
  tpl_nodup : NoDup l;
  tpl_order : topological l
}.

(** The invariant of the selection loop, structure first: the cursor is
    a tail of the index, the block holds pool entries and all their
    ancestors, the overlay holds pool entries that are not in the block,
    and the template lists the block in a topological order. *)
Record Inv_struct (st : PackageLoop) : Prop := {
  inv_cursor : mi st `suffix_of` mapTx_ancestor_score mempool;
  inv_inBlock_pool : inBlock (asm st) ⊆ pool;
  inv_closed : forall x, x ∈ inBlock (asm st) -> anc x ⊆ inBlock (asm st);
  inv_overlay_keys : forall d, is_Some (mapModifiedTx st !! d) ->
                               d ∈ pool /\ d ∉ inBlock (asm st);
  inv_template : exists l, template_of (asm st) l
}.

(** Budget: the accumulators are within their limits and the overlay
    never underestimates a package. *)
Record Inv_budget (st : PackageLoop) : Prop := {
  inv_overlay : overlay_bounds (inBlock (asm st)) (mapModifiedTx st);
  inv_max_weight : 4000 <= nBlockMaxWeight (asm st) < 2 ^ 32;
  inv_weight : 0 <= nBlockWeight (asm st) <= nBlockMaxWeight (asm st);
  inv_sigops : 0 <= nBlockSigOpsCost (asm st) <= MAX_BLOCK_SIGOPS_COST cc
}.

(** *** The candidate *)

Lemma best_of_elem (l : list (nat * CTxMemPoolModifiedEntry))
    (b : nat * CTxMemPoolModifiedEntry) :
  foldr (best_of cc) None l = Some b -> b ∈ l.
Proof.
  revert b. induction l as [|x l IH]; intros b; cbn; [discriminate|].
  unfold best_of at 1. destruct (foldr (best_of cc) None l) as [c|] eqn:Hc.
  - destruct (CompareTxMemPoolEntryByAncestorFee cc x c); intros [= <-].
    + left.
    + right. apply IH. reflexivity.
  - intros [= <-]. left.
Qed.

Lemma modified_begin_lookup (M : gmap nat CTxMemPoolModifiedEntry)
    (b : nat * CTxMemPoolModifiedEntry) :
  modified_begin cc M = Some b -> M !! b.1 = Some b.2.
Proof.
  intros H. apply best_of_elem in H. destruct b as [k m].
  apply elem_of_map_to_list in H. exact H.
Qed.

Lemma modified_begin_empty (M : gmap nat CTxMemPoolModifiedEntry) :
  modified_begin cc M = None -> M = ∅.
Proof.
  unfold modified_begin. intros H. apply map_to_list_empty_iff.
  destruct (map_to_list M) as [|x l]; [reflexivity|].
  cbn in H. unfold best_of in H at 1.
  destruct (foldr (best_of cc) None l) as [c|]; [|discriminate].
  destruct (CompareTxMemPoolEntryByAncestorFee cc x c); discriminate.
Qed.

(** Where a candidate comes from: the overlay, or the cursor. *)
Inductive candidate_source (st : PackageLoop) (c : Candidate) : Prop :=
  | source_overlay (m : CTxMemPoolModifiedEntry) :
      mapModifiedTx st !! iter c = Some m ->
      fUsingModified c = true ->
      packageSize c = nSizeWithAncestors m ->
      packageFees c = nModFeesWithAncestors m ->
      packageSigOpsCost c = nSigOpCostWithAncestors m ->
      mi_next c = mi st ->
      candidate_source st c
  | source_mapTx (rest : list nat) :
      mi st = iter c :: rest ->
      c = from_mapTx mempool (iter c) rest ->
      candidate_source st c.

Lemma choose_source (st : PackageLoop) (c : Candidate) :
  choose cc mempool st = Some c -> candidate_source st c.
Proof.
  unfold choose.
  destruct (modified_begin cc (mapModifiedTx st)) as [b|] eqn:Hb.
  - pose proof (modified_begin_lookup _ _ Hb) as Hlk.
    destruct (mi st) as [|it rest] eqn:Hmi.
    + intros [= <-]. eapply source_overlay; rewrite ?Hmi; try reflexivity. exact Hlk.
    + destruct (CompareTxMemPoolEntryByAncestorFee cc b (it, fresh_modified mempool it)).
      * intros [= <-]. eapply source_overlay; rewrite ?Hmi; try reflexivity. exact Hlk.
      * intros [= <-]. eapply source_mapTx; [exact Hmi | reflexivity].
  - destruct (mi st) as [|it rest] eqn:Hmi; [discriminate|].
    intros [= <-]. eapply source_mapTx; [exact Hmi | reflexivity].
Qed.

Lemma choose_is_some (st : PackageLoop) :
  loop_condition st = true -> is_Some (choose cc mempool st).
Proof.
  unfold loop_condition, choose.
  destruct (mi st) as [|it rest].
  - destruct (modified_begin cc (mapModifiedTx st)) as [b|] eqn:Hb; [eauto|].
    apply modified_begin_empty in Hb. rewrite Hb.
    rewrite bool_decide_eq_true_2 by reflexivity. discriminate.
  - intros _. destruct (modified_begin cc (mapModifiedTx st)) as [b|]; [|eauto].
    destruct (CompareTxMemPoolEntryByAncestorFee cc b _); eauto.
Qed.
(** *** [SortForBlock] *)

#[local] Instance CompareTxIterByAncestorCount_total :
  Total (CompareTxIterByAncestorCount mempool).
Proof. intros x y. unfold CompareTxIterByAncestorCount. lia. Qed.

Lemma CompareTxIterByAncestorCount_le (x y : nat) :
  CompareTxIterByAncestorCount mempool x y -> count_of x <= count_of y.
Proof. unfold CompareTxIterByAncestorCount, count_of. lia. Qed.

#[local] Instance CompareTxIterByAncestorCount_trans :
  Transitive (CompareTxIterByAncestorCount mempool).
Proof. intros x y z. unfold CompareTxIterByAncestorCount. lia. Qed.

Lemma SortForBlock_perm (package : gset nat) :
  SortForBlock mempool package ≡ₚ elements package.
Proof. apply merge_sort_Permutation. Qed.

Lemma SortForBlock_sorted (package : gset nat) :
  StronglySorted (CompareTxIterByAncestorCount mempool) (SortForBlock mempool package).
Proof. apply StronglySorted_merge_sort; apply _. Qed.

Lemma SortForBlock_elem (package : gset nat) (x : nat) :
  x ∈ SortForBlock mempool package <-> x ∈ package.
Proof. rewrite SortForBlock_perm. apply elem_of_elements. Qed.

Lemma SortForBlock_nodup (package : gset nat) :
  NoDup (SortForBlock mempool package).
Proof. rewrite SortForBlock_perm. apply NoDup_elements. Qed.

Lemma SortForBlock_to_set (package : gset nat) :
  list_to_set (SortForBlock mempool package) = package.
Proof.
  apply set_eq. intros x. rewrite elem_of_list_to_set. apply SortForBlock_elem.
Qed.

Lemma StronglySorted_lookup_lt {A} (R : relation A) (l : list A) (i j : nat) (x y : A) :
  StronglySorted R l -> (i < j)%nat -> l !! i = Some x -> l !! j = Some y -> R x y.
Proof.
  intros Hs. revert i j. induction Hs as [|a l Hs IH Hall]; intros i j Hij Hi Hj.
  - discriminate.
  - destruct j as [|j]; [lia|]. cbn in Hj. destruct i as [|i].
    + cbn in Hi. injection Hi as ->.
      rewrite Forall_forall in Hall. apply Hall.
      eapply list_elem_of_lookup_2. exact Hj.
    + cbn in Hi. apply (IH i j); [lia | assumption | assumption].
Qed.

(** Appending a package sorted by ancestor count keeps the order
    topological (the argument of the comment in [SortForBlock]). *)
Lemma topological_app (l S : list nat) :
  topological l ->
  (forall x y, x ∈ l -> y ∈ anc x -> y ∈ l) ->
  (forall y, y ∈ S -> y ∉ l) ->
  StronglySorted (CompareTxIterByAncestorCount mempool) S ->
  (forall x y, x ∈ S -> y ∈ anc x -> count_of y < count_of x) ->
  topological (l ++ S).
Proof.
  intros Htopo Hclosed Hdisj Hsorted Hcount i j x y Hi Hj Hyx.
  apply lookup_app_Some in Hi as [Hi|[Hil Hi]];
    apply lookup_app_Some in Hj as [Hj|[Hjl Hj]].
  - eapply Htopo; eassumption.
  - exfalso. assert (x ∈ l) by (eapply list_elem_of_lookup_2; exact Hi).
    assert (y ∈ S) by (eapply list_elem_of_lookup_2; exact Hj).
    apply (Hdisj y); [assumption|]. eapply Hclosed; eassumption.
  - apply lookup_lt_Some in Hj. lia.
  - assert (x ∈ S) as HxS by (eapply list_elem_of_lookup_2; exact Hi).
    pose proof (Hcount x y HxS Hyx) as Hlt.
    destruct (decide (j - length l < i - length l)%nat) as [Hd|Hd]; [lia|].
    exfalso.
    destruct (decide (i - length l = j - length l)%nat) as [He|Hne].
    + rewrite He in Hi. rewrite Hi in Hj. injection Hj as ->. lia.
    + assert (CompareTxIterByAncestorCount mempool x y) as HR.
      { eapply (StronglySorted_lookup_lt _ S (i - length l) (j - length l));
          [exact Hsorted | lia | exact Hi | exact Hj]. }
      apply CompareTxIterByAncestorCount_le in HR. lia.
Qed.
(** *** The budget test *)

Lemma in_list_to_set (l : list nat) (x : nat) :
  x ∈ (list_to_set l : gset nat) <-> x ∈ l.
Proof. apply elem_of_list_to_set. Qed.


Lemma TestPackage_true (a : BlockAssembler) (size sigops : Z) :
  limits_ok ->
  0 <= nBlockWeight a <= nBlockMaxWeight a -> nBlockMaxWeight a < 2 ^ 32 ->
  0 <= nBlockSigOpsCost a <= MAX_BLOCK_SIGOPS_COST cc ->
  0 <= size < 2 ^ 61 -> 0 <= sigops < 2 ^ 63 ->
  TestPackage cc a size sigops = true ->
  nBlockWeight a + WITNESS_SCALE_FACTOR * size < nBlockMaxWeight a /\
  nBlockSigOpsCost a + sigops < MAX_BLOCK_SIGOPS_COST cc.
Proof.
  intros Hlim Hw Hmax Hs Hsize Hsig. unfold limits_ok in Hlim.
  unfold TestPackage, WITNESS_SCALE_FACTOR.
  rewrite (u64_small (4 * size)) by lia.
  rewrite (u64_small (nBlockWeight a + 4 * size)) by lia.
  rewrite (u64_small (nBlockSigOpsCost a + sigops)) by lia.
  rewrite (u64_small (MAX_BLOCK_SIGOPS_COST cc)) by lia.
  destruct (Z.geb_spec (nBlockWeight a + 4 * size) (nBlockMaxWeight a));
    [discriminate|].
  destruct (Z.geb_spec (nBlockSigOpsCost a + sigops) (MAX_BLOCK_SIGOPS_COST cc));
    [discriminate|].
  intros _. lia.
Qed.

(** *** What is left of a package *)

Section Invariants.

Hypothesis Hstr : mempool_structure.
Hypothesis Hagg : mempool_aggregates.
Hypothesis Hlim : limits_ok.

Lemma package_in_pool (d : nat) : d ∈ pool -> anc d ∪ {[ d ]} ⊆ pool.
Proof using Hstr. clear Hagg Hlim.
  intros Hd x [Hx|Hx]%elem_of_union.
  - eapply wf_anc_pool; eassumption.
  - apply elem_of_singleton in Hx. subst x. exact Hd.
Qed.

Lemma size_of_nonneg (x : nat) : x ∈ pool -> 0 <= size_of x.
Proof using Hagg. clear Hstr Hlim. intros Hx. apply (wf_nonneg Hagg x Hx). Qed.

Lemma sigops_of_nonneg (x : nat) : x ∈ pool -> 0 <= sigops_of x.
Proof using Hagg. clear Hstr Hlim. intros Hx. apply (wf_nonneg Hagg x Hx). Qed.

Lemma weight_of_nonneg (x : nat) : x ∈ pool -> 0 <= weight_of x.
Proof using Hagg. clear Hstr Hlim. intros Hx. apply (wf_nonneg Hagg x Hx). Qed.

Lemma remaining_size_nonneg (d : nat) (I : gset nat) :
  d ∈ pool -> 0 <= remaining_size d I.
Proof using Hstr Hagg. clear Hlim.
  intros Hd. apply sum_over_nonneg. intros x Hx. apply size_of_nonneg.
  apply (package_in_pool d Hd). set_solver.
Qed.

Lemma remaining_sigops_nonneg (d : nat) (I : gset nat) :
  d ∈ pool -> 0 <= remaining_sigops d I.
Proof using Hstr Hagg. clear Hlim.
  intros Hd. apply sum_over_nonneg. intros x Hx. apply sigops_of_nonneg.
  apply (package_in_pool d Hd). set_solver.
Qed.

Lemma remaining_size_mono (d : nat) (I J : gset nat) :
  d ∈ pool -> I ⊆ J -> remaining_size d J <= remaining_size d I.
Proof using Hstr Hagg. clear Hlim.
  intros Hd HIJ. apply sum_over_subseteq; [set_solver|].
  intros x Hx. apply size_of_nonneg, (package_in_pool d Hd). set_solver.
Qed.

Lemma remaining_sigops_mono (d : nat) (I J : gset nat) :
  d ∈ pool -> I ⊆ J -> remaining_sigops d J <= remaining_sigops d I.
Proof using Hstr Hagg. clear Hlim.
  intros Hd HIJ. apply sum_over_subseteq; [set_solver|].
  intros x Hx. apply sigops_of_nonneg, (package_in_pool d Hd). set_solver.
Qed.

Lemma remaining_size_le_total (d : nat) (I : gset nat) :
  d ∈ pool -> remaining_size d I <= GetSizeWithAncestors (E d).
Proof using Hstr Hagg. clear Hlim.
  intros Hd. rewrite (wf_size_anc Hagg d Hd).
  apply sum_over_subseteq; [set_solver|].
  intros x Hx. apply size_of_nonneg, (package_in_pool d Hd), Hx.
Qed.

Lemma remaining_sigops_le_total (d : nat) (I : gset nat) :
  d ∈ pool -> remaining_sigops d I <= GetSigOpCostWithAncestors (E d).
Proof using Hstr Hagg. clear Hlim.
  intros Hd. rewrite (wf_sigops_anc Hagg d Hd).
  apply sum_over_subseteq; [set_solver|].
  intros x Hx. apply sigops_of_nonneg, (package_in_pool d Hd), Hx.
Qed.

Lemma remaining_size_add (d x : nat) (I : gset nat) :
  x ∈ anc d -> x ∉ I ->
  remaining_size d (I ∪ {[ x ]}) = remaining_size d I - size_of x.
Proof using Type. clear Hstr Hagg Hlim.
  intros Hx HxI. unfold remaining_size.
  replace ((anc d ∪ {[ d ]}) ∖ (I ∪ {[ x ]}))
    with (((anc d ∪ {[ d ]}) ∖ I) ∖ {[ x ]}) by set_solver.
  apply sum_over_remove. set_solver.
Qed.

Lemma remaining_sigops_add (d x : nat) (I : gset nat) :
  x ∈ anc d -> x ∉ I ->
  remaining_sigops d (I ∪ {[ x ]}) = remaining_sigops d I - sigops_of x.
Proof using Type. clear Hstr Hagg Hlim.
  intros Hx HxI. unfold remaining_sigops.
  replace ((anc d ∪ {[ d ]}) ∖ (I ∪ {[ x ]}))
    with (((anc d ∪ {[ d ]}) ∖ I) ∖ {[ x ]}) by set_solver.
  apply sum_over_remove. set_solver.
Qed.

(** *** The overlay under [UpdatePackagesForAdded] *)

Lemma overlay_bounds_mono (I J : gset nat) (M : gmap nat CTxMemPoolModifiedEntry) :
  I ⊆ J -> overlay_bounds I M -> overlay_bounds J M.
Proof using Hstr Hagg. clear Hlim.
  intros HIJ HM d m Hd. destruct (HM d m Hd) as (Hp & Hs & Hg).
  pose proof (remaining_size_mono d I J Hp HIJ).
  pose proof (remaining_sigops_mono d I J Hp HIJ).
  split; [exact Hp|]. lia.
Qed.

Lemma overlay_bounds_delete (I : gset nat) (M : gmap nat CTxMemPoolModifiedEntry) (k : nat) :
  overlay_bounds I M -> overlay_bounds I (delete k M).
Proof using Type. clear Hstr Hagg Hlim.
  intros HM d m Hd. apply lookup_delete_Some in Hd as [_ Hd]. apply HM, Hd.
Qed.

Lemma overlay_bounds_fresh (I : gset nat) (d : nat) :
  d ∈ pool ->
  remaining_size d I <= nSizeWithAncestors (fresh_modified mempool d)
    <= GetSizeWithAncestors (E d) /\
  remaining_sigops d I <= nSigOpCostWithAncestors (fresh_modified mempool d)
    <= GetSigOpCostWithAncestors (E d).
Proof using Hstr Hagg. clear Hlim.
  intros Hd. cbn.
  pose proof (remaining_size_le_total d I Hd).
  pose proof (remaining_sigops_le_total d I Hd). lia.
Qed.

(** One added entry [x], not yet accounted for in [I]: the bounds move
    from [I] to [I ∪ {x}]. *)
Lemma overlay_bounds_step (P I : gset nat) (x : nat)
    (M : gmap nat CTxMemPoolModifiedEntry) :
  x ∈ pool -> x ∈ P -> x ∉ I ->
  overlay_bounds I M ->
  overlay_bounds (I ∪ {[ x ]}) (descendants_updated P x M).
Proof using Hstr Hagg. clear Hlim.
  intros Hx HxP HxI HM d m'. rewrite descendants_updated_lookup.
  destruct (decide (d ∈ desc x /\ d ∉ P)) as [[Hd HdP]|_].
  - intros [= <-].
    assert (d ∈ pool) as Hdp by (eapply wf_desc_pool; eassumption).
    assert (d <> x) as Hne by (intros ->; contradiction).
    assert (x ∈ anc d) as Hxd by (apply (wf_duality Hstr x d); assumption).
    split; [exact Hdp|].
    assert (remaining_size d I <= nSizeWithAncestors
              (default (fresh_modified mempool d) (M !! d))
              <= GetSizeWithAncestors (E d) /\
            remaining_sigops d I <= nSigOpCostWithAncestors
              (default (fresh_modified mempool d) (M !! d))
              <= GetSigOpCostWithAncestors (E d)) as [Hs Hg].
    { destruct (M !! d) as [m|] eqn:Hm; cbn [default].
      - apply (HM d m Hm).
      - apply overlay_bounds_fresh, Hdp. }
    rewrite (remaining_size_add d x I Hxd HxI).
    rewrite (remaining_sigops_add d x I Hxd HxI).
    pose proof (size_of_nonneg x Hx). pose proof (sigops_of_nonneg x Hx).
    pose proof (remaining_size_nonneg d (I ∪ {[ x ]}) Hdp) as Hrs.
    rewrite (remaining_size_add d x I Hxd HxI) in Hrs.
    pose proof (wf_size_bound Hagg d Hdp).
    unfold update_for_parent_inclusion. cbn [nSizeWithAncestors nSigOpCostWithAncestors].
    fold (size_of x). fold (sigops_of x).
    rewrite u64_small by lia. lia.
  - intros Hm. destruct (HM d m' Hm) as (Hdp & Hs & Hg).
    pose proof (remaining_size_mono d I (I ∪ {[ x ]}) Hdp ltac:(set_solver)).
    pose proof (remaining_sigops_mono d I (I ∪ {[ x ]}) Hdp ltac:(set_solver)).
    split; [exact Hdp|]. lia.
Qed.

Lemma descendants_updated_keys (P : gset nat) (x d : nat)
    (M : gmap nat CTxMemPoolModifiedEntry) :
  is_Some (descendants_updated P x M !! d) ->
  is_Some (M !! d) \/ (d ∈ desc x /\ d ∉ P).
Proof using Type. clear Hstr Hagg Hlim.
  rewrite descendants_updated_lookup.
  destruct (decide (d ∈ desc x /\ d ∉ P)); [right; assumption | left; assumption].
Qed.

(** *** The structural invariant is kept *)

Lemma commit_asm_eq (st : PackageLoop) (P : gset nat) :
  asm (commit mempool st P) =
  foldl (AddToBlock mempool) (asm st) (SortForBlock mempool P).
Proof using Type. clear Hstr Hagg Hlim. unfold commit. cbn. rewrite add_and_erase_all. reflexivity. Qed.

Lemma commit_inBlock_eq (st : PackageLoop) (P : gset nat) :
  inBlock (asm (commit mempool st P)) = inBlock (asm st) ∪ P.
Proof using Type. clear Hstr Hagg Hlim.
  rewrite commit_asm_eq, AddToBlock_all_inBlock, SortForBlock_to_set. reflexivity.
Qed.

Lemma commit_overlay_eq (st : PackageLoop) (P : gset nat) :
  mapModifiedTx (commit mempool st P) =
  (UpdatePackagesForAdded mempool P
     (foldl (fun m x => delete x m) (mapModifiedTx st) (SortForBlock mempool P))).2.
Proof using Type. clear Hstr Hagg Hlim. unfold commit. cbn [mapModifiedTx]. rewrite add_and_erase_all. reflexivity. Qed.

Lemma Inv_struct_set_mi (st : PackageLoop) (rest : list nat) :
  Inv_struct st -> rest `suffix_of` mi st -> Inv_struct (set_mi st rest).
Proof using Type. clear Hstr Hagg Hlim.
  intros [] Hs. split; cbn; try assumption.
  etransitivity; eassumption.
Qed.

Lemma Inv_struct_bump_failed (st : PackageLoop) :
  Inv_struct st -> Inv_struct (bump_failed st).
Proof using Type. clear Hstr Hagg Hlim. intros []. split; assumption. Qed.

Lemma Inv_struct_record_failure (st : PackageLoop) (c : Candidate) :
  Inv_struct st -> Inv_struct (record_failure st c).
Proof using Type. clear Hstr Hagg Hlim.
  intros HI. unfold record_failure. destruct (fUsingModified c); [|exact HI].
  destruct HI. split; cbn; try assumption.
  intros d [m Hd]. apply lookup_delete_Some in Hd as [_ Hd]. eauto.
Qed.

Lemma cursor_in_pool (st : PackageLoop) (x : nat) :
  Inv_struct st -> x ∈ mi st -> x ∈ pool.
Proof using Type. clear Hstr Hagg Hlim.
  intros HI Hx. unfold pool. apply in_list_to_set.
  destruct (inv_cursor st HI) as [pre ->]. apply elem_of_app. right. exact Hx.
Qed.

Lemma candidate_in_pool (st : PackageLoop) (c : Candidate) :
  Inv_struct st -> candidate_source st c -> iter c ∈ pool.
Proof using Type. clear Hstr Hagg Hlim.
  intros HI [m Hm _ _ _ _ _ | rest Hmi Hc].
  - apply (inv_overlay_keys st HI). eauto.
  - apply (cursor_in_pool st); [exact HI|]. rewrite Hmi. left.
Qed.

Section Commit.

Variable st : PackageLoop.
Variable it : nat.

Hypothesis HI : Inv_struct st.
Hypothesis Hit : it ∈ pool.
Hypothesis Hnew : it ∉ inBlock (asm st).

Let P : gset nat := package_of mempool (asm st) it.
Let S : list nat := SortForBlock mempool P.

Lemma package_eq : P = (anc it ∪ {[ it ]}) ∖ inBlock (asm st).
Proof using Hnew. clear Hstr Hagg Hlim HI Hit. unfold P, package_of, onlyUnconfirmed. set_solver. Qed.

Lemma package_pool : P ⊆ pool.
Proof using Hstr Hit Hnew. clear Hagg Hlim HI. rewrite package_eq. pose proof (package_in_pool it Hit). set_solver. Qed.

Lemma package_fresh (x : nat) : x ∈ P -> x ∉ inBlock (asm st).
Proof using Hnew. clear Hstr Hagg Hlim HI Hit. rewrite package_eq. set_solver. Qed.

Lemma package_ancestors (x : nat) :
  x ∈ P -> anc x ⊆ inBlock (asm st) ∪ P.
Proof using Hstr Hit Hnew. clear Hagg Hlim HI.
  intros Hx y Hy.
  assert (y ∈ anc it) as Hyit.
  { unfold P, package_of, onlyUnconfirmed in Hx.
    apply elem_of_union in Hx as [Hx|Hx].
    - apply elem_of_difference in Hx as [Hx _].
      eapply (wf_anc_trans Hstr it x); eassumption.
    - apply elem_of_singleton in Hx. subst x. exact Hy. }
  destruct (decide (y ∈ inBlock (asm st))); [set_solver|].
  apply elem_of_union. right. rewrite package_eq. set_solver.
Qed.

(** A descendant of a freshly added entry is not in the block: the block
    holds the ancestors of what it holds. *)
Lemma descendant_outside (x d : nat) :
  x ∈ P -> d ∈ desc x -> d ∉ P -> d ∈ pool /\ x ∈ anc d /\ d ∉ inBlock (asm st).
Proof using Hstr HI Hit Hnew. clear Hagg Hlim.
  intros HxP Hd HdP.
  assert (x ∈ pool) as Hxp by (apply package_pool, HxP).
  assert (d ∈ pool) as Hdp by (eapply wf_desc_pool; eassumption).
  assert (d <> x) as Hne by (intros ->; contradiction).
  assert (x ∈ anc d) as Hxd by (apply (wf_duality Hstr x d); assumption).
  split; [exact Hdp|]. split; [exact Hxd|]. intros HdI.
  apply (package_fresh x HxP). eapply (inv_closed st HI); eassumption.
Qed.

Lemma commit_keys (d : nat) :
  is_Some (mapModifiedTx (commit mempool st P) !! d) ->
  d ∈ pool /\ d ∉ inBlock (asm st) ∪ P.
Proof using Hstr HI Hit Hnew. clear Hagg Hlim.
  rewrite commit_overlay_eq.
  set (M1 := foldl (fun m x => delete x m) (mapModifiedTx st) (SortForBlock mempool P)).
  pose (Q := fun (I : gset nat) (M : gmap nat CTxMemPoolModifiedEntry) =>
               forall d, is_Some (M !! d) ->
                         d ∈ pool /\ d ∉ inBlock (asm st) /\ d ∉ P).
  assert (Q (inBlock (asm st) ∪ P) (UpdatePackagesForAdded mempool P M1).2) as HQ.
  { apply UpdatePackagesForAdded_ind.
    - intros e [m He]. unfold M1 in He. rewrite erase_all_lookup in He.
      destruct (decide (e ∈ SortForBlock mempool P)) as [|Hn]; [discriminate|].
      destruct (inv_overlay_keys st HI e) as [H1 H2]; [eauto|].
      split; [exact H1|]. split; [exact H2|].
      intros HeP. apply Hn, SortForBlock_elem, HeP.
    - intros X x M' HX HxP HxX Hk e He.
      apply descendants_updated_keys in He as [He|[He HeP]]; [apply Hk, He|].
      destruct (descendant_outside x e HxP He HeP) as (H1 & _ & H2). auto. }
  intros Hd. destruct (HQ d Hd) as (H1 & H2 & H3).
  split; [exact H1|]. set_solver.
Qed.

Lemma commit_template (l : list nat) :
  template_of (asm st) l ->
  template_of (foldl (AddToBlock mempool) (asm st) S) (l ++ S).
Proof using Hstr HI Hit Hnew. clear Hagg Hlim.
  intros [Hv Hf Hs Hn Hi Hnd Hto]. split.
  - rewrite AddToBlock_all_vtx, Hv, fmap_app. reflexivity.
  - rewrite AddToBlock_all_vTxFees, Hf, fmap_app. reflexivity.
  - rewrite AddToBlock_all_vTxSigOpsCost, Hs, fmap_app. reflexivity.
  - rewrite AddToBlock_all_nFees, Hn, fmap_app, sumZ_app. reflexivity.
  - rewrite AddToBlock_all_inBlock, Hi, list_to_set_app_L. reflexivity.
  - apply NoDup_app. split; [exact Hnd|]. split; [|apply SortForBlock_nodup].
    intros x Hx HxS. apply SortForBlock_elem in HxS.
    apply (package_fresh x HxS). rewrite Hi. apply in_list_to_set, Hx.
  - apply topological_app.
    + exact Hto.
    + intros x y Hx Hy. apply in_list_to_set. rewrite <- Hi.
      eapply (inv_closed st HI); [|exact Hy].
      rewrite Hi. apply in_list_to_set, Hx.
    + intros y Hy Hyl. apply SortForBlock_elem in Hy.
      apply (package_fresh y Hy). rewrite Hi. apply in_list_to_set, Hyl.
    + apply SortForBlock_sorted.
    + intros x y Hx Hy. apply SortForBlock_elem in Hx.
      apply (wf_anc_count Hstr x y); [apply package_pool, Hx | exact Hy].
Qed.

Lemma Inv_struct_commit : Inv_struct (commit mempool st P).
Proof using Hstr HI Hit Hnew. clear Hagg Hlim.
  destruct (inv_template st HI) as [l Hl].
  split; rewrite ?commit_inBlock_eq.
  - exact (inv_cursor st HI).
  - pose proof (inv_inBlock_pool st HI). pose proof package_pool. set_solver.
  - intros x [Hx|Hx]%elem_of_union.
    + pose proof (inv_closed st HI x Hx). set_solver.
    + apply package_ancestors, Hx.
  - exact commit_keys.
  - exists (l ++ S). rewrite commit_asm_eq. apply commit_template, Hl.
Qed.

(** *** The budget invariant is kept *)

Variables size sigops : Z.

Hypothesis HB : Inv_budget st.
Hypothesis Hsize : remaining_size it (inBlock (asm st)) <= size < 2 ^ 61.
Hypothesis Hsigops : remaining_sigops it (inBlock (asm st)) <= sigops < 2 ^ 63.
Hypothesis Htest : TestPackage cc (asm st) size sigops = true.

Lemma commit_overlay :
  overlay_bounds (inBlock (asm st) ∪ P) (mapModifiedTx (commit mempool st P)).
Proof using Hstr Hagg Hit Hnew HB. clear Hlim HI Hsize Hsigops Htest.
  rewrite commit_overlay_eq.
  apply (UpdatePackagesForAdded_ind overlay_bounds).
  - intros d m. rewrite erase_all_lookup.
    destruct (decide (d ∈ SortForBlock mempool P)); [discriminate|].
    apply (inv_overlay st HB).
  - intros X x M' HX HxP HxX Hb.
    replace (inBlock (asm st) ∪ (X ∪ {[ x ]}))
      with ((inBlock (asm st) ∪ X) ∪ {[ x ]}) by set_solver.
    apply overlay_bounds_step; [apply package_pool, HxP | exact HxP | | exact Hb].
    pose proof (package_fresh x HxP). set_solver.
Qed.

Lemma package_weight :
  sumZ (weight_of <$> S) <= WITNESS_SCALE_FACTOR * remaining_size it (inBlock (asm st)).
Proof using Hstr Hagg Hit Hnew. clear Hlim HI HB Hsize Hsigops Htest.
  rewrite (sum_over_list weight_of P S) by apply SortForBlock_perm.
  unfold remaining_size. rewrite <- package_eq, <- sum_over_scale.
  apply sum_over_le. intros x Hx. apply (wf_weight_size Hagg), package_pool, Hx.
Qed.

Lemma package_sigops :
  sumZ (sigops_of <$> S) = remaining_sigops it (inBlock (asm st)).
Proof using Hnew. clear Hstr Hagg Hlim HI Hit HB Hsize Hsigops Htest.
  rewrite (sum_over_list sigops_of P S) by apply SortForBlock_perm.
  unfold remaining_sigops. rewrite <- package_eq. reflexivity.
Qed.

Lemma Inv_budget_commit : Inv_budget (commit mempool st P).
Proof using Hstr Hagg Hlim Hit Hnew HB Hsize Hsigops Htest. clear HI.
  destruct (TestPackage_true (asm st) size sigops Hlim
              (inv_weight st HB) (proj2 (inv_max_weight st HB)) (inv_sigops st HB))
    as [Hw Hs]; [| |exact Htest|].
  { pose proof (remaining_size_nonneg it (inBlock (asm st)) Hit). lia. }
  { pose proof (remaining_sigops_nonneg it (inBlock (asm st)) Hit). lia. }
  pose proof (inv_weight st HB) as Hw0. pose proof (inv_sigops st HB) as Hs0.
  pose proof (inv_max_weight st HB) as Hm. pose proof Hlim as Hl. unfold limits_ok in Hl.
  pose proof package_weight as Hpw. pose proof package_sigops as Hps.
  unfold WITNESS_SCALE_FACTOR in *.
  assert (forall x, x ∈ S -> x ∈ pool) as HSp.
  { intros x Hx. apply package_pool, SortForBlock_elem, Hx. }
  assert (0 <= sumZ (weight_of <$> S)) as Hwn.
  { apply sumZ_nonneg. intros x Hx. apply weight_of_nonneg, HSp, Hx. }
  assert (0 <= sumZ (sigops_of <$> S)) as Hsn.
  { apply sumZ_nonneg. intros x Hx. apply sigops_of_nonneg, HSp, Hx. }
  destruct (AddToBlock_all_settings (asm st) S) as (Hmax & _).
  split; rewrite ?commit_inBlock_eq, ?commit_asm_eq; fold P S; rewrite ?Hmax.
  - exact commit_overlay.
  - exact Hm.
  - rewrite AddToBlock_all_nBlockWeight; [lia|lia| |lia].
    intros x Hx. apply weight_of_nonneg, HSp, Hx.
  - rewrite AddToBlock_all_nBlockSigOpsCost; [lia|lia| |lia].
    intros x Hx. apply sigops_of_nonneg, HSp, Hx.
Qed.

End Commit.

Lemma Inv_budget_set_mi (st : PackageLoop) (rest : list nat) :
  Inv_budget st -> Inv_budget (set_mi st rest).
Proof using Type. clear Hstr Hagg Hlim. intros []. split; assumption. Qed.

Lemma Inv_budget_bump_failed (st : PackageLoop) :
  Inv_budget st -> Inv_budget (bump_failed st).
Proof using Type. clear Hstr Hagg Hlim. intros []. split; assumption. Qed.

Lemma Inv_budget_record_failure (st : PackageLoop) (c : Candidate) :
  Inv_budget st -> Inv_budget (record_failure st c).
Proof using Type. clear Hstr Hagg Hlim.
  intros HB. unfold record_failure. destruct (fUsingModified c); [|exact HB].
  destruct HB. split; cbn; try assumption.
  apply overlay_bounds_delete. assumption.
Qed.

(** The aggregates of the candidate cover what is left of its package. *)
Lemma candidate_bounds (st : PackageLoop) (c : Candidate) :
  Inv_struct st -> Inv_budget st -> candidate_source st c ->
  remaining_size (iter c) (inBlock (asm st)) <= packageSize c < 2 ^ 61 /\
  remaining_sigops (iter c) (inBlock (asm st)) <= packageSigOpsCost c < 2 ^ 63.
Proof using Hstr Hagg. clear Hlim.
  intros HI HB Hsrc. pose proof (candidate_in_pool st c HI Hsrc) as Hp.
  pose proof (wf_size_bound Hagg _ Hp). pose proof (wf_sigops_bound Hagg _ Hp).
  destruct Hsrc as [m Hm _ Hsz _ Hsg _ | rest Hmi Hc].
  - destruct (inv_overlay st HB _ _ Hm) as (_ & Hs & Hg).
    rewrite Hsz, Hsg. lia.
  - pose proof (remaining_size_le_total (iter c) (inBlock (asm st)) Hp).
    pose proof (remaining_sigops_le_total (iter c) (inBlock (asm st)) Hp).
    rewrite Hc. cbn. lia.
Qed.

(** *** One pass through the loop *)

(** Entries still outside the block weigh most; then what is left of the
    cursor and of the overlay. *)
Definition measure (st : PackageLoop) : nat :=
  (size (pool ∖ inBlock (asm st)) * (2 * length (mapTx_ancestor_score mempool) + 1)
   + length (mi st) + size (mapModifiedTx st))%nat.

Lemma size_pool : size pool = length (mapTx_ancestor_score mempool).
Proof using Hstr. clear Hagg Hlim. unfold pool. apply size_list_to_set, (wf_index_nodup Hstr). Qed.

Lemma overlay_size (st : PackageLoop) :
  Inv_struct st ->
  (length (mi st) + size (mapModifiedTx st)
   <= 2 * length (mapTx_ancestor_score mempool))%nat.
Proof using Hstr. clear Hagg Hlim.
  intros HI.
  pose proof (suffix_length _ _ (inv_cursor st HI)) as Hmi.
  assert (dom (mapModifiedTx st) ⊆ pool) as Hdom.
  { intros d Hd. apply elem_of_dom in Hd. apply (inv_overlay_keys st HI d Hd). }
  apply subseteq_size in Hdom. rewrite size_dom, size_pool in Hdom. lia.
Qed.

Lemma measure_commit (st st' : PackageLoop) (x : nat) :
  Inv_struct st' ->
  x ∈ pool -> x ∉ inBlock (asm st) -> x ∈ inBlock (asm st') ->
  inBlock (asm st) ⊆ inBlock (asm st') ->
  (measure st' < measure st)%nat.
Proof using Hstr. clear Hagg Hlim.
  intros HI' Hx HxI HxI' Hsub. unfold measure.
  pose proof (overlay_size st' HI') as Hsz.
  assert (pool ∖ inBlock (asm st') ⊂ pool ∖ inBlock (asm st)) as Hlt.
  { split; [set_solver|]. intros Hc.
    assert (x ∈ pool ∖ inBlock (asm st')) as Hbad by (apply Hc; set_solver).
    set_solver. }
  apply subset_size in Hlt. nia.
Qed.

Lemma candidate_cursor (st : PackageLoop) (c : Candidate) :
  candidate_source st c -> mi_next c `suffix_of` mi st.
Proof using Type. clear Hstr Hagg Hlim.
  intros [m _ _ _ _ _ ->|rest Hmi Hc]; [reflexivity|].
  rewrite Hmi, Hc. cbn. apply suffix_cons_r. reflexivity.
Qed.

Lemma measure_record_failure (st : PackageLoop) (c : Candidate) :
  candidate_source st c ->
  (measure (record_failure (set_mi st (mi_next c)) c) < measure st)%nat.
Proof using Type. clear Hstr Hagg Hlim.
  intros Hsrc. unfold record_failure, measure.
  destruct Hsrc as [m Hm -> _ _ _ Hnext|rest Hmi Hc].
  - cbn. rewrite Hnext. rewrite map_size_delete_Some by eauto.
    assert (size (mapModifiedTx st) <> 0%nat).
    { intros H0. apply map_size_empty_inv in H0. rewrite H0 in Hm.
      rewrite lookup_empty in Hm. discriminate. }
    lia.
  - rewrite Hc at 1. cbn [fUsingModified from_mapTx]. cbn. rewrite Hmi, Hc. cbn. lia.
Qed.

(** The outcome of a pass keeps an invariant [J] when the bookkeeping
    steps keep it and a commit that passed [TestPackage] keeps it. *)
Definition kept_by_outcome (J : PackageLoop -> Prop) (st : PackageLoop) (o : Outcome) : Prop :=
  match o with
  | Continue st' => J st' /\ (measure st' < measure st)%nat
  | Stop st' => J st'
  | AssertFailed => False
  end.

Lemma consider_struct (st : PackageLoop) (c : Candidate) :
  Inv_struct st -> candidate_source st c -> iter c ∉ inBlock (asm st) ->
  kept_by_outcome Inv_struct st (consider cc mempool (set_mi st (mi_next c)) c).
Proof using Hstr. clear Hagg Hlim.
  intros HI Hsrc Hnew.
  pose proof (candidate_in_pool st c HI Hsrc) as Hp.
  pose proof (Inv_struct_set_mi st (mi_next c) HI (candidate_cursor st c Hsrc)) as HI1.
  pose proof (measure_record_failure st c Hsrc) as Hfail.
  unfold consider, try_package. cbn [asm set_mi].
  rewrite bool_decide_eq_false_2 by exact Hnew.
  destruct (packageFees c <? _); [exact HI1|].
  destruct (TestPackage cc (asm st) (packageSize c) (packageSigOpsCost c)); cbn [negb].
  - destruct (TestPackageTransactions cc mempool (asm st)
                (package_of mempool (asm st) (iter c))); cbn [negb].
    + assert (Inv_struct (commit mempool (set_mi st (mi_next c))
                           (package_of mempool (asm st) (iter c)))) as HI2.
      { apply (Inv_struct_commit (set_mi st (mi_next c)) (iter c)); assumption. }
      split; [exact HI2|].
      apply (measure_commit st _ (iter c) HI2 Hp Hnew).
      * rewrite commit_inBlock_eq. unfold package_of. set_solver.
      * rewrite commit_inBlock_eq. cbn. set_solver.
    + split; [apply Inv_struct_record_failure, HI1 | exact Hfail].
  - assert (Inv_struct (bump_failed (record_failure (set_mi st (mi_next c)) c))) as HI2
      by (apply Inv_struct_bump_failed, Inv_struct_record_failure, HI1).
    destruct (_ && _); [exact HI2|].
    split; [exact HI2|]. exact Hfail.
Qed.

Lemma consider_budget (st : PackageLoop) (c : Candidate) :
  Inv_struct st -> Inv_budget st ->
  candidate_source st c -> iter c ∉ inBlock (asm st) ->
  match consider cc mempool (set_mi st (mi_next c)) c with
  | Continue st' | Stop st' => Inv_budget st'
  | AssertFailed => True
  end.
Proof using Hstr Hagg Hlim.
  intros HI HB Hsrc Hnew.
  pose proof (candidate_in_pool st c HI Hsrc) as Hp.
  destruct (candidate_bounds st c HI HB Hsrc) as [Hsz Hsg].
  pose proof (Inv_struct_set_mi st (mi_next c) HI (candidate_cursor st c Hsrc)) as HI1.
  pose proof (Inv_budget_set_mi st (mi_next c) HB) as HB1.
  unfold consider, try_package. cbn [asm set_mi].
  rewrite bool_decide_eq_false_2 by exact Hnew.
  destruct (packageFees c <? _); [exact HB1|].
  destruct (TestPackage cc (asm st) (packageSize c) (packageSigOpsCost c)) eqn:Htest;
    cbn [negb].
  - destruct (TestPackageTransactions cc mempool (asm st)
                (package_of mempool (asm st) (iter c))); cbn [negb].
    + apply (Inv_budget_commit (set_mi st (mi_next c)) (iter c) Hp Hnew
               (packageSize c) (packageSigOpsCost c)); assumption.
    + apply Inv_budget_record_failure, HB1.
  - assert (Inv_budget (bump_failed (record_failure (set_mi st (mi_next c)) c))) as HB2
      by (apply Inv_budget_bump_failed, Inv_budget_record_failure, HB1).
    destruct (_ && _); exact HB2.
Qed.

(** What [iteration] does, by cases: the loop is over, an index entry is
    skipped, or a candidate that is not in the block is considered. *)
Inductive pass (st : PackageLoop) : Outcome -> Prop :=
  | pass_done : loop_condition st = false -> pass st (Stop st)
  | pass_skip (it : nat) (rest : list nat) :
      mi st = it :: rest ->
      SkipMapTxEntry (asm st) it (mapModifiedTx st) (failedTx st) = true ->
      pass st (Continue (set_mi st rest))
  | pass_consider (c : Candidate) :
      choose cc mempool st = Some c ->
      (is_Some (mapModifiedTx st !! iter c) \/
       exists rest, mi st = iter c :: rest /\
         SkipMapTxEntry (asm st) (iter c) (mapModifiedTx st) (failedTx st) = false) ->
      pass st (consider cc mempool (set_mi st (mi_next c)) c).

Lemma iteration_pass (st : PackageLoop) : pass st (iteration cc mempool st).
Proof using Type. clear Hstr Hagg Hlim.
  unfold iteration.
  destruct (loop_condition st) eqn:Hcond; cbn [negb]; [|apply pass_done, Hcond].
  destruct (choose_is_some st Hcond) as [c Hc].
  pose proof (choose_source st c Hc) as Hsrc.
  assert (evaluate cc mempool st = consider cc mempool (set_mi st (mi_next c)) c) as He.
  { unfold evaluate. rewrite Hc. reflexivity. }
  destruct (mi st) as [|it rest] eqn:Hmi.
  - rewrite He. apply pass_consider; [exact Hc|].
    destruct Hsrc as [m Hm _ _ _ _ _|rest Hmi' _]; [left; eauto|].
    rewrite Hmi in Hmi'. discriminate.
  - destruct (SkipMapTxEntry (asm st) it (mapModifiedTx st) (failedTx st)) eqn:Hskip.
    + eapply pass_skip; eassumption.
    + rewrite He. apply pass_consider; [exact Hc|].
      destruct Hsrc as [m Hm _ _ _ _ _|rest' Hmi' _]; [left; eauto|].
      right. rewrite Hmi in Hmi'. injection Hmi' as <- <-. eauto.
Qed.

Lemma pass_candidate_fresh (st : PackageLoop) (c : Candidate) :
  Inv_struct st ->
  (is_Some (mapModifiedTx st !! iter c) \/
   exists rest, mi st = iter c :: rest /\
     SkipMapTxEntry (asm st) (iter c) (mapModifiedTx st) (failedTx st) = false) ->
  iter c ∉ inBlock (asm st).
Proof using Type. clear Hstr Hagg Hlim.
  intros HI [Hm|(rest & _ & Hskip)].
  - apply (inv_overlay_keys st HI), Hm.
  - unfold SkipMapTxEntry in Hskip.
    apply orb_false_elim in Hskip as [Hskip _].
    apply orb_false_elim in Hskip as [_ Hskip].
    apply bool_decide_eq_false in Hskip. exact Hskip.
Qed.

Lemma iteration_struct (st : PackageLoop) :
  Inv_struct st -> kept_by_outcome Inv_struct st (iteration cc mempool st).
Proof using Hstr. clear Hagg Hlim.
  intros HI. destruct (iteration_pass st) as [Hcond|it rest Hmi Hskip|c Hc Hfrom].
  - exact HI.
  - split.
    + apply Inv_struct_set_mi; [exact HI|]. rewrite Hmi. apply suffix_cons_r. reflexivity.
    + unfold measure. cbn. rewrite Hmi. cbn. lia.
  - apply consider_struct; [exact HI | apply choose_source, Hc |].
    apply pass_candidate_fresh; assumption.
Qed.

Lemma iteration_budget (st : PackageLoop) :
  Inv_struct st -> Inv_budget st ->
  match iteration cc mempool st with
  | Continue st' | Stop st' => Inv_budget st'
  | AssertFailed => True
  end.
Proof using Hstr Hagg Hlim.
  intros HI HB. destruct (iteration_pass st) as [Hcond|it rest Hmi Hskip|c Hc Hfrom].
  - exact HB.
  - apply Inv_budget_set_mi, HB.
  - apply consider_budget; [exact HI | exact HB | apply choose_source, Hc |].
    apply pass_candidate_fresh; assumption.
Qed.

(** *** The whole loop *)

Lemma run_struct (fuel : nat) :
  forall st, Inv_struct st -> (measure st < fuel)%nat ->
             exists st', run cc mempool fuel st = Finished st' /\ Inv_struct st'.
Proof using Hstr. clear Hagg Hlim.
  induction fuel as [|fuel IH]; intros st HI Hm; [lia|].
  cbn [run]. pose proof (iteration_struct st HI) as Hit.
  destruct (iteration cc mempool st) as [st'|st'|]; cbn in Hit.
  - destruct Hit as [HI' Hlt]. apply IH; [exact HI' | lia].
  - exists st'. split; [reflexivity | exact Hit].
  - contradiction.
Qed.

Lemma run_budget (fuel : nat) :
  forall st st', Inv_struct st -> Inv_budget st ->
                 run cc mempool fuel st = Finished st' -> Inv_budget st'.
Proof using Hstr Hagg Hlim.
  induction fuel as [|fuel IH]; intros st st' HI HB; [discriminate|].
  cbn [run]. pose proof (iteration_struct st HI) as Hit.
  pose proof (iteration_budget st HI HB) as Hbu.
  destruct (iteration cc mempool st) as [st1|st1|]; cbn in Hit.
  - destruct Hit as [HI' _]. apply IH; assumption.
  - intros [= <-]. exact Hbu.
  - discriminate.
Qed.

(** *** From the prelude to the end of the loop *)

Lemma UpdatePackagesForAdded_empty (M : gmap nat CTxMemPoolModifiedEntry) :
  UpdatePackagesForAdded mempool ∅ M = (0, M).
Proof using Type. clear Hstr Hagg Hlim. unfold UpdatePackagesForAdded. rewrite elements_empty. reflexivity. Qed.

Lemma prelude_inBlock a tip now w :
  inBlock (CreateNewBlock_prelude cc a tip now w) = ∅.
Proof using Type. clear Hstr Hagg Hlim. reflexivity. Qed.

Lemma init_overlay a tip now w :
  mapModifiedTx (addPackageTxs_init mempool (CreateNewBlock_prelude cc a tip now w)) = ∅.
Proof using Type. clear Hstr Hagg Hlim.
  unfold addPackageTxs_init. cbn [mapModifiedTx]. rewrite prelude_inBlock.
  rewrite UpdatePackagesForAdded_empty. reflexivity.
Qed.

Lemma Inv_struct_init a tip now w :
  Inv_struct (addPackageTxs_init mempool (CreateNewBlock_prelude cc a tip now w)).
Proof using Type. clear Hstr Hagg Hlim.
  split.
  - reflexivity.
  - cbn. set_solver.
  - cbn. set_solver.
  - intros d. rewrite init_overlay, lookup_empty. intros [m Hm]. discriminate.
  - exists []. split; try reflexivity.
    + constructor.
    + intros i j x y Hi. discriminate.
Qed.

Lemma Inv_budget_init a tip now w :
  4000 <= nBlockMaxWeight a < 2 ^ 32 ->
  Inv_budget (addPackageTxs_init mempool (CreateNewBlock_prelude cc a tip now w)).
Proof using Hlim. clear Hstr Hagg.
  intros Hmax. pose proof Hlim as Hl. unfold limits_ok in Hl. split.
  - intros d m. rewrite init_overlay, lookup_empty. discriminate.
  - exact Hmax.
  - cbn. lia.
  - cbn. lia.
Qed.

Lemma measure_init a tip now w :
  (measure (addPackageTxs_init mempool (CreateNewBlock_prelude cc a tip now w))
   < enough_fuel mempool)%nat.
Proof using Hstr. clear Hagg Hlim.
  unfold measure, enough_fuel. rewrite init_overlay, map_size_empty. cbn [asm mi addPackageTxs_init].
  rewrite prelude_inBlock.
  replace (pool ∖ ∅) with pool by set_solver. rewrite size_pool. lia.
Qed.

Lemma select_finishes a tip now w :
  exists st, CreateNewBlock_select cc mempool a tip now w = Finished st /\ Inv_struct st.
Proof using Hstr. clear Hagg Hlim.
  unfold CreateNewBlock_select, addPackageTxs.
  apply run_struct; [apply Inv_struct_init | apply measure_init].
Qed.

Lemma select_budget a tip now w st :
  4000 <= nBlockMaxWeight a < 2 ^ 32 ->
  CreateNewBlock_select cc mempool a tip now w = Finished st -> Inv_budget st.
Proof using Hstr Hagg Hlim.
  intros Hmax. unfold CreateNewBlock_select, addPackageTxs.
  apply run_budget; [apply Inv_struct_init | apply Inv_budget_init, Hmax].
Qed.

End Invariants.

(** *** What the loop never writes *)

Lemma try_package_cases (st : PackageLoop) (c : Candidate) :
  (TestPackage cc (asm st) (packageSize c) (packageSigOpsCost c) = true /\
   TestPackageTransactions cc mempool (asm st) (package_of mempool (asm st) (iter c)) = true /\
   try_package cc mempool st c =
   Continue (commit mempool st (package_of mempool (asm st) (iter c)))) \/
  (exists st', (try_package cc mempool st c = Continue st' \/
                try_package cc mempool st c = Stop st') /\ asm st' = asm st).
Proof.
  unfold try_package.
  destruct (TestPackage cc (asm st) (packageSize c) (packageSigOpsCost c)); cbn [negb].
  - destruct (TestPackageTransactions cc mempool (asm st) _); cbn [negb].
    + left. auto.
    + right. eexists. split; [left; reflexivity|].
      unfold record_failure. destruct (fUsingModified c); reflexivity.
  - right. destruct (_ && _); eexists; (split; [eauto|]);
      unfold record_failure; destruct (fUsingModified c); reflexivity.
Qed.

Lemma consider_cases (st : PackageLoop) (c : Candidate) :
  consider cc mempool st c = AssertFailed \/
  consider cc mempool st c = Stop st \/
  consider cc mempool st c = try_package cc mempool st c.
Proof.
  unfold consider. destruct (bool_decide _); [auto|].
  destruct (_ <? _); auto.
Qed.

(** A pass leaves the assembler alone unless it commits a package, and the
    package it commits has passed [TestPackage] on the assembler as it then
    was. *)
Definition committed (st st' : PackageLoop) (c : Candidate) : Prop :=
  choose cc mempool st = Some c /\
  TestPackage cc (asm st) (packageSize c) (packageSigOpsCost c) = true /\
  iteration cc mempool st = Continue st' /\
  asm st' = foldl (AddToBlock mempool) (asm st)
              (SortForBlock mempool (package_of mempool (asm st) (iter c))).

Lemma iteration_asm (st st' : PackageLoop) :
  iteration cc mempool st = Continue st' \/ iteration cc mempool st = Stop st' ->
  asm st' = asm st \/ exists c, committed st st' c.
Proof.
  unfold committed. pose proof (iteration_pass st) as Hp.
  remember (iteration cc mempool st) as o eqn:Ho. intros Hit.
  destruct Hp as [Hcond|it rest Hmi Hskip|c Hc Hfrom].
  - destruct Hit as [Hit|Hit]; [discriminate|]. injection Hit as <-. left. reflexivity.
  - destruct Hit as [Hit|Hit]; [|discriminate]. injection Hit as <-. left. reflexivity.
  - destruct (consider_cases (set_mi st (mi_next c)) c) as [He|[He|He]];
      rewrite He in Hit.
    + destruct Hit; discriminate.
    + destruct Hit as [Hit|Hit]; [discriminate|]. injection Hit as <-. left. reflexivity.
    + destruct (try_package_cases (set_mi st (mi_next c)) c)
        as [(Ht & _ & Hc')|(st2 & Hc' & Ha)].
      * right. exists c. rewrite Hc' in Hit. destruct Hit as [Hit|Hit]; [|discriminate].
        injection Hit as <-. split; [exact Hc|]. split; [exact Ht|].
        split; [rewrite He, Hc'; reflexivity|]. rewrite commit_asm_eq. reflexivity.
      * left.
        destruct Hc' as [Hc'|Hc']; rewrite Hc' in Hit;
          destruct Hit as [Hit|Hit]; try discriminate;
          injection Hit as <-; exact Ha.
Qed.

Lemma iteration_settings (st st' : PackageLoop) :
  iteration cc mempool st = Continue st' \/ iteration cc mempool st = Stop st' ->
  same_settings (asm st) (asm st').
Proof.
  intros Hit.
  destruct (iteration_asm st st' Hit) as [->|(c & _ & _ & _ & ->)].
  - apply same_settings_refl.
  - apply AddToBlock_all_settings.
Qed.

Lemma run_settings (fuel : nat) :
  forall st st', run cc mempool fuel st = Finished st' ->
                 same_settings (asm st) (asm st').
Proof.
  induction fuel as [|fuel IH]; intros st st'; [discriminate|].
  cbn [run]. destruct (iteration cc mempool st) as [st1|st1|] eqn:Hit.
  - intros Hrun. eapply same_settings_trans; [|apply IH, Hrun].
    apply iteration_settings. left. exact Hit.
  - intros [= <-]. apply iteration_settings. right. exact Hit.
  - discriminate.
Qed.

Lemma clamp_nBlockMaxWeight_range (o : Options) :
  4000 <= clamp_nBlockMaxWeight cc o < 2 ^ 32.
Proof.
  unfold clamp_nBlockMaxWeight.
  assert (0 <= u32 (MAX_BLOCK_WEIGHT cc - 4000) < 2 ^ 32) as H1
    by (apply Z.mod_pos_bound; lia).
  rewrite u32_small by lia. lia.
Qed.

(** *** The claims about the selection loop *)

(** C1: whatever the snapshot (a consistent one) and the configuration,
    the selection loop of [CreateNewBlock] ends with the block weight at
    most [nBlockMaxWeight], which is the configured maximum after clamping,
    and with the sig-op cost at most [MAX_BLOCK_SIGOPS_COST]; and a pass of
    the loop changes the assembler only by committing, with [AddToBlock], a
    package that [TestPackage] accepted on the assembler as it was. *)
Theorem C1_budget_is_kept (o : Options) (a : BlockAssembler)
    (pindexPrev : CBlockIndex) (now : Z) (fMineWitnessTx : bool) :
  mempool_structure -> mempool_aggregates -> limits_ok ->
  nBlockMaxWeight a = clamp_nBlockMaxWeight cc o ->
  (exists st,
     CreateNewBlock_select cc mempool a pindexPrev now fMineWitnessTx = Finished st /\
     nBlockMaxWeight (asm st) = clamp_nBlockMaxWeight cc o /\
     nBlockWeight (asm st) <= nBlockMaxWeight (asm st) /\
     nBlockSigOpsCost (asm st) <= MAX_BLOCK_SIGOPS_COST cc) /\
  (forall st0 st1,
     iteration cc mempool st0 = Continue st1 \/ iteration cc mempool st0 = Stop st1 ->
     asm st1 = asm st0 \/
     exists c,
       choose cc mempool st0 = Some c /\
       TestPackage cc (asm st0) (packageSize c) (packageSigOpsCost c) = true /\
       asm st1 = foldl (AddToBlock mempool) (asm st0)
                   (SortForBlock mempool (package_of mempool (asm st0) (iter c)))).
Proof.
  intros Hstr Hagg Hlim Hmax. split.
  - destruct (select_finishes Hstr a pindexPrev now fMineWitnessTx) as (st & Hrun & HI).
    exists st. split; [exact Hrun|].
    assert (4000 <= nBlockMaxWeight a < 2 ^ 32) as Hrange
      by (rewrite Hmax; apply clamp_nBlockMaxWeight_range).
    pose proof (select_budget Hstr Hagg Hlim a pindexPrev now fMineWitnessTx st
                  Hrange Hrun) as HB.
    destruct (run_settings _ _ _ Hrun) as (Hm & _).
    split; [rewrite Hm; exact Hmax|].
    split; [apply (inv_weight st HB) | apply (inv_sigops st HB)].
  - intros st0 st1 Hit.
    destruct (iteration_asm st0 st1 Hit) as [He|(c & Hc & Ht & _ & Ha)]; [left; exact He|].
    right. exists c. auto.
Qed.

(** C2: in the template the selection loop produces, a transaction stands
    at a strictly greater position than every in-mempool ancestor of it
    that is in the template as well, and all its ancestors are there. *)
Theorem C2_ancestors_come_first (a : BlockAssembler)
    (pindexPrev : CBlockIndex) (now : Z) (fMineWitnessTx : bool) :
  mempool_structure ->
  exists st,
    CreateNewBlock_select cc mempool a pindexPrev now fMineWitnessTx = Finished st /\
    (forall i j x y,
        vtx (asm st) !! i = Some (PoolTx x) ->
        vtx (asm st) !! j = Some (PoolTx y) ->
        y ∈ anc x -> (j < i)%nat) /\
    (forall i x y,
        vtx (asm st) !! i = Some (PoolTx x) -> y ∈ anc x ->
        exists j, (j < i)%nat /\ vtx (asm st) !! j = Some (PoolTx y)).
Proof.
  intros Hstr.
  destruct (select_finishes Hstr a pindexPrev now fMineWitnessTx) as (st & Hrun & HI).
  exists st. split; [exact Hrun|].
  destruct (inv_template st HI) as [l [Hv _ _ _ Hi _ Hto]].
  assert (forall i x, vtx (asm st) !! i = Some (PoolTx x) ->
                      exists i', i = Datatypes.S i' /\ l !! i' = Some x) as Hpos.
  { intros i x H. rewrite Hv in H. destruct i as [|i']; [discriminate H|].
    change ((PoolTx <$> l) !! i' = Some (PoolTx x)) in H.
    apply list_lookup_fmap_Some in H as (z & [= <-] & Hz). eauto. }
  assert (forall i j x y,
             vtx (asm st) !! i = Some (PoolTx x) ->
             vtx (asm st) !! j = Some (PoolTx y) ->
             y ∈ anc x -> (j < i)%nat) as Horder.
  { intros i j x y Hx Hy Hyx.
    destruct (Hpos i x Hx) as (i' & -> & Hi').
    destruct (Hpos j y Hy) as (j' & -> & Hj').
    pose proof (Hto i' j' x y Hi' Hj' Hyx). lia. }
  split; [exact Horder|].
  intros i x y Hx Hyx. destruct (Hpos i x Hx) as (i' & -> & Hi').
  assert (x ∈ inBlock (asm st)) as HxI.
  { rewrite Hi. apply in_list_to_set. eapply list_elem_of_lookup_2. exact Hi'. }
  assert (y ∈ l) as Hyl.
  { apply in_list_to_set. rewrite <- Hi. eapply (inv_closed st HI); eassumption. }
  apply list_elem_of_lookup_1 in Hyl as [j' Hj'].
  assert (vtx (asm st) !! Datatypes.S j' = Some (PoolTx y)) as Hy.
  { rewrite Hv. change ((PoolTx <$> l) !! j' = Some (PoolTx y)).
    rewrite list_lookup_fmap, Hj'. reflexivity. }
  exists (Datatypes.S j'). split; [|exact Hy].
  eapply Horder; [|exact Hy|exact Hyx]. rewrite Hv.
  change ((PoolTx <$> l) !! i' = Some (PoolTx x)).
  rewrite list_lookup_fmap, Hi'. reflexivity.
Qed.

(** C10: [AddToBlock] adds the raw fee [GetFee] of the entry to [nFees]
    and appends it to [vTxFees], whatever the modified fee is; so, when
    [CreateNewBlock] has built the coinbase, its output pays the sum of the
    raw fees of the included transactions plus the subsidy, and [vTxFees]
    lists minus that sum followed by the raw fees in block order. *)
Theorem C10_block_fees_are_raw_fees (a : BlockAssembler)
    (pindexPrev : CBlockIndex) (now : Z) (scriptPubKeyIn : list ScriptElem)
    (fMineWitnessTx : bool) :
  mempool_structure ->
  (forall b it,
     nFees (AddToBlock mempool b it) = nFees b + GetFee (E it) /\
     vTxFees (AddToBlock mempool b it) = vTxFees b ++ [GetFee (E it)]) /\
  exists a' l cb,
    CreateNewBlock cc mempool a pindexPrev now scriptPubKeyIn fMineWitnessTx = Some a' /\
    vtx a' = CoinbaseTx cb :: (PoolTx <$> l) /\
    NoDup l /\ inBlock a' = list_to_set l /\
    nFees a' = sum_over fee_of (inBlock a') /\
    vTxFees a' = - sum_over fee_of (inBlock a') :: (fee_of <$> l) /\
    vout0_nValue cb =
      sum_over fee_of (inBlock a') + GetBlockSubsidy cc (nHeight_tip pindexPrev + 1).
Proof.
  intros Hstr. split; [intros b it; split; reflexivity|].
  destruct (select_finishes Hstr a pindexPrev now fMineWitnessTx) as (st & Hrun & HI).
  destruct (inv_template st HI) as [l [Hv Hf _ Hn Hi Hnd _]].
  assert (nHeight (asm st) = nHeight_tip pindexPrev + 1) as Hh.
  { unfold CreateNewBlock_select, addPackageTxs in Hrun.
    destruct (run_settings _ _ _ Hrun) as (_ & _ & _ & Hh & _). exact Hh. }
  assert (sumZ (fee_of <$> l) = sum_over fee_of (inBlock (asm st))) as Hsum.
  { apply sum_over_list. rewrite Hi. symmetry. apply elements_list_to_set, Hnd. }
  exists (CreateNewBlock_coinbase cc (asm st) scriptPubKeyIn), l,
         (coinbaseTx cc (asm st) scriptPubKeyIn).
  split; [unfold CreateNewBlock; rewrite Hrun; reflexivity|].
  cbn [vtx vTxFees nFees inBlock CreateNewBlock_coinbase vout0_nValue coinbaseTx].
  rewrite Hv, Hf, Hn, Hh, <- Hsum.
  split; [reflexivity|]. split; [exact Hnd|]. split; [exact Hi|].
  split; [reflexivity|]. split; reflexivity.
Qed.

(** On a structurally consistent snapshot [addPackageTxs] ends, within
    [enough_fuel] passes, and the assertion of line 375 holds whenever it is
    reached. *)
Theorem addPackageTxs_terminates (a : BlockAssembler)
    (pindexPrev : CBlockIndex) (now : Z) (fMineWitnessTx : bool) :
  mempool_structure ->
  exists st,
    addPackageTxs cc mempool
      (CreateNewBlock_prelude cc a pindexPrev now fMineWitnessTx) = Finished st /\
    nHeight (asm st) = nHeight_tip pindexPrev + 1.
Proof.
  intros Hstr. unfold addPackageTxs.
  destruct (run_struct Hstr (enough_fuel mempool)
              (addPackageTxs_init mempool
                 (CreateNewBlock_prelude cc a pindexPrev now fMineWitnessTx)))
    as (st & Hrun & _); [apply Inv_struct_init | apply measure_init, Hstr|].
  exists st. split; [exact Hrun|].
  destruct (run_settings _ _ _ Hrun) as (_ & _ & _ & Hh & _). exact Hh.
Qed.

(** *** The fee-rate floor *)

Lemma choose_loop_condition (st : PackageLoop) (c : Candidate) :
  choose cc mempool st = Some c -> loop_condition st = true.
Proof.
  intros Hc. unfold loop_condition.
  destruct (mi st) as [|it rest] eqn:Hmi; [|reflexivity].
  destruct (choose_source st c Hc) as [m Hm _ _ _ _ _|rest Hmi' _].
  - apply negb_true_iff, bool_decide_eq_false. intros He.
    rewrite He, lookup_empty in Hm. discriminate.
  - rewrite Hmi in Hmi'. discriminate.
Qed.

(** The head of the cursor, if any, is not one the loop skips. *)
Definition not_skipped (st : PackageLoop) : Prop :=
  match mi st with
  | it :: _ => SkipMapTxEntry (asm st) it (mapModifiedTx st) (failedTx st) = false
  | [] => True
  end.

Lemma iteration_considers (st : PackageLoop) (c : Candidate) :
  choose cc mempool st = Some c -> not_skipped st ->
  iteration cc mempool st = consider cc mempool (set_mi st (mi_next c)) c.
Proof.
  intros Hc Hns. unfold iteration.
  rewrite (choose_loop_condition st c Hc). cbn [negb].
  unfold not_skipped in Hns. unfold evaluate. rewrite Hc.
  destruct (mi st) as [|it rest]; [reflexivity|]. rewrite Hns. reflexivity.
Qed.

(** C5: when the loop looks at a candidate whose package fees are strictly
    below [blockMinFeeRate.GetFee(packageSize)], it ends there and then, and
    the assembler is as it was: neither this package nor a later one goes
    in.  When the package fees are at least that amount, equality included,
    the pass goes on to the budget test. *)
Theorem C5_fee_rate_floor (st : PackageLoop) (c : Candidate) (fuel : nat) :
  choose cc mempool st = Some c ->
  not_skipped st ->
  iter c ∉ inBlock (asm st) ->
  (packageFees c < FeeRate_GetFee cc (blockMinFeeRate (asm st)) (packageSize c) ->
     exists st',
       run cc mempool (Datatypes.S fuel) st = Finished st' /\
       asm st' = asm st /\ mapModifiedTx st' = mapModifiedTx st) /\
  (FeeRate_GetFee cc (blockMinFeeRate (asm st)) (packageSize c) <= packageFees c ->
     iteration cc mempool st = try_package cc mempool (set_mi st (mi_next c)) c).
Proof.
  intros Hc Hns Hnew.
  pose proof (iteration_considers st c Hc Hns) as Hit.
  unfold consider in Hit. cbn [asm set_mi] in Hit.
  rewrite bool_decide_eq_false_2 in Hit by exact Hnew.
  split; intros Hfee.
  - exists (set_mi st (mi_next c)). cbn [run]. rewrite Hit.
    apply Z.ltb_lt in Hfee. rewrite Hfee. auto.
  - rewrite Hit. apply Z.ltb_ge in Hfee. rewrite Hfee. reflexivity.
Qed.

(** *** The overlay after [UpdatePackagesForAdded] *)

Definition modfee_of (x : nat) : Z := GetModifiedFee (E x).

(** The aggregates of [d] with the contributions of its ancestors in [I]
    taken out. *)
Definition exact_entry (d : nat) (I : gset nat) : CTxMemPoolModifiedEntry :=
  {| nSizeWithAncestors :=
       GetSizeWithAncestors (E d) - sum_over size_of (I ∩ anc d);
     nModFeesWithAncestors :=
       GetModFeesWithAncestors (E d) - sum_over modfee_of (I ∩ anc d);
     nSigOpCostWithAncestors :=
       GetSigOpCostWithAncestors (E d) - sum_over sigops_of (I ∩ anc d) |}.

(** The overlay invariant for the included set [I]: an entry outside [I]
    that is in the overlay has exactly the aggregates above; one that is not
    in the overlay has no ancestor in [I], that is, descends from nothing
    included. *)
Definition overlay_exact (I : gset nat)
    (M : gmap nat CTxMemPoolModifiedEntry) : Prop :=
  forall d, d ∈ pool -> d ∉ I ->
    match M !! d with
    | Some m => m = exact_entry d I
    | None => I ∩ anc d = ∅
    end.

Lemma fresh_is_exact (d : nat) (I : gset nat) :
  I ∩ anc d = ∅ -> fresh_modified mempool d = exact_entry d I.
Proof.
  intros He. unfold exact_entry, fresh_modified. rewrite He, !sum_over_empty.
  rewrite !Z.sub_0_r. reflexivity.
Qed.

Lemma exact_entry_add (d x : nat) (I : gset nat) :
  mempool_structure -> mempool_aggregates ->
  d ∈ pool -> x ∈ anc d -> x ∉ I ->
  update_for_parent_inclusion mempool x (exact_entry d I) =
  exact_entry d (I ∪ {[ x ]}).
Proof.
  intros Hstr Hagg Hd Hx HxI.
  assert ((I ∪ {[ x ]}) ∩ anc d = {[ x ]} ∪ (I ∩ anc d)) as Hset by set_solver.
  assert (x ∉ I ∩ anc d) as Hnot by set_solver.
  unfold update_for_parent_inclusion, exact_entry. cbn.
  rewrite Hset, !sum_over_insert by exact Hnot.
  fold (size_of x) (modfee_of x) (sigops_of x).
  assert (0 <= sum_over size_of ({[ x ]} ∪ (I ∩ anc d))
          <= GetSizeWithAncestors (E d)) as Hs.
  { split.
    - apply sum_over_nonneg. intros y Hy. apply (size_of_nonneg Hagg).
      apply (wf_anc_pool Hstr d Hd). set_solver.
    - rewrite (wf_size_anc Hagg d Hd). apply sum_over_subseteq; [set_solver|].
      intros y Hy. apply (size_of_nonneg Hagg), (package_in_pool Hstr d Hd), Hy. }
  rewrite sum_over_insert in Hs by exact Hnot.
  pose proof (wf_size_bound Hagg d Hd).
  rewrite u64_small by lia. f_equal; lia.
Qed.

Lemma exact_entry_same (d x : nat) (I : gset nat) :
  x ∉ anc d -> exact_entry d (I ∪ {[ x ]}) = exact_entry d I.
Proof.
  intros Hx. unfold exact_entry.
  replace ((I ∪ {[ x ]}) ∩ anc d) with (I ∩ anc d) by set_solver. reflexivity.
Qed.



(** *** The time stamp does not steer the selection *)

Definition with_nTime (t : Z) (a : BlockAssembler) : BlockAssembler :=
  {| vtx := vtx a; vTxFees := vTxFees a; vTxSigOpsCost := vTxSigOpsCost a;
     blk_nVersion := blk_nVersion a; blk_nTime := t;
     fIncludeWitness := fIncludeWitness a;
     nBlockMaxWeight := nBlockMaxWeight a;
     blockMinFeeRate := blockMinFeeRate a;
     nBlockWeight := nBlockWeight a; nBlockTx := nBlockTx a;
     nBlockSigOpsCost := nBlockSigOpsCost a; nFees := nFees a;
     inBlock := inBlock a;
     nHeight := nHeight a; nLockTimeCutoff := nLockTimeCutoff a |}.

Definition retime (t : Z) (st : PackageLoop) : PackageLoop :=
  set_asm st (with_nTime t (asm st)).

Definition retime_outcome (t : Z) (o : Outcome) : Outcome :=
  match o with
  | Continue st => Continue (retime t st)
  | Stop st => Stop (retime t st)
  | AssertFailed => AssertFailed
  end.

Definition retime_result (t : Z) (r : LoopResult) : LoopResult :=
  match r with
  | Finished st => Finished (retime t st)
  | Aborted => Aborted
  | OutOfFuel => OutOfFuel
  end.

Lemma AddToBlock_all_retime (t : Z) (l : list nat) :
  forall a, foldl (AddToBlock mempool) (with_nTime t a) l =
            with_nTime t (foldl (AddToBlock mempool) a l).
Proof.
  induction l as [|x l IH]; intros a; cbn [foldl]; [reflexivity|].
  rewrite <- IH. reflexivity.
Qed.

Lemma commit_retime (t : Z) (st : PackageLoop) (P : gset nat) :
  commit mempool (retime t st) P = retime t (commit mempool st P).
Proof.
  unfold commit, retime. cbn [asm mapModifiedTx set_asm].
  rewrite !add_and_erase_all. cbn [fst snd].
  rewrite AddToBlock_all_retime. reflexivity.
Qed.

Lemma record_failure_retime (t : Z) (st : PackageLoop) (c : Candidate) :
  record_failure (retime t st) c = retime t (record_failure st c).
Proof. unfold record_failure. destruct (fUsingModified c); reflexivity. Qed.

Lemma try_package_retime (t : Z) (st : PackageLoop) (c : Candidate) :
  try_package cc mempool (retime t st) c = retime_outcome t (try_package cc mempool st c).
Proof.
  unfold try_package. rewrite record_failure_retime.
  change (asm (retime t st)) with (with_nTime t (asm st)).
  change (TestPackage cc (with_nTime t (asm st)) (packageSize c) (packageSigOpsCost c))
    with (TestPackage cc (asm st) (packageSize c) (packageSigOpsCost c)).
  change (package_of mempool (with_nTime t (asm st)) (iter c))
    with (package_of mempool (asm st) (iter c)).
  change (TestPackageTransactions cc mempool (with_nTime t (asm st)))
    with (TestPackageTransactions cc mempool (asm st)).
  destruct (TestPackage cc (asm st) (packageSize c) (packageSigOpsCost c)); cbn [negb].
  - destruct (TestPackageTransactions cc mempool (asm st) _); cbn [negb].
    + rewrite commit_retime. reflexivity.
    + reflexivity.
  - cbn. destruct (_ && _); reflexivity.
Qed.

Lemma consider_retime (t : Z) (st : PackageLoop) (c : Candidate) :
  consider cc mempool (retime t st) c = retime_outcome t (consider cc mempool st c).
Proof.
  unfold consider. rewrite try_package_retime.
  change (inBlock (asm (retime t st))) with (inBlock (asm st)).
  change (blockMinFeeRate (asm (retime t st))) with (blockMinFeeRate (asm st)).
  destruct (bool_decide _); [reflexivity|].
  destruct (_ <? _); reflexivity.
Qed.

Lemma iteration_retime (t : Z) (st : PackageLoop) :
  iteration cc mempool (retime t st) = retime_outcome t (iteration cc mempool st).
Proof.
  unfold iteration, evaluate.
  change (loop_condition (retime t st)) with (loop_condition st).
  change (choose cc mempool (retime t st)) with (choose cc mempool st).
  change (mi (retime t st)) with (mi st).
  change (SkipMapTxEntry (asm (retime t st))) with (SkipMapTxEntry (asm st)).
  change (mapModifiedTx (retime t st)) with (mapModifiedTx st).
  change (failedTx (retime t st)) with (failedTx st).
  destruct (loop_condition st); cbn [negb]; [|reflexivity].
  assert (match choose cc mempool st with
          | Some c => consider cc mempool (set_mi (retime t st) (mi_next c)) c
          | None => Stop (retime t st)
          end =
          retime_outcome t
            match choose cc mempool st with
            | Some c => consider cc mempool (set_mi st (mi_next c)) c
            | None => Stop st
            end) as He.
  { destruct (choose cc mempool st) as [c|]; [|reflexivity].
    change (set_mi (retime t st) (mi_next c)) with (retime t (set_mi st (mi_next c))).
    apply consider_retime. }
  destruct (mi st) as [|it rest]; [exact He|].
  destruct (SkipMapTxEntry _ _ _ _); [reflexivity | exact He].
Qed.

Lemma run_retime (t : Z) (fuel : nat) :
  forall st, run cc mempool fuel (retime t st) = retime_result t (run cc mempool fuel st).
Proof.
  induction fuel as [|fuel IH]; intros st; cbn [run]; [reflexivity|].
  rewrite iteration_retime.
  destruct (iteration cc mempool st) as [st'|st'|]; cbn [retime_outcome retime_result];
    [apply IH | reflexivity | reflexivity].
Qed.

(** Two preludes on the same tip, for assemblers with the same settings:
    they differ at most in the time stamp of the header. *)
Lemma prelude_retime (a b : BlockAssembler) (tip : CBlockIndex)
    (now1 now2 : Z) (w : bool) :
  nBlockMaxWeight b = nBlockMaxWeight a ->
  blockMinFeeRate b = blockMinFeeRate a ->
  locktime_median_time_past cc = true \/ u32 now1 = u32 now2 ->
  CreateNewBlock_prelude cc b tip now2 w =
  with_nTime (u32 now2) (CreateNewBlock_prelude cc a tip now1 w).
Proof.
  intros Hm Hf Hclock. unfold CreateNewBlock_prelude, with_nTime. cbn.
  rewrite Hm, Hf. f_equal.
  destruct Hclock as [->|Hc]; [reflexivity|].
  destruct (locktime_median_time_past cc); congruence.
Qed.

Lemma select_retime (a b : BlockAssembler) (tip : CBlockIndex)
    (now1 now2 : Z) (w : bool) :
  nBlockMaxWeight b = nBlockMaxWeight a ->
  blockMinFeeRate b = blockMinFeeRate a ->
  locktime_median_time_past cc = true \/ u32 now1 = u32 now2 ->
  CreateNewBlock_select cc mempool b tip now2 w =
  retime_result (u32 now2) (CreateNewBlock_select cc mempool a tip now1 w).
Proof.
  intros Hm Hf Hclock. unfold CreateNewBlock_select, addPackageTxs.
  rewrite (prelude_retime a b tip now1 now2 w Hm Hf Hclock).
  rewrite <- run_retime. reflexivity.
Qed.

(** C8: on an unchanged mempool, tip and configuration, assembling a
    second time, on the assembler the first run left behind and at a later
    clock reading, selects the same transactions (here even in the same
    order).  The clock matters only if the lock-time cutoff is the block
    time rather than the median time past. *)
Theorem C8_assembly_is_repeatable (a : BlockAssembler) (pindexPrev : CBlockIndex)
    (now1 now2 : Z) (scriptPubKeyIn : list ScriptElem) (fMineWitnessTx : bool) :
  mempool_structure ->
  locktime_median_time_past cc = true \/ u32 now1 = u32 now2 ->
  exists a1 a2,
    CreateNewBlock cc mempool a pindexPrev now1 scriptPubKeyIn fMineWitnessTx = Some a1 /\
    CreateNewBlock cc mempool a1 pindexPrev now2 scriptPubKeyIn fMineWitnessTx = Some a2 /\
    inBlock a2 = inBlock a1 /\ vtx a2 = vtx a1.
Proof.
  intros Hstr Hclock.
  destruct (select_finishes Hstr a pindexPrev now1 fMineWitnessTx) as (st & Hrun & _).
  pose proof Hrun as Hset. unfold CreateNewBlock_select, addPackageTxs in Hset.
  apply run_settings in Hset as (Hm & Hf & _).
  set (a1 := CreateNewBlock_coinbase cc (asm st) scriptPubKeyIn).
  assert (CreateNewBlock_select cc mempool a1 pindexPrev now2 fMineWitnessTx =
          Finished (retime (u32 now2) st)) as Hrun2.
  { rewrite (select_retime a a1 pindexPrev now1 now2 fMineWitnessTx);
      [rewrite Hrun; reflexivity | exact Hm | exact Hf | exact Hclock]. }
  exists a1, (CreateNewBlock_coinbase cc (asm (retime (u32 now2) st)) scriptPubKeyIn).
  unfold CreateNewBlock. rewrite Hrun, Hrun2. auto.
Qed.

End AssemblerProofs.

(** ** A concrete snapshot

    Four entries.  Entry 1 is the parent of 2, which is the parent of 3;
    entry 4 stands alone.  Entry 2 carries a priority delta of 500, so its
    modified fee is not its fee.  The index lists them by ancestor fee
    rate: 2 (17.5), 3 (13.3), 1 (10), 4 (3). *)

Definition entry_of (fee modfee sigops count size_anc modfees_anc sigops_anc : Z)
    : Assembler.CTxMemPoolEntry :=
  {| Assembler.GetFee := fee;
     Assembler.GetModifiedFee := modfee;
     Assembler.GetTxSize := 100;
     Assembler.GetTxWeight := 400;
     Assembler.GetSigOpCost := sigops;
     Assembler.GetCountWithAncestors := count;
     Assembler.GetSizeWithAncestors := size_anc;
     Assembler.GetModFeesWithAncestors := modfees_anc;
     Assembler.GetSigOpCostWithAncestors := sigops_anc;
     Assembler.HasWitness := false |}.

Definition pool4 : Assembler.CTxMemPool :=
  {| Assembler.entry := fun it =>
       match it with
       | 1%nat => entry_of 1000 1000 4 1 100 1000 4
       | 2%nat => entry_of 2000 2500 4 2 200 3500 8
       | 3%nat => entry_of 500 500 4 3 300 4000 12
       | _ => entry_of 300 300 4 1 100 300 4
       end;
     Assembler.mapTx_ancestor_score := [2; 3; 1; 4]%nat;
     Assembler.CalculateDescendants := fun it =>
       match it with
       | 1%nat => {[ 1; 2; 3 ]}%nat
       | 2%nat => {[ 2; 3 ]}%nat
       | 3%nat => {[ 3 ]}%nat
       | _ => {[ 4 ]}%nat
       end;
     Assembler.CalculateMemPoolAncestors := fun it =>
       match it with
       | 2%nat => {[ 1 ]}%nat
       | 3%nat => {[ 1; 2 ]}%nat
       | _ => ∅
       end |}.

(** Collaborators: the fee rate charges [nSatoshisPerK] per 1000 bytes, the
    overlay is ordered by exact cross-multiplied fee rates, every
    transaction is final. *)
Definition plain_rules : Assembler.Collaborators :=
  {| Assembler.MAX_BLOCK_WEIGHT := 4000000;
     Assembler.MAX_BLOCK_SIGOPS_COST := 80000;
     Assembler.locktime_median_time_past := true;
     Assembler.FeeRate_GetFee := fun r size => Assembler.nSatoshisPerK r * size / 1000;
     Assembler.CompareTxMemPoolEntryByAncestorFee := fun x y =>
       let f1 := Assembler.nModFeesWithAncestors x.2 * Assembler.nSizeWithAncestors y.2 in
       let f2 := Assembler.nModFeesWithAncestors y.2 * Assembler.nSizeWithAncestors x.2 in
       if f1 =? f2 then Nat.ltb x.1 y.1 else f1 >? f2;
     Assembler.IsFinalTx := fun _ _ _ => true;
     Assembler.ComputeBlockVersion := fun _ => 536870912;
     Assembler.IsWitnessEnabled := fun _ => true;
     Assembler.GetBlockSubsidy := fun _ => 50;
     Assembler.MineBlocksOnDemand := false;
     Assembler.arg_blockversion := None |}.

Definition options_1000 : Assembler.Options :=
  {| Assembler.opt_blockMinFeeRate := {| Assembler.nSatoshisPerK := 1000 |};
     Assembler.opt_nBlockMaxWeight := 3000000 |}.

Definition assembler0 : Assembler.BlockAssembler :=
  Assembler.new_BlockAssembler plain_rules options_1000.

Definition tip100 : Assembler.CBlockIndex :=
  {| Assembler.nHeight_tip := 100; Assembler.GetMedianTimePast := 1000;
     Assembler.GetBlockHash := 77 |}.

Ltac by_compute :=
  match goal with
  | |- ?P => let d := constr:(_ : Decision P) in
             apply (@bool_decide_unpack P d); vm_compute; exact I
  end.

Lemma pool4_structure : mempool_structure pool4.
Proof.
  split.
  - by_compute.
  - change (set_Forall (fun x => Assembler.CalculateMemPoolAncestors pool4 x ⊆ pool pool4)
                       (pool pool4)).
    by_compute.
  - change (set_Forall (fun x => Assembler.CalculateDescendants pool4 x ⊆ pool pool4)
                       (pool pool4)).
    by_compute.
  - intros x d Hx. revert d. revert x Hx.
    change (set_Forall (fun x => set_Forall (fun d => d <> x ->
              (d ∈ Assembler.CalculateDescendants pool4 x <->
               x ∈ Assembler.CalculateMemPoolAncestors pool4 d)) (pool pool4))
            (pool pool4)).
    by_compute.
  - intros x a Hx. revert a. revert x Hx.
    change (set_Forall (fun x => set_Forall (fun a =>
              Assembler.CalculateMemPoolAncestors pool4 a ⊆
              Assembler.CalculateMemPoolAncestors pool4 x)
              (Assembler.CalculateMemPoolAncestors pool4 x))
            (pool pool4)).
    by_compute.
  - intros x a Hx. revert a. revert x Hx.
    change (set_Forall (fun x => set_Forall (fun a =>
              count_of pool4 a < count_of pool4 x)
              (Assembler.CalculateMemPoolAncestors pool4 x))
            (pool pool4)).
    by_compute.
Qed.

Lemma pool4_aggregates : mempool_aggregates pool4.
Proof.
  split.
  - change (set_Forall (fun x => 0 <= size_of pool4 x /\ 0 <= weight_of pool4 x /\
                                 0 <= sigops_of pool4 x) (pool pool4)).
    by_compute.
  - change (set_Forall (fun x => weight_of pool4 x <=
                                 Assembler.WITNESS_SCALE_FACTOR * size_of pool4 x)
                       (pool pool4)).
    by_compute.
  - change (set_Forall (fun x =>
              Assembler.GetSizeWithAncestors (Assembler.entry pool4 x) =
              sum_over (size_of pool4)
                (Assembler.CalculateMemPoolAncestors pool4 x ∪ {[ x ]})) (pool pool4)).
    by_compute.
  - change (set_Forall (fun x =>
              Assembler.GetSigOpCostWithAncestors (Assembler.entry pool4 x) =
              sum_over (sigops_of pool4)
                (Assembler.CalculateMemPoolAncestors pool4 x ∪ {[ x ]})) (pool pool4)).
    by_compute.
  - change (set_Forall (fun x =>
              Assembler.GetSizeWithAncestors (Assembler.entry pool4 x) < 2 ^ 61)
              (pool pool4)).
    by_compute.
  - change (set_Forall (fun x =>
              Assembler.GetSigOpCostWithAncestors (Assembler.entry pool4 x) < 2 ^ 63)
              (pool pool4)).
    by_compute.
Qed.

Lemma plain_rules_limits : limits_ok plain_rules.
Proof. unfold limits_ok. cbn. lia. Qed.

(** ** The claims on the concrete snapshot *)

Lemma C1_witness :
  mempool_structure pool4 /\ mempool_aggregates pool4 /\ limits_ok plain_rules /\
  Assembler.nBlockMaxWeight assembler0 =
    Assembler.clamp_nBlockMaxWeight plain_rules options_1000 /\
  exists st,
    Assembler.CreateNewBlock_select plain_rules pool4 assembler0 tip100 2000 true =
      Assembler.Finished st /\
    Assembler.nBlockWeight (Assembler.asm st) <= Assembler.nBlockMaxWeight (Assembler.asm st) /\
    Assembler.nBlockSigOpsCost (Assembler.asm st) <=
      Assembler.MAX_BLOCK_SIGOPS_COST plain_rules.
Proof.
  split; [exact pool4_structure|]. split; [exact pool4_aggregates|].
  split; [exact plain_rules_limits|]. split; [reflexivity|].
  destruct (C1_budget_is_kept plain_rules pool4 options_1000 assembler0 tip100 2000 true
              pool4_structure pool4_aggregates plain_rules_limits eq_refl)
    as [(st & Hrun & _ & Hw & Hs) _].
  exists st. auto.
Defined.

Lemma C2_witness :
  mempool_structure pool4 /\
  exists st,
    Assembler.CreateNewBlock_select plain_rules pool4 assembler0 tip100 2000 true =
      Assembler.Finished st /\
    (forall i j x y,
        Assembler.vtx (Assembler.asm st) !! i = Some (Assembler.PoolTx x) ->
        Assembler.vtx (Assembler.asm st) !! j = Some (Assembler.PoolTx y) ->
        y ∈ Assembler.CalculateMemPoolAncestors pool4 x -> (j < i)%nat).
Proof.
  split; [exact pool4_structure|].
  destruct (C2_ancestors_come_first plain_rules pool4 assembler0 tip100 2000 true
              pool4_structure) as (st & Hrun & Horder & _).
  exists st. auto.
Defined.

(** An assembler that asks for 20000 per 1000 bytes: the best package of
    the snapshot, that of entry 2 with fees 3500 for 200 bytes, is below the
    floor of 4000. *)
Definition options_20000 : Assembler.Options :=
  {| Assembler.opt_blockMinFeeRate := {| Assembler.nSatoshisPerK := 20000 |};
     Assembler.opt_nBlockMaxWeight := 3000000 |}.

Definition loop_start_20000 : Assembler.PackageLoop :=
  Assembler.addPackageTxs_init pool4
    (Assembler.CreateNewBlock_prelude plain_rules
       (Assembler.new_BlockAssembler plain_rules options_20000) tip100 2000 true).

Definition package_of_2 : Assembler.Candidate :=
  Assembler.from_mapTx pool4 2 [3; 1; 4]%nat.

Lemma C5_witness :
  Assembler.choose plain_rules pool4 loop_start_20000 = Some package_of_2 /\
  not_skipped loop_start_20000 /\
  Assembler.iter package_of_2 ∉ Assembler.inBlock (Assembler.asm loop_start_20000) /\
  exists st',
    Assembler.run plain_rules pool4 1 loop_start_20000 = Assembler.Finished st' /\
    Assembler.asm st' = Assembler.asm loop_start_20000 /\
    Assembler.mapModifiedTx st' = Assembler.mapModifiedTx loop_start_20000.
Proof.
  assert (Assembler.choose plain_rules pool4 loop_start_20000 = Some package_of_2) as Hc
    by (vm_compute; reflexivity).
  assert (not_skipped loop_start_20000) as Hns by (vm_compute; reflexivity).
  assert (Assembler.iter package_of_2 ∉
          Assembler.inBlock (Assembler.asm loop_start_20000)) as Hnew by by_compute.
  split; [exact Hc|]. split; [exact Hns|]. split; [exact Hnew|].
  apply (proj1 (C5_fee_rate_floor plain_rules pool4 loop_start_20000 package_of_2 0
                  Hc Hns Hnew)).
  vm_compute. reflexivity.
Defined.






(** *** An overlay entry that comes back

    Child pays for parent: entry 1 is the parent of 2, which is the parent
    of 3; fees 6000, 100 and 10000, 100 bytes each.  With room for two
    entries only, the loop takes 1, fails on the package of 3 (which needs 2)
    and erases it from the overlay, then takes 2. *)






Lemma C8_witness :
  mempool_structure pool4 /\
  (Assembler.locktime_median_time_past plain_rules = true \/ u32 2000 = u32 2600) /\
  exists a1 a2,
    Assembler.CreateNewBlock plain_rules pool4 assembler0 tip100 2000
      [Assembler.OP_0] true = Some a1 /\
    Assembler.CreateNewBlock plain_rules pool4 a1 tip100 2600
      [Assembler.OP_0] true = Some a2 /\
    Assembler.inBlock a2 = Assembler.inBlock a1 /\
    Assembler.vtx a2 = Assembler.vtx a1.
Proof.
  split; [exact pool4_structure|]. split; [left; reflexivity|].
  exact (C8_assembly_is_repeatable plain_rules pool4 assembler0 tip100 2000 2600
           [Assembler.OP_0] true pool4_structure (or_introl eq_refl)).
Defined.

Lemma C10_witness :
  mempool_structure pool4 /\
  exists a' l cb,
    Assembler.CreateNewBlock plain_rules pool4 assembler0 tip100 2000
      [Assembler.OP_0] true = Some a' /\
    Assembler.vtx a' = Assembler.CoinbaseTx cb :: (Assembler.PoolTx <$> l) /\
    Assembler.nFees a' = sum_over (fee_of pool4) (Assembler.inBlock a') /\
    Assembler.vout0_nValue cb =
      sum_over (fee_of pool4) (Assembler.inBlock a') +
      Assembler.GetBlockSubsidy plain_rules (Assembler.nHeight_tip tip100 + 1).
Proof.
  split; [exact pool4_structure|].
  destruct (C10_block_fees_are_raw_fees plain_rules pool4 assembler0 tip100 2000
              [Assembler.OP_0] true pool4_structure)
    as (_ & a' & l & cb & Hrun & Hv & _ & _ & Hn & _ & Hcb).
  exists a', l, cb. auto.
Defined.

Lemma addPackageTxs_terminates_witness :
  mempool_structure pool4 /\
  exists st,
    Assembler.addPackageTxs plain_rules pool4
      (Assembler.CreateNewBlock_prelude plain_rules assembler0 tip100 2000 true) =
      Assembler.Finished st /\
    Assembler.nHeight (Assembler.asm st) = Assembler.nHeight_tip tip100 + 1.
Proof.
  split; [exact pool4_structure|].
  exact (addPackageTxs_terminates plain_rules pool4 assembler0 tip100 2000 true
           pool4_structure).
Defined.

(** The run behind the witnesses: all four entries go in, parents first;
    the block collects the raw fees 1000 + 2000 + 500 + 300, not the 4300
    of the modified fees. *)
Example CreateNewBlock_on_pool4 :
  exists a',
    Assembler.CreateNewBlock plain_rules pool4 assembler0 tip100 2000
      [Assembler.OP_0] true = Some a' /\
    Assembler.vtx a' =
      [Assembler.CoinbaseTx
         {| Assembler.vin0_prevout_null := true;
            Assembler.vin0_scriptSig := [Assembler.PushNum 101; Assembler.OP_0];
            Assembler.vout0_scriptPubKey := [Assembler.OP_0];
            Assembler.vout0_nValue := 3850 |};
       Assembler.PoolTx 1; Assembler.PoolTx 2; Assembler.PoolTx 3; Assembler.PoolTx 4] /\
    Assembler.vTxFees a' = [-3800; 1000; 2000; 500; 300] /\
    Assembler.nBlockWeight a' = 5600 /\
    Assembler.nBlockSigOpsCost a' = 416.
Proof.
  eexists. split; [vm_compute; reflexivity|].
  repeat split; vm_compute; reflexivity.
Qed.

(** * Part III: more of the code *)

(** ** The scanner, nonce by nonce *)

Section ScanOrder.

Import Scan.

Variable scrypt : CBlockHeader -> Z.

(** The hash the scanner computes for the [i]-th nonce after [nNonce]. *)
Definition hashed (blockHeader : CBlockHeader) (nNonce : Z) (i : nat) : Z :=
  u256 (scrypt (set_nNonce blockHeader (u32 (nNonce + Z.of_nat i)))).

Lemma hashed_next (blockHeader : CBlockHeader) (n : Z) (i : nat) :
  hashed (set_nNonce blockHeader n) (u32 (n + 1)) i = hashed blockHeader n (S i).
Proof.
  unfold hashed. rewrite u32_add_l, Nat2Z.inj_succ.
  replace (n + 1 + Z.of_nat i) with (n + Z.succ (Z.of_nat i)) by lia.
  reflexivity.
Qed.

Lemma hashed_first (blockHeader : CBlockHeader) (n : Z) :
  0 <= n < 2 ^ 32 ->
  u256 (scrypt (set_nNonce blockHeader n)) = hashed blockHeader n 0.
Proof.
  intros Hn. unfold hashed. rewrite Z.add_0_r, u32_small by exact Hn. reflexivity.
Qed.

(** The loop stops at the first hash that passes the test, or at the
    boundary. *)
Lemma scan_loop_order (fuel : nat) :
  forall blockHeader f nNonce phash hashesScanned calls r,
    0 <= nNonce < 2 ^ 32 ->
    scan_loop scrypt fuel blockHeader f nNonce phash hashesScanned calls = Some r ->
    exists k : nat,
      scrypt_calls r = (calls + S k)%nat /\
      (forall i, (i < k)%nat -> found f (hashed blockHeader nNonce i) = false) /\
      out_phash r = hashed blockHeader nNonce k /\
      found f (hashed blockHeader nNonce k) = ret r.
Proof.
  induction fuel as [|fuel IH]; intros hdr f n ph hs calls r Hn; [discriminate|].
  cbn [scan_loop]. rewrite (hashed_first hdr n Hn).
  destruct (found f (hashed hdr n 0)) eqn:Hfound.
  - intros [= <-]. exists 0%nat. cbn.
    split; [lia|]. split; [intros i Hi; lia|]. split; [reflexivity | exact Hfound].
  - destruct (Z.land (u32 (n + 1)) 0xfff =? 0).
    + intros [= <-]. exists 0%nat. cbn.
      split; [lia|]. split; [intros i Hi; lia|]. split; [reflexivity | exact Hfound].
    + intros Hr. apply IH in Hr; [|apply Z.mod_pos_bound; lia].
      destruct Hr as (k & Hc & Hbefore & Hlast & Hret).
      exists (S k). split; [lia|].
      rewrite <- hashed_next. split; [|split; assumption].
      intros [|i] Hi; [exact Hfound|].
      rewrite <- hashed_next. apply Hbefore. lia.
Qed.

(** A hash that fails the scanner's test is above the target. *)
Lemma not_found_is_above (solutionHash h : Z) :
  0 <= h -> found (firstLEZeroByte (u256 solutionHash)) h = false ->
  u256 solutionHash < h.
Proof.
  intros Hh Hf. destruct (Z_lt_le_dec (u256 solutionHash) h) as [Hlt|Hle]; [exact Hlt|].
  rewrite below_target_is_found in Hf by lia. discriminate.
Qed.

Lemma hashed_nonneg (blockHeader : CBlockHeader) (n : Z) (i : nat) :
  0 <= hashed blockHeader n i.
Proof. unfold hashed, u256. apply Z.mod_pos_bound. lia. Qed.

(** The scanner passes over no solution: every hash computed before the
    one it returns is above the target, and so is the one it returns when
    it reports no success; the hash it returns is the last one computed. *)
Theorem ScanScryptHash_skips_no_solution
    blockHeader nNonce phash solutionHash hashesScanned r :
  0 <= nNonce < 2 ^ 32 ->
  byte_at (u256 solutionHash) 31 = 0 ->
  ScanScryptHash scrypt blockHeader nNonce phash solutionHash hashesScanned = Some r ->
  (forall i, (S i < scrypt_calls r)%nat ->
             u256 solutionHash < hashed blockHeader nNonce i) /\
  (ret r = false ->
     forall i, (i < scrypt_calls r)%nat ->
               u256 solutionHash < hashed blockHeader nNonce i) /\
  (1 <= scrypt_calls r)%nat /\
  out_phash r = hashed blockHeader nNonce (scrypt_calls r - 1).
Proof.
  intros Hn Hz. unfold ScanScryptHash.
  destruct (Nat.eqb (firstLEZeroByte (u256 solutionHash)) 32) eqn:Hf.
  { apply Nat.eqb_eq, firstLEZeroByte_32 in Hf. contradiction. }
  intros Hr. apply scan_loop_order in Hr; [|exact Hn].
  destruct Hr as (k & Hc & Hbefore & Hlast & Hret).
  cbn in Hc. rewrite Hc. replace (S k - 1)%nat with k by lia.
  split; [|split; [|split; [lia | exact Hlast]]].
  - intros i Hi. apply not_found_is_above; [apply hashed_nonneg|].
    apply Hbefore. lia.
  - intros Hfalse i Hi. apply not_found_is_above; [apply hashed_nonneg|].
    destruct (Nat.eq_dec i k) as [->|Hne].
    + rewrite Hret. exact Hfalse.
    + apply Hbefore. lia.
Qed.

(** A call that reports no success has hashed every nonce from [nNonce] up
    to the next multiple of 4096, which is where it leaves [nNonce]: calls
    that fail one after the other go through the nonces window by window. *)
Theorem ScanScryptHash_failure_reaches_boundary
    blockHeader nNonce phash solutionHash hashesScanned r :
  ScanScryptHash scrypt blockHeader nNonce phash solutionHash hashesScanned = Some r ->
  ret r = false ->
  Z.of_nat (scrypt_calls r) = 4096 - nNonce mod 4096 /\
  out_nNonce r = u32 (nNonce + (4096 - nNonce mod 4096)) /\
  out_nNonce r mod 4096 = 0.
Proof.
  intros Hr Hfalse.
  destruct (ScanScryptHash_total scrypt blockHeader nNonce phash solutionHash hashesScanned)
    as (r' & Hr' & Hnz & Hz).
  rewrite Hr in Hr'. injection Hr' as <-.
  destruct (Z.eq_dec (byte_at (u256 solutionHash) 31) 0) as [E|E];
    [|rewrite (Hnz E) in Hfalse; discriminate].
  destruct (Hz E) as [(k & Hk1 & Hk2 & Hk3 & Hk4 & _) Hf _ _].
  specialize (Hf Hfalse). rewrite land_fff in Hf.
  cbn in Hk3. rewrite Hk3. unfold to_boundary in Hk2.
  assert (Hmod : (nNonce + Z.of_nat k) mod 4096 = 0).
  { rewrite <- u32_mod_4096, <- Hk4. exact Hf. }
  pose proof (Z.mod_pos_bound nNonce 4096 ltac:(lia)) as Hb.
  assert (Hk : Z.of_nat k = 4096 - nNonce mod 4096).
  { rewrite <- Zplus_mod_idemp_l in Hmod.
    apply Z.mod_divide in Hmod; [|lia]. destruct Hmod as [q Hq]. nia. }
  split; [exact Hk|]. split; [rewrite Hk4, Hk; reflexivity | exact Hf].
Qed.

End ScanOrder.

Lemma ScanScryptHash_skips_no_solution_witness :
  u256 (2 ^ 200) < hashed zero_at_5 header0 3 0 /\
  u256 (2 ^ 200) < hashed zero_at_5 header0 3 1 /\
  0 = hashed zero_at_5 header0 3 (3 - 1).
Proof.
  pose proof (ScanScryptHash_skips_no_solution zero_at_5 header0 3 0 (2 ^ 200) 0
           {| Scan.ret := true; Scan.out_nNonce := 6; Scan.out_phash := 0;
              Scan.out_hashesScanned := 3; Scan.scrypt_calls := 3 |}
           ltac:(lia) ltac:(vm_compute; reflexivity) ltac:(vm_compute; reflexivity))
    as (Hbefore & _ & _ & Hlast).
  split; [apply Hbefore; cbn; lia|]. split; [apply Hbefore; cbn; lia | exact Hlast].
Defined.

Lemma ScanScryptHash_failure_reaches_boundary_witness :
  Z.of_nat 96 = 4096 - 4000 mod 4096 /\
  4096 = u32 (4000 + (4096 - 4000 mod 4096)) /\
  4096 mod 4096 = 0.
Proof.
  apply (ScanScryptHash_failure_reaches_boundary all_ones_hash header0 4000 0 0 0
           {| Scan.ret := false; Scan.out_nNonce := 4096;
              Scan.out_phash := 2 ^ 256 - 1;
              Scan.out_hashesScanned := 96; Scan.scrypt_calls := 96 |}
           ltac:(vm_compute; reflexivity) ltac:(reflexivity)).
Defined.

(** ** The clock, the default options, the extra nonce, the thread group *)

Section MinerProofs.

Import Scan Assembler Submit.

Variable env : Miner.Environment.

(** [UpdateTime] never moves the time of the header backwards: as long as
    the times fit in 32 bits, the header ends at the latest of its old
    time, the median time past plus one, and the clock.  The value returned
    is negative exactly when the header was ahead of both, and then the
    time is left alone.  Only [nTime] and [nBits] are written, [nBits] only
    on a chain that allows minimum-difficulty blocks. *)
Theorem UpdateTime_moves_the_time_forward (pblock : CBlockHeader)
    (pindexPrev : CBlockIndex) (now : Z) :
  0 <= nTime pblock < 2 ^ 32 ->
  Z.max (GetMedianTimePast pindexPrev + 1) now < 2 ^ 32 ->
  let r := Miner.UpdateTime env pblock pindexPrev now in
  nTime r.1 = Z.max (nTime pblock) (Z.max (GetMedianTimePast pindexPrev + 1) now) /\
  GetMedianTimePast pindexPrev < nTime r.1 /\
  r.2 = Z.max (GetMedianTimePast pindexPrev + 1) now - nTime pblock /\
  (r.2 < 0 -> nTime r.1 = nTime pblock) /\
  nVersion r.1 = nVersion pblock /\
  hashPrevBlock r.1 = hashPrevBlock pblock /\
  hashMerkleRoot r.1 = hashMerkleRoot pblock /\
  nNonce r.1 = nNonce pblock /\
  (Miner.fPowAllowMinDifficultyBlocks env = false -> nBits r.1 = nBits pblock).
Proof.
  intros Hold Hnew. unfold Miner.UpdateTime. cbn zeta.
  set (new := Z.max (GetMedianTimePast pindexPrev + 1) now) in *.
  assert (Hmtp : GetMedianTimePast pindexPrev < new) by (unfold new; lia).
  destruct (Z.ltb_spec (nTime pblock) new) as [Hlt|Hge];
    destruct (Miner.fPowAllowMinDifficultyBlocks env); cbn;
    rewrite ?u32_small by lia;
    repeat split; try lia; try discriminate.
Qed.

(** The value [IncrementExtraNonce] gives the extra nonce: 1 when the block
    builds on another block than the one remembered, one more than before
    otherwise, in 32 bits. *)
Definition next_extra_nonce (static_hashPrevBlock hashPrev nExtraNonce : Z) : Z :=
  if static_hashPrevBlock =? hashPrev then u32 (nExtraNonce + 1) else 1.

(** What a call of [IncrementExtraNonce] leaves, by cases. *)
Lemma IncrementExtraNonce_inv (static_hashPrevBlock : Z)
    (pblock : CBlock) (pindexPrev : CBlockIndex) (nExtraNonce : Z) :
  let n' := next_extra_nonce static_hashPrevBlock (hashPrevBlock (header pblock))
              nExtraNonce in
  let sig := Miner.extranonce_scriptSig env (u32 (nHeight_tip pindexPrev + 1)) n' in
  match Miner.IncrementExtraNonce env static_hashPrevBlock pblock pindexPrev nExtraNonce with
  | Some (static', pblock', nExtraNonce') =>
      static' = hashPrevBlock (header pblock) /\
      nExtraNonce' = n' /\
      Miner.script_size env sig <= 100 /\
      (exists tx rest,
         block_vtx pblock = CoinbaseTx tx :: rest /\
         block_vtx pblock' =
           CoinbaseTx {| vin0_prevout_null := vin0_prevout_null tx;
                         vin0_scriptSig := sig;
                         vout0_scriptPubKey := vout0_scriptPubKey tx;
                         vout0_nValue := vout0_nValue tx |} :: rest) /\
      header pblock' =
        Miner.set_hashMerkleRoot (header pblock)
          (Miner.BlockMerkleRoot env
             {| header := header pblock; block_vtx := block_vtx pblock' |})
  | None =>
      (forall tx rest, block_vtx pblock <> CoinbaseTx tx :: rest) \/
      100 < Miner.script_size env sig
  end.
Proof.
  intros n' sig.
  assert (Hn : u32 ((if negb (static_hashPrevBlock =? hashPrevBlock (header pblock))
                     then 0 else nExtraNonce) + 1) = n').
  { unfold n', next_extra_nonce.
    destruct (static_hashPrevBlock =? hashPrevBlock (header pblock)); reflexivity. }
  assert (Hs : (if negb (static_hashPrevBlock =? hashPrevBlock (header pblock))
                then hashPrevBlock (header pblock) else static_hashPrevBlock)
               = hashPrevBlock (header pblock)).
  { destruct (Z.eqb_spec static_hashPrevBlock (hashPrevBlock (header pblock)));
      cbn; congruence. }
  unfold Miner.IncrementExtraNonce. cbn zeta. rewrite Hn, Hs. fold sig.
  destruct (block_vtx pblock) as [|[|tx|it] rest] eqn:Hvtx;
    try (left; intros tx' rest'; discriminate).
  cbn. fold sig.
  destruct (Z.leb_spec (Miner.script_size env sig) 100) as [Hle|Hgt];
    [|right; exact Hgt].
  split; [reflexivity|]. split; [reflexivity|]. split; [exact Hle|].
  split; [exists tx, rest; split; reflexivity | reflexivity].
Qed.

(** [IncrementExtraNonce] returns exactly when [vtx[0]] is a coinbase and
    the new script is at most 100 bytes long.  It then remembers the
    previous-block hash of the block, has counted the extra nonce (from 1
    on a new previous block, else one up), and has replaced the script of
    the coinbase input and the merkle root, computed over the new
    transactions, and nothing else: the other header fields, the output of
    the coinbase and the other transactions stay.  A further call on a
    block with the same previous hash counts one up. *)
Theorem IncrementExtraNonce_counts_and_keeps (static_hashPrevBlock : Z)
    (pblock : CBlock) (pindexPrev : CBlockIndex) (nExtraNonce : Z) :
  let n' := next_extra_nonce static_hashPrevBlock (hashPrevBlock (header pblock))
              nExtraNonce in
  let sig := Miner.extranonce_scriptSig env (u32 (nHeight_tip pindexPrev + 1)) n' in
  match Miner.IncrementExtraNonce env static_hashPrevBlock pblock pindexPrev nExtraNonce with
  | Some (static', pblock', nExtraNonce') =>
      static' = hashPrevBlock (header pblock) /\
      nExtraNonce' = n' /\
      Miner.script_size env sig <= 100 /\
      (exists tx rest,
         block_vtx pblock = CoinbaseTx tx :: rest /\
         block_vtx pblock' =
           CoinbaseTx {| vin0_prevout_null := vin0_prevout_null tx;
                         vin0_scriptSig := sig;
                         vout0_scriptPubKey := vout0_scriptPubKey tx;
                         vout0_nValue := vout0_nValue tx |} :: rest) /\
      header pblock' =
        Miner.set_hashMerkleRoot (header pblock)
          (Miner.BlockMerkleRoot env
             {| header := header pblock; block_vtx := block_vtx pblock' |}) /\
      (forall pblock2 pindexPrev2,
         hashPrevBlock (header pblock2) = hashPrevBlock (header pblock) ->
         match Miner.IncrementExtraNonce env static' pblock2 pindexPrev2 nExtraNonce' with
         | Some (static2, _, nExtraNonce2) =>
             static2 = static' /\ nExtraNonce2 = u32 (nExtraNonce' + 1)
         | None => True
         end)
  | None =>
      (forall tx rest, block_vtx pblock <> CoinbaseTx tx :: rest) \/
      100 < Miner.script_size env sig
  end.
Proof.
  intros n' sig.
  pose proof (IncrementExtraNonce_inv static_hashPrevBlock pblock pindexPrev nExtraNonce)
    as Hfirst.
  cbv zeta in Hfirst. fold n' in Hfirst. fold sig in Hfirst.
  destruct (Miner.IncrementExtraNonce env static_hashPrevBlock pblock pindexPrev nExtraNonce)
    as [[[static' pblock'] nExtraNonce']|]; [|exact Hfirst].
  destruct Hfirst as (Hs & Hn & Hsize & Hvtx & Hhdr).
  repeat (split; [assumption|]).
  intros pblock2 pindexPrev2 Hsame.
  pose proof (IncrementExtraNonce_inv static' pblock2 pindexPrev2 nExtraNonce') as Hnext.
  cbv zeta in Hnext.
  destruct (Miner.IncrementExtraNonce env static' pblock2 pindexPrev2 nExtraNonce')
    as [[[static2 pblock2'] nExtraNonce2]|]; [|exact I].
  destruct Hnext as (Hs2 & Hn2 & _).
  split; [congruence|]. rewrite Hn2. unfold next_extra_nonce.
  rewrite Hsame, <- Hs, Z.eqb_refl. reflexivity.
Qed.

(** *** The default assembler *)

(** The assembler [CoinMiner] builds keeps its weight limit between 4000 and
    [MAX_BLOCK_WEIGHT - 4000], whatever [-blockmaxweight] says: a value in
    that range is taken as it is, a smaller one becomes 4000, a larger one
    [MAX_BLOCK_WEIGHT - 4000], and so does a negative one, which is read as
    a huge unsigned number. *)
Theorem BlockAssembler_default_weight_limit (cc : Collaborators)
    (gArgs : Miner.ArgsManager) :
  8000 <= MAX_BLOCK_WEIGHT cc < 2 ^ 32 ->
  - 2 ^ 63 <= default (Miner.DEFAULT_BLOCK_MAX_WEIGHT env)
                (Miner.arg_blockmaxweight gArgs) < 2 ^ 63 ->
  let w := default (Miner.DEFAULT_BLOCK_MAX_WEIGHT env) (Miner.arg_blockmaxweight gArgs) in
  let limit := nBlockMaxWeight (Miner.BlockAssembler_default env cc gArgs) in
  4000 <= limit <= MAX_BLOCK_WEIGHT cc - 4000 /\
  (4000 <= w <= MAX_BLOCK_WEIGHT cc - 4000 -> limit = w) /\
  (0 <= w < 4000 -> limit = 4000) /\
  (MAX_BLOCK_WEIGHT cc - 4000 < w -> limit = MAX_BLOCK_WEIGHT cc - 4000) /\
  (w < 0 -> limit = MAX_BLOCK_WEIGHT cc - 4000).
Proof.
  intros Hmax Hw w limit. subst limit.
  assert (Hopt : opt_nBlockMaxWeight (Miner.DefaultOptions env gArgs) = u64 w).
  { unfold Miner.DefaultOptions. destruct (Miner.arg_blockmintxfee gArgs); reflexivity. }
  unfold Miner.BlockAssembler_default, new_BlockAssembler. cbn [nBlockMaxWeight].
  unfold clamp_nBlockMaxWeight. rewrite Hopt.
  rewrite (u32_small (MAX_BLOCK_WEIGHT cc - 4000)) by lia.
  assert (Hidem : u64 (u64 w) = u64 w) by (unfold u64; apply Z.mod_mod; lia).
  rewrite Hidem. fold w in Hw.
  assert (Hu : (0 <= w -> u64 w = w) /\ (w < 0 -> u64 w = w + 2 ^ 64)).
  { split; intros H; unfold u64.
    - apply Z.mod_small. lia.
    - symmetry. apply (Z.mod_unique_pos _ _ (-1)); lia. }
  destruct Hu as [Hpos Hneg].
  destruct (Z_lt_le_dec w 0) as [Hn|Hp].
  - rewrite (Hneg Hn). rewrite Z.min_l, Z.max_r, u32_small by lia. lia.
  - rewrite (Hpos Hp).
    destruct (Z_lt_le_dec w 4000) as [H1|H1].
    + rewrite Z.min_r, Z.max_l, u32_small by lia. lia.
    + destruct (Z_le_gt_dec w (MAX_BLOCK_WEIGHT cc - 4000)) as [H2|H2].
      * rewrite Z.min_r, Z.max_r, u32_small by lia. lia.
      * rewrite Z.min_l, Z.max_r, u32_small by lia. lia.
Qed.

(** *** The thread group *)

(** Whatever ran before, after [GenerateCoins] there are no mining threads
    when generation is switched off or no thread is asked for, and as many
    as asked for otherwise, the number of cores standing in for a negative
    request; the group that ran before has been interrupted and is gone.
    The threads are started with the characters ['1'], ['2'], ... for as
    long as these fit in a [char]. *)
Theorem GenerateCoins_replaces_the_group (fGenerate : bool) (nThreads : Z)
    (t : Miner.Threads) :
  - 2 ^ 31 <= nThreads < 2 ^ 31 ->
  0 <= Miner.GetNumCores env < 2 ^ 31 ->
  let n := if nThreads <? 0 then Miner.GetNumCores env else nThreads in
  let t' := Miner.GenerateCoins env fGenerate nThreads t in
  Miner.HowManyMiningThreads t' = (if fGenerate then n else 0) /\
  Miner.interrupted t' =
    match Miner.minerThreads t with
    | Some group => group :: Miner.interrupted t
    | None => Miner.interrupted t
    end /\
  (forall group i, Miner.minerThreads t' = Some group ->
                   (i < 207)%nat -> Z.of_nat i < n ->
                   group !! i = Some (49 + Z.of_nat i)).
Proof.
  intros Hn Hcores n t'. subst t'.
  unfold Miner.GenerateCoins, Miner.HowManyMiningThreads. fold n.
  assert (Hrange : 0 <= n < 2 ^ 31).
  { unfold n. destruct (Z.ltb_spec nThreads 0); lia. }
  assert (Hlen : forall k, 0 <= k ->
                           Z.of_nat (length (Miner.thread_chars k)) = k).
  { intros k Hk. unfold Miner.thread_chars.
    rewrite length_map, length_seq. lia. }
  destruct t as [[group|] intr]; cbn [Miner.minerThreads Miner.interrupted];
    (destruct (Z.eqb_spec n 0) as [Hz|Hnz]; cbn [orb];
     [ rewrite Hz; cbn;
       split; [destruct fGenerate; reflexivity|];
       split; [reflexivity|]; intros g i [=]
     | destruct fGenerate; cbn [negb Miner.minerThreads Miner.interrupted];
       [ rewrite u32_small by lia; rewrite Hlen by lia;
         split; [reflexivity|]; split; [reflexivity|];
         intros g i [= <-] Hi Hin; unfold Miner.thread_chars;
         rewrite list_lookup_fmap, lookup_seq_lt by lia; cbn [fmap option_fmap option_map];
         rewrite Z.mod_small by lia; reflexivity
       | split; [reflexivity|]; split; [reflexivity|]; intros g i [=] ] ]).
Qed.

End MinerProofs.

(** ** The search loop of [CoinMiner] *)

Section SearchProofs.

Import Scan Assembler Submit.

Variable env : Miner.Environment.
Variable cc : Collaborators.
Variable scrypt : CBlockHeader -> Z.
Variable Chain : Type.
Variable Tip_GetBlockHash : Chain -> Z.
Variable ProcessNewBlock : Chain -> CBlock -> bool * Chain.

Local Abbreviation turn :=
  (Miner.CoinMiner_turn env cc scrypt Chain Tip_GetBlockHash ProcessNewBlock).
Local Abbreviation search :=
  (Miner.CoinMiner_search env cc scrypt Chain Tip_GetBlockHash ProcessNewBlock).
Local Abbreviation solution_found :=
  (Miner.solution_found env cc Chain Tip_GetBlockHash ProcessNewBlock).
Local Abbreviation submit := (ProcessBlockFound Chain Tip_GetBlockHash ProcessNewBlock).

(** What the search never writes: the node, and every part of the block
    but [nTime], [nBits] and [nNonce]. *)
Record untouched (s s' : Miner.Search Chain) : Prop := {
  same_version : nVersion (header (Miner.pblock s')) = nVersion (header (Miner.pblock s));
  same_prev :
    hashPrevBlock (header (Miner.pblock s')) = hashPrevBlock (header (Miner.pblock s));
  same_root :
    hashMerkleRoot (header (Miner.pblock s')) = hashMerkleRoot (header (Miner.pblock s));
  same_vtx : block_vtx (Miner.pblock s') = block_vtx (Miner.pblock s)
}.

Record idle (s s' : Miner.Search Chain) : Prop := {
  idle_block : untouched s s';
  idle_node : Miner.node s' = Miner.node s;
  idle_script : Miner.KeepScript_called s' = Miner.KeepScript_called s
}.

(** A block went to [ProcessBlockFound]: it carries the nonce the scanner
    reported and its proof-of-work hash, which is the hash the scanner left,
    is at most the target. *)
Record submitted (s : Miner.Search Chain) (e : Miner.TurnEnd Chain) : Prop := {
  sub_block : untouched s (Miner.state_of e);
  sub_work :
    u256 (Miner.GetPoWHash env (header (Miner.pblock (Miner.state_of e))))
    <= u256 (Miner.solutionHash (Miner.state_of e));
  sub_hash :
    u256 (Miner.hash (Miner.state_of e)) =
    u256 (Miner.GetPoWHash env (header (Miner.pblock (Miner.state_of e))));
  sub_nonce :
    nNonce (header (Miner.pblock (Miner.state_of e))) = Miner.nNonce (Miner.state_of e);
  sub_node :
    Miner.node (Miner.state_of e) =
    (submit (Miner.pblock (Miner.state_of e)) (Miner.node s)).2;
  sub_script : Miner.KeepScript_called (Miner.state_of e) = true;
  sub_end :
    e = (if MineBlocksOnDemand cc
         then Miner.Throw Miner.thread_interrupted (Miner.state_of e)
         else Miner.Break (Miner.state_of e))
}.

Lemma untouched_refl (s : Miner.Search Chain) : untouched s s.
Proof. split; reflexivity. Qed.

Lemma untouched_trans (s1 s2 s3 : Miner.Search Chain) :
  untouched s1 s2 -> untouched s2 s3 -> untouched s1 s3.
Proof. intros [] []. split; congruence. Qed.

Lemma idle_refl (s : Miner.Search Chain) : idle s s.
Proof. split; [apply untouched_refl | reflexivity..]. Qed.

Lemma idle_trans (s1 s2 s3 : Miner.Search Chain) :
  idle s1 s2 -> idle s2 s3 -> idle s1 s3.
Proof.
  intros [] []. split; [eapply untouched_trans; eassumption | congruence..].
Qed.

Lemma UpdateTime_frame (h : CBlockHeader) (tip : CBlockIndex) (now : Z) :
  nVersion (Miner.UpdateTime env h tip now).1 = nVersion h /\
  hashPrevBlock (Miner.UpdateTime env h tip now).1 = hashPrevBlock h /\
  hashMerkleRoot (Miner.UpdateTime env h tip now).1 = hashMerkleRoot h /\
  nNonce (Miner.UpdateTime env h tip now).1 = nNonce h.
Proof.
  unfold Miner.UpdateTime. cbn zeta.
  destruct (nTime h <? _); destruct (Miner.fPowAllowMinDifficultyBlocks env);
    cbn; auto.
Qed.

Lemma check_rebuild_idle (tip : CBlockIndex) (rd : Miner.Readings)
    (s : Miner.Search Chain) :
  idle s (Miner.state_of (Miner.check_rebuild env Chain tip rd s)) /\
  Miner.nNonce (Miner.state_of (Miner.check_rebuild env Chain tip rd s)) = Miner.nNonce s /\
  Miner.hash (Miner.state_of (Miner.check_rebuild env Chain tip rd s)) = Miner.hash s /\
  (Miner.fPowAllowMinDifficultyBlocks env = false ->
   Miner.solutionHash (Miner.state_of (Miner.check_rebuild env Chain tip rd s))
   = Miner.solutionHash s).
Proof.
  unfold Miner.check_rebuild.
  destruct (UpdateTime_frame (header (Miner.pblock s)) tip (Miner.adjusted_time rd))
    as (Hv & Hp & Hr & Hn).
  destruct (Miner.interruption_requested rd);
    [cbn; split; [apply idle_refl | auto]|].
  destruct (Miner.tip_moved rd);
    [cbn; split; [apply idle_refl | auto]|].
  cbn zeta.
  destruct (_ <? 0); [|destruct (Miner.fPowAllowMinDifficultyBlocks env)];
    cbn; (split; [split; [split|..]; cbn; auto | auto]);
    repeat split; auto; discriminate.
Qed.

(** The scanner run by a turn, and what the turn does with its result. *)
Lemma turn_scans (tip : CBlockIndex) (rd : Miner.Readings) (s : Miner.Search Chain) :
  exists r,
    ScanScryptHash scrypt (header (Miner.pblock s)) (Miner.nNonce s) (Miner.hash s)
      (Miner.solutionHash s) (Miner.hashesScanned s) = Some r /\
    turn tip rd s =
      Some (if ret r then solution_found tip rd (Miner.after_scan Chain s r)
            else Miner.check_rebuild env Chain tip rd (Miner.after_scan Chain s r)).
Proof.
  destruct (ScanScryptHash_total scrypt (header (Miner.pblock s)) (Miner.nNonce s)
              (Miner.hash s) (Miner.solutionHash s) (Miner.hashesScanned s))
    as (r & Hr & _).
  exists r. split; [exact Hr|].
  unfold Miner.CoinMiner_turn. rewrite Hr. destruct (ret r); reflexivity.
Qed.

Lemma after_scan_idle (s : Miner.Search Chain) (r : ScanResult) :
  idle s (Miner.after_scan Chain s r).
Proof. split; [split|..]; reflexivity. Qed.

Lemma solution_found_cases (tip : CBlockIndex) (rd : Miner.Readings)
    (s : Miner.Search Chain) :
  (idle s (Miner.state_of (solution_found tip rd s)) /\
   Miner.solutionHash (Miner.state_of (solution_found tip rd s)) = Miner.solutionHash s /\
   exists s', solution_found tip rd s =
              Miner.Throw (Miner.runtime_error "hash != pblock->GetPoWHash()") s') \/
  (idle s (Miner.state_of (solution_found tip rd s)) /\
   u256 (Miner.solutionHash s) < u256 (Miner.hash s)) \/
  submitted s (solution_found tip rd s).
Proof.
  unfold Miner.solution_found.
  destruct (Z.leb_spec (u256 (Miner.hash s)) (u256 (Miner.solutionHash s))) as [Hle|Hgt].
  - cbv zeta.
    cbn [Miner.pblock Miner.hash Miner.node Miner.nNonce Miner.solutionHash
         Miner.hashesScanned Miner.KeepScript_called].
    match goal with
    | |- context [negb (?a =? ?b)] => destruct (Z.eqb_spec a b) as [Heq|Hne]
    end; cbn [negb].
    + right. right.
      cbn in Heq.
      destruct (MineBlocksOnDemand cc) eqn:Hdemand;
        (split; cbn; rewrite ?Hdemand; try reflexivity;
         [split; reflexivity | lia | exact Heq]).
    + left. cbn. split; [split; [split|..]; reflexivity|].
      split; [reflexivity | eauto].
  - right. left. split; [|exact Hgt].
    eapply idle_trans; [|apply check_rebuild_idle].
    split; [split|..]; reflexivity.
Qed.

Lemma submitted_not_again (s : Miner.Search Chain) (e : Miner.TurnEnd Chain) :
  submitted s e -> forall s', e <> Miner.Again s'.
Proof.
  intros [_ _ _ _ _ _ He] s' Hs. rewrite Hs in He.
  destruct (MineBlocksOnDemand cc); discriminate.
Qed.

Lemma submitted_after_idle (s s' : Miner.Search Chain) (e : Miner.TurnEnd Chain) :
  idle s s' -> submitted s' e -> submitted s e.
Proof.
  intros [Hb Hn _] [Hb' Hw Hh Hnonce Hnode Hscript He].
  split; try assumption.
  - eapply untouched_trans; eassumption.
  - rewrite Hnode, Hn. reflexivity.
Qed.

(** One turn: nothing is submitted, or a block with enough work is. *)
Lemma turn_sound (tip : CBlockIndex) (rd : Miner.Readings) (s : Miner.Search Chain) :
  exists e, turn tip rd s = Some e /\ (idle s (Miner.state_of e) \/ submitted s e).
Proof.
  destruct (turn_scans tip rd s) as (r & _ & Hturn).
  eexists. split; [exact Hturn|].
  pose proof (after_scan_idle s r) as Hscan.
  destruct (ret r).
  - destruct (solution_found_cases tip rd (Miner.after_scan Chain s r))
      as [(Hi & _)|[(Hi & _)|Hsub]].
    + left. eapply idle_trans; eassumption.
    + left. eapply idle_trans; eassumption.
    + right. eapply submitted_after_idle; eassumption.
  - left. eapply idle_trans; [exact Hscan|]. apply check_rebuild_idle.
Qed.

(** Whatever the search reads from outside and for however many turns it
    runs, it leaves the node alone or it has handed one block to
    [ProcessBlockFound]: a block whose proof-of-work hash is at most the
    target, which carries the nonce the scanner reported, and which differs
    from the block the search started with in [nTime], [nBits] and [nNonce]
    only.  The search then ends, by [break] or, when blocks are mined on
    demand, by the interruption exception. *)
Theorem CoinMiner_submits_only_proven_work (pindexPrev : CBlockIndex)
    (rds : list Miner.Readings) (s : Miner.Search Chain) :
  match search pindexPrev rds s with
  | Some e => idle s (Miner.state_of e) \/ submitted s e
  | None => False
  end.
Proof.
  revert s. induction rds as [|rd rds IH]; intros s.
  - cbn. left. apply idle_refl.
  - cbn [Miner.CoinMiner_search].
    destruct (turn_sound pindexPrev rd s) as (e & He & Hcases). rewrite He.
    destruct e as [s'|s'|x s']; try exact Hcases.
    destruct Hcases as [Hidle|Hsub];
      [|exfalso; exact (submitted_not_again _ _ Hsub s' eq_refl)].
    cbn in Hidle. specialize (IH s').
    destruct (search pindexPrev rds s') as [e|]; [|exact IH].
    destruct IH as [Hi|Hs]; [left | right].
    + eapply idle_trans; eassumption.
    + eapply submitted_after_idle; eassumption.
Qed.

(** *** The nonce that is stored *)

Lemma u256_idem (x : Z) : u256 (u256 x) = u256 x.
Proof. unfold u256. apply Z.mod_mod. lia. Qed.

Lemma u32_range (x : Z) : 0 <= u32 x < 2 ^ 32.
Proof. unfold u32. apply Z.mod_pos_bound. lia. Qed.

Section Slip.

(** The proof-of-work hash of a header is its scrypt hash. *)
Hypothesis GetPoWHash_is_scrypt :
  forall h, u256 (Miner.GetPoWHash env h) = u256 (scrypt h).

(** No header has the same hash at two nonces that follow each other. *)
Hypothesis next_nonce_differs :
  forall h n, 0 <= n < 2 ^ 32 ->
              u256 (scrypt (set_nNonce h (u32 (n + 1)))) <> u256 (scrypt (set_nNonce h n)).

Lemma scan_in_range (s : Miner.Search Chain) (r : ScanResult) :
  0 <= Miner.nNonce s < 2 ^ 32 ->
  ScanScryptHash scrypt (header (Miner.pblock s)) (Miner.nNonce s) (Miner.hash s)
    (Miner.solutionHash s) (Miner.hashesScanned s) = Some r ->
  0 <= out_nNonce r < 2 ^ 32.
Proof.
  intros Hn Hr.
  destruct (ScanScryptHash_total scrypt (header (Miner.pblock s)) (Miner.nNonce s)
              (Miner.hash s) (Miner.solutionHash s) (Miner.hashesScanned s))
    as (r' & Hr' & Hnz & Hz).
  rewrite Hr in Hr'. injection Hr' as <-.
  destruct (Z.eq_dec (byte_at (u256 (Miner.solutionHash s)) 31) 0) as [E|E].
  - destruct (Hz E) as [(k & _ & _ & _ & Hk & _) _ _ _]. rewrite Hk. apply u32_range.
  - rewrite (Hnz E). exact Hn.
Qed.

(** After a scan the stored hash is not the hash at the reported nonce. *)
Lemma scanned_hash_is_stale (s : Miner.Search Chain) (r : ScanResult) :
  0 <= Miner.nNonce s < 2 ^ 32 ->
  byte_at (u256 (Miner.solutionHash s)) 31 = 0 ->
  ScanScryptHash scrypt (header (Miner.pblock s)) (Miner.nNonce s) (Miner.hash s)
    (Miner.solutionHash s) (Miner.hashesScanned s) = Some r ->
  u256 (out_phash r) <>
  u256 (Miner.GetPoWHash env (set_nNonce (header (Miner.pblock s)) (out_nNonce r))).
Proof.
  intros Hn Hz Hr. pose proof (scan_in_range s r Hn Hr) as Hout.
  unfold ScanScryptHash in Hr.
  destruct (Nat.eqb (firstLEZeroByte (u256 (Miner.solutionHash s))) 32) eqn:Hf.
  { apply Nat.eqb_eq, firstLEZeroByte_32 in Hf. contradiction. }
  apply scan_loop_last_nonce in Hr; [|exact Hn].
  rewrite Hr, u256_idem, GetPoWHash_is_scrypt.
  set (m := u32 (out_nNonce r - 1)).
  assert (Hm : 0 <= m < 2 ^ 32) by apply u32_range.
  assert (Hback : out_nNonce r = u32 (m + 1)).
  { unfold m, u32. rewrite Zplus_mod_idemp_l.
    replace (out_nNonce r - 1 + 1) with (out_nNonce r) by lia.
    symmetry. apply Z.mod_small. exact Hout. }
  rewrite Hback. intros Heq. exact (next_nonce_differs _ m Hm (eq_sym Heq)).
Qed.

(** One turn: a hash that meets the target is answered by the exception. *)
Lemma turn_slip (tip : CBlockIndex) (rd : Miner.Readings) (s : Miner.Search Chain) :
  0 <= Miner.nNonce s < 2 ^ 32 ->
  byte_at (u256 (Miner.solutionHash s)) 31 = 0 ->
  exists r e,
    ScanScryptHash scrypt (header (Miner.pblock s)) (Miner.nNonce s) (Miner.hash s)
      (Miner.solutionHash s) (Miner.hashesScanned s) = Some r /\
    turn tip rd s = Some e /\
    idle s (Miner.state_of e) /\
    0 <= Miner.nNonce (Miner.state_of e) < 2 ^ 32 /\
    (Miner.fPowAllowMinDifficultyBlocks env = false ->
     Miner.solutionHash (Miner.state_of e) = Miner.solutionHash s) /\
    (ret r = true -> u256 (out_phash r) <= u256 (Miner.solutionHash s) ->
     e = Miner.Throw (Miner.runtime_error "hash != pblock->GetPoWHash()")
           {| Miner.pblock :=
                Miner.set_header (Miner.pblock s)
                  (set_nNonce (header (Miner.pblock s)) (out_nNonce r));
              Miner.nNonce := out_nNonce r;
              Miner.hash := out_phash r;
              Miner.hashesScanned := out_hashesScanned r;
              Miner.solutionHash := Miner.solutionHash s;
              Miner.node := Miner.node s;
              Miner.KeepScript_called := Miner.KeepScript_called s |}).
Proof.
  intros Hn Hz.
  destruct (turn_scans tip rd s) as (r & Hr & Hturn).
  pose proof (scan_in_range s r Hn Hr) as Hout.
  pose proof (scanned_hash_is_stale s r Hn Hz Hr) as Hstale.
  exists r. eexists. split; [exact Hr|]. split; [exact Hturn|].
  destruct (ret r) eqn:Hret.
  - unfold Miner.solution_found. cbv zeta.
    cbn [Miner.after_scan Miner.pblock Miner.hash Miner.node Miner.nNonce
         Miner.solutionHash Miner.hashesScanned Miner.KeepScript_called
         Miner.set_header header].
    destruct (Z.leb_spec (u256 (out_phash r)) (u256 (Miner.solutionHash s))) as [Hle|Hgt].
    + destruct (Z.eqb_spec (u256 (out_phash r))
                  (u256 (Miner.GetPoWHash env
                           (set_nNonce (header (Miner.pblock s)) (out_nNonce r)))))
        as [Heq|_]; [contradiction|].
      cbn. split; [split; [split|..]; reflexivity|].
      split; [exact Hout|]. split; [reflexivity|]. reflexivity.
    + match goal with
      | |- context [Miner.check_rebuild env Chain tip rd ?s1] =>
          destruct (check_rebuild_idle tip rd s1) as (Hi & Hnn & _ & Hsol)
      end.
      split; [eapply idle_trans; [|exact Hi]; split; [split|..]; reflexivity|].
      split; [rewrite Hnn; cbn; apply u32_range|].
      split; [exact Hsol|]. intros _ Hle. lia.
  - destruct (check_rebuild_idle tip rd (Miner.after_scan Chain s r))
      as (Hi & Hnn & _ & Hsol).
    split; [eapply idle_trans; [apply after_scan_idle | exact Hi]|].
    split; [rewrite Hnn; exact Hout|].
    split; [exact Hsol|]. intros [=].
Qed.

(** The scanner leaves in [nNonce] the nonce after the one it hashed, and
    that is the nonce [CoinMiner] stores in the block before it compares the
    hash of the block with the hash found.  So, with a target whose top
    byte is zero, a turn in which the scanner finds a hash that meets the
    target ends with the exception [hash != pblock->GetPoWHash()]; the node
    has seen nothing and [KeepScript()] was not called. *)
Theorem CoinMiner_turn_throws_on_scanned_solution (pindexPrev : CBlockIndex)
    (rd : Miner.Readings) (s : Miner.Search Chain) (r : ScanResult) :
  0 <= Miner.nNonce s < 2 ^ 32 ->
  byte_at (u256 (Miner.solutionHash s)) 31 = 0 ->
  ScanScryptHash scrypt (header (Miner.pblock s)) (Miner.nNonce s) (Miner.hash s)
    (Miner.solutionHash s) (Miner.hashesScanned s) = Some r ->
  ret r = true ->
  u256 (out_phash r) <= u256 (Miner.solutionHash s) ->
  turn pindexPrev rd s =
    Some (Miner.Throw (Miner.runtime_error "hash != pblock->GetPoWHash()")
            {| Miner.pblock :=
                 Miner.set_header (Miner.pblock s)
                   (set_nNonce (header (Miner.pblock s)) (out_nNonce r));
               Miner.nNonce := out_nNonce r;
               Miner.hash := out_phash r;
               Miner.hashesScanned := out_hashesScanned r;
               Miner.solutionHash := Miner.solutionHash s;
               Miner.node := Miner.node s;
               Miner.KeepScript_called := Miner.KeepScript_called s |}).
Proof.
  intros Hn Hz Hr Hret Hle.
  destruct (turn_slip pindexPrev rd s Hn Hz) as (r' & e & Hr' & Hturn & _ & _ & _ & He).
  rewrite Hr in Hr'. injection Hr' as <-.
  rewrite Hturn, (He Hret Hle). reflexivity.
Qed.

(** With a target that stays the same and whose top byte is zero, the
    search never hands a block to [ProcessBlockFound], whatever it reads
    and however long it runs. *)
Theorem CoinMiner_search_never_submits (pindexPrev : CBlockIndex)
    (rds : list Miner.Readings) (s : Miner.Search Chain) :
  Miner.fPowAllowMinDifficultyBlocks env = false ->
  0 <= Miner.nNonce s < 2 ^ 32 ->
  byte_at (u256 (Miner.solutionHash s)) 31 = 0 ->
  match search pindexPrev rds s with
  | Some e =>
      Miner.node (Miner.state_of e) = Miner.node s /\
      Miner.KeepScript_called (Miner.state_of e) = Miner.KeepScript_called s
  | None => False
  end.
Proof.
  intros Hfix. revert s. induction rds as [|rd rds IH]; intros s Hn Hz.
  - cbn. split; reflexivity.
  - cbn [Miner.CoinMiner_search].
    destruct (turn_slip pindexPrev rd s Hn Hz)
      as (r & e & _ & Hturn & [_ Hnode Hscript] & Hn' & Hsol & _).
    rewrite Hturn. specialize (Hsol Hfix).
    destruct e as [s'|s'|x s']; try (split; assumption).
    cbn in Hnode, Hscript, Hn', Hsol.
    assert (Hz' : byte_at (u256 (Miner.solutionHash s')) 31 = 0)
      by (rewrite Hsol; exact Hz).
    specialize (IH s' Hn' Hz').
    destruct (search pindexPrev rds s') as [e|]; [|exact IH].
    destruct IH as [H1 H2]. split; congruence.
Qed.

End Slip.

End SearchProofs.

(** ** More about the selection loop *)

Section AssemblerMore.

Import Assembler.

Variable cc : Collaborators.
Variable mempool : CTxMemPool.

Local Abbreviation E := (entry mempool).
Local Abbreviation anc := (CalculateMemPoolAncestors mempool).
Local Abbreviation desc := (CalculateDescendants mempool).

(** What a pass that changes the assembler has done: it has committed the
    package of a candidate that is not in the block, whose fees reach the
    floor and which passed both tests. *)
Record commits (st st' : PackageLoop) (c : Candidate) : Prop := {
  cm_source : candidate_source mempool st c;
  cm_pool : iter c ∈ pool mempool;
  cm_new : iter c ∉ inBlock (asm st);
  cm_fee : FeeRate_GetFee cc (blockMinFeeRate (asm st)) (packageSize c) <= packageFees c;
  cm_budget : TestPackage cc (asm st) (packageSize c) (packageSigOpsCost c) = true;
  cm_checked :
    TestPackageTransactions cc mempool (asm st)
      (package_of mempool (asm st) (iter c)) = true;
  cm_state :
    st' = commit mempool (set_mi st (mi_next c)) (package_of mempool (asm st) (iter c))
}.

Lemma iteration_commits (st st' : PackageLoop) :
  Inv_struct mempool st ->
  iteration cc mempool st = Continue st' \/ iteration cc mempool st = Stop st' ->
  asm st' = asm st \/ exists c, commits st st' c.
Proof.
  intros HI. pose proof (iteration_pass cc mempool st) as Hp.
  remember (iteration cc mempool st) as o eqn:Ho. intros Hit.
  destruct Hp as [Hcond|it rest Hmi Hskip|c Hc Hfrom].
  - destruct Hit as [Hit|Hit]; [discriminate|]. injection Hit as <-. left. reflexivity.
  - destruct Hit as [Hit|Hit]; [|discriminate]. injection Hit as <-. left. reflexivity.
  - pose proof (choose_source cc mempool st c Hc) as Hsrc.
    pose proof (pass_candidate_fresh mempool st c HI Hfrom) as Hnew.
    unfold consider in Hit. cbn [asm set_mi] in Hit.
    rewrite bool_decide_eq_false_2 in Hit by exact Hnew.
    destruct (Z.ltb_spec (packageFees c)
                (FeeRate_GetFee cc (blockMinFeeRate (asm st)) (packageSize c)))
      as [Hlow|Hfee].
    + destruct Hit as [Hit|Hit]; [discriminate|]. injection Hit as <-. left. reflexivity.
    + destruct (try_package_cases cc mempool (set_mi st (mi_next c)) c)
        as [(Ht & Hf & Hc')|(st2 & Hc' & Ha)].
      * right. exists c. rewrite Hc' in Hit.
        destruct Hit as [Hit|Hit]; [|discriminate]. injection Hit as <-.
        split; try assumption; try reflexivity.
        eapply candidate_in_pool; eassumption.
      * left. destruct Hc' as [Hc'|Hc']; rewrite Hc' in Hit;
          destruct Hit as [Hit|Hit]; try discriminate;
          injection Hit as <-; exact Ha.
Qed.

(** Induction over the loop: a property of the assembler that every commit
    keeps holds when the loop is over. *)
Lemma run_commits (K : PackageLoop -> Prop) (J : BlockAssembler -> Prop) :
  (forall st, K st -> Inv_struct mempool st) ->
  (forall st, K st ->
     match iteration cc mempool st with
     | Continue st' | Stop st' => K st'
     | AssertFailed => True
     end) ->
  (forall st st' c, K st -> J (asm st) -> commits st st' c -> J (asm st')) ->
  forall fuel st st',
    K st -> J (asm st) -> run cc mempool fuel st = Finished st' -> J (asm st').
Proof.
  intros HKI HK Hstep. induction fuel as [|fuel IH]; intros st st' Hk Hj; [discriminate|].
  cbn [run]. pose proof (HK st Hk) as Hk'.
  assert (Hnext : forall st1,
             iteration cc mempool st = Continue st1 \/ iteration cc mempool st = Stop st1 ->
             J (asm st1)).
  { intros st1 Hit.
    destruct (iteration_commits st st1 (HKI st Hk) Hit) as [->|(c & Hc)];
      [exact Hj | eapply Hstep; eassumption]. }
  destruct (iteration cc mempool st) as [st1|st1|].
  - intros Hrun. eapply IH; [exact Hk' | apply Hnext; left; reflexivity | exact Hrun].
  - intros [= <-]. apply Hnext. right. reflexivity.
  - discriminate.
Qed.

(** *** Only checked transactions are taken *)

(** The checks of [TestPackageTransactions] on one transaction, for the
    height, the lock-time cutoff and the witness flag of the assembler. *)
Definition tx_checked (a : BlockAssembler) (x : nat) : Prop :=
  IsFinalTx cc x (nHeight a) (nLockTimeCutoff a) = true /\
  (fIncludeWitness a = false -> HasWitness (E x) = false).

Lemma TestPackageTransactions_checked (a : BlockAssembler) (P : gset nat) :
  TestPackageTransactions cc mempool a P = true ->
  forall x, x ∈ P -> tx_checked a x.
Proof.
  unfold TestPackageTransactions. rewrite forallb_forall. intros H x Hx.
  specialize (H x). rewrite <- list_elem_of_In, elem_of_elements in H.
  specialize (H Hx). unfold tx_checked.
  destruct (IsFinalTx cc x (nHeight a) (nLockTimeCutoff a)); [|discriminate].
  split; [reflexivity|]. intros Hw. rewrite Hw in H. cbn in H.
  destruct (HasWitness (E x)); [discriminate | reflexivity].
Qed.

Lemma tx_checked_settings (a b : BlockAssembler) (x : nat) :
  same_settings a b -> tx_checked a x -> tx_checked b x.
Proof.
  intros (_ & _ & Hw & Hh & Hc & _) [Hf Hwit]. unfold tx_checked.
  rewrite Hw, Hh, Hc. split; assumption.
Qed.

Lemma commit_checked (st st' : PackageLoop) (c : Candidate) :
  (forall x, x ∈ inBlock (asm st) -> tx_checked (asm st) x) ->
  commits st st' c ->
  forall x, x ∈ inBlock (asm st') -> tx_checked (asm st') x.
Proof.
  intros Hold [_ _ _ _ _ Hchk ->] x.
  rewrite commit_inBlock_eq, commit_asm_eq. cbn [asm set_mi]. intros Hx.
  eapply tx_checked_settings; [apply AddToBlock_all_settings|].
  apply elem_of_union in Hx as [Hx|Hx]; [apply Hold, Hx|].
  eapply TestPackageTransactions_checked; eassumption.
Qed.

(** Every transaction of the template is an entry of the snapshot that is
    final at the height of the new block and the lock-time cutoff chosen at
    line 144, and it carries no witness unless witnesses are included. *)
Theorem selection_takes_checked_entries_only (a : BlockAssembler)
    (pindexPrev : CBlockIndex) (now : Z) (fMineWitnessTx : bool) :
  mempool_structure mempool ->
  exists st,
    CreateNewBlock_select cc mempool a pindexPrev now fMineWitnessTx = Finished st /\
    forall i x,
      vtx (asm st) !! i = Some (PoolTx x) ->
      x ∈ pool mempool /\
      IsFinalTx cc x (nHeight_tip pindexPrev + 1)
        (if locktime_median_time_past cc then GetMedianTimePast pindexPrev else u32 now)
      = true /\
      (IsWitnessEnabled cc pindexPrev && fMineWitnessTx = false ->
       HasWitness (E x) = false).
Proof.
  intros Hstr.
  destruct (select_finishes cc mempool Hstr a pindexPrev now fMineWitnessTx)
    as (st & Hrun & HI).
  exists st. split; [exact Hrun|].
  set (a0 := CreateNewBlock_prelude cc a pindexPrev now fMineWitnessTx) in *.
  assert (Hall : forall x, x ∈ inBlock (asm st) -> tx_checked (asm st) x).
  { apply (run_commits (Inv_struct mempool)
             (fun b => forall x, x ∈ inBlock b -> tx_checked b x))
      with (fuel := enough_fuel mempool) (st := addPackageTxs_init mempool a0).
    - auto.
    - intros st0 HI0. pose proof (iteration_struct cc mempool Hstr st0 HI0) as Hk.
      destruct (iteration cc mempool st0); cbn in Hk; tauto.
    - intros st0 st1 c _ Hold Hc. eapply commit_checked; eassumption.
    - apply Inv_struct_init.
    - cbn [asm addPackageTxs_init]. unfold a0. rewrite prelude_inBlock.
      intros x Hx. set_solver.
    - exact Hrun. }
  pose proof (run_settings cc mempool _ _ _ Hrun) as (_ & _ & Hw & Hh & Hc & _).
  cbn in Hw, Hh, Hc.
  intros i x Hx. destruct (inv_template mempool st HI) as [l Hl].
  assert (Hin : x ∈ inBlock (asm st)).
  { rewrite (tpl_inBlock mempool _ _ Hl). apply in_list_to_set.
    rewrite (tpl_vtx mempool _ _ Hl) in Hx. destruct i as [|i]; [discriminate|].
    change ((PoolTx <$> l) !! i = Some (PoolTx x)) in Hx.
    apply list_lookup_fmap_Some in Hx as (z & [= <-] & Hz).
    eapply list_elem_of_lookup_2. exact Hz. }
  destruct (Hall x Hin) as [Hfinal Hwit]. rewrite Hw, Hh, Hc in *.
  split; [apply (inv_inBlock_pool mempool st HI), Hin|]. split; assumption.
Qed.

(** *** The counters of the assembler *)

Lemma AddToBlock_all_nBlockTx (a : BlockAssembler) (l : list nat) :
  0 <= nBlockTx a -> nBlockTx a + Z.of_nat (length l) < 2 ^ 64 ->
  nBlockTx (foldl (AddToBlock mempool) a l) = nBlockTx a + Z.of_nat (length l).
Proof.
  revert a. induction l as [|x l IH]; intros a H0 Hlt.
  - cbn. lia.
  - cbn [foldl length] in *.
    assert (Hstep : nBlockTx (AddToBlock mempool a x) = nBlockTx a + 1).
    { change (nBlockTx (AddToBlock mempool a x)) with (u64 (nBlockTx a + 1)).
      apply u64_small. lia. }
    rewrite IH; rewrite ?Hstep; lia.
Qed.

(** The counters say what the template holds, and once something is in
    the block they are strictly below the limits. *)
Record counters_exact (a : BlockAssembler) (l : list nat) : Prop := {
  cnt_tx : nBlockTx a = Z.of_nat (length l);
  cnt_weight : nBlockWeight a = 4000 + sumZ (weight_of mempool <$> l);
  cnt_sigops : nBlockSigOpsCost a = 400 + sumZ (sigops_of mempool <$> l);
  cnt_strict : l <> [] ->
               nBlockWeight a < nBlockMaxWeight a /\
               nBlockSigOpsCost a < MAX_BLOCK_SIGOPS_COST cc
}.

Lemma template_length (a : BlockAssembler) (l : list nat) :
  mempool_structure mempool ->
  template_of mempool a l -> inBlock a ⊆ pool mempool ->
  (length l <= length (mapTx_ancestor_score mempool))%nat.
Proof.
  intros Hstr Hl Hsub. rewrite <- (size_pool mempool Hstr).
  rewrite <- (size_list_to_set (C := gset nat) l) by apply (tpl_nodup mempool _ _ Hl).
  rewrite <- (tpl_inBlock mempool _ _ Hl). apply subseteq_size, Hsub.
Qed.

Lemma commit_counters (st st' : PackageLoop) (c : Candidate) :
  mempool_structure mempool -> mempool_aggregates mempool -> limits_ok cc ->
  Z.of_nat (length (mapTx_ancestor_score mempool)) < 2 ^ 64 ->
  Inv_struct mempool st -> Inv_budget cc mempool st ->
  (exists l, template_of mempool (asm st) l /\ counters_exact (asm st) l) ->
  commits st st' c ->
  exists l, template_of mempool (asm st') l /\ counters_exact (asm st') l.
Proof.
  intros Hstr Hagg Hlim Hsmall HI HB (l & Hl & [Htx Hw Hs _]) [Hsrc Hp Hnew _ Htest _ ->].
  set (S := SortForBlock mempool (package_of mempool (asm st) (iter c))).
  exists (l ++ S). rewrite commit_asm_eq. cbn [asm set_mi]. fold S.
  pose proof (commit_template mempool Hstr st (iter c) HI Hp Hnew l Hl) as Hl'.
  fold S in Hl'. split; [exact Hl'|].
  destruct (candidate_bounds cc mempool Hstr Hagg st c HI HB Hsrc) as [Hsz Hsg].
  destruct (TestPackage_true cc (asm st) (packageSize c) (packageSigOpsCost c) Hlim
              (inv_weight cc mempool st HB) (proj2 (inv_max_weight cc mempool st HB))
              (inv_sigops cc mempool st HB))
    as [Hfw Hfs]; [| |exact Htest|].
  { pose proof (remaining_size_nonneg mempool Hstr Hagg (iter c) (inBlock (asm st)) Hp). lia. }
  { pose proof (remaining_sigops_nonneg mempool Hstr Hagg (iter c) (inBlock (asm st)) Hp). lia. }
  pose proof (inv_weight cc mempool st HB) as Hw0.
  pose proof (inv_sigops cc mempool st HB) as Hs0.
  pose proof (inv_max_weight cc mempool st HB) as Hm.
  pose proof Hlim as Hlimits. unfold limits_ok in Hlimits.
  pose proof (package_weight mempool Hstr Hagg st (iter c) Hp Hnew) as Hpw.
  pose proof (package_sigops mempool st (iter c) Hnew) as Hps.
  fold S in Hpw, Hps. unfold WITNESS_SCALE_FACTOR in *.
  assert (HSp : forall x, x ∈ S -> x ∈ pool mempool).
  { intros x Hx. apply (package_pool mempool Hstr st (iter c) Hp Hnew).
    apply (proj1 (SortForBlock_elem mempool _ x)), Hx. }
  assert (Hwn : 0 <= sumZ (weight_of mempool <$> S)).
  { apply sumZ_nonneg. intros x Hx. apply weight_of_nonneg, HSp, Hx; assumption. }
  assert (Hsn : 0 <= sumZ (sigops_of mempool <$> S)).
  { apply sumZ_nonneg. intros x Hx. apply sigops_of_nonneg, HSp, Hx; assumption. }
  assert (Hlen : (length (l ++ S) <= length (mapTx_ancestor_score mempool))%nat).
  { eapply template_length; [exact Hstr | exact Hl' |].
    rewrite AddToBlock_all_inBlock.
    pose proof (inv_inBlock_pool mempool st HI) as Hsub.
    intros x [Hx|Hx]%elem_of_union; [apply Hsub, Hx|].
    apply HSp, in_list_to_set, Hx. }
  rewrite length_app in Hlen.
  destruct (AddToBlock_all_settings mempool (asm st) S) as (Hmax & _).
  split.
  - rewrite AddToBlock_all_nBlockTx by lia. rewrite length_app. lia.
  - rewrite AddToBlock_all_nBlockWeight; [|lia| |lia].
    + rewrite fmap_app, sumZ_app. lia.
    + intros x Hx. apply weight_of_nonneg, HSp, Hx; assumption.
  - rewrite AddToBlock_all_nBlockSigOpsCost; [|lia| |lia].
    + rewrite fmap_app, sumZ_app. lia.
    + intros x Hx. apply sigops_of_nonneg, HSp, Hx; assumption.
  - intros _. rewrite Hmax.
    rewrite AddToBlock_all_nBlockWeight; [|lia| |lia].
    + rewrite AddToBlock_all_nBlockSigOpsCost; [lia|lia| |lia].
      intros x Hx. apply sigops_of_nonneg, HSp, Hx; assumption.
    + intros x Hx. apply weight_of_nonneg, HSp, Hx; assumption.
Qed.

(** When the selection is over the counters of the assembler are exact:
    [nBlockTx] counts the transactions taken, [nBlockWeight] is their
    weight on top of the 4000 reserved for the coinbase, [nBlockSigOpsCost]
    their sig-op cost on top of the 400 reserved, and the three vectors of
    the template run in parallel.  As soon as one transaction is in the
    block, weight and sig-op cost are strictly below their limits: a
    package that would exactly fill the block is refused. *)
Theorem selection_counters_are_exact (a : BlockAssembler)
    (pindexPrev : CBlockIndex) (now : Z) (fMineWitnessTx : bool) :
  mempool_structure mempool -> mempool_aggregates mempool -> limits_ok cc ->
  4000 <= nBlockMaxWeight a < 2 ^ 32 ->
  Z.of_nat (length (mapTx_ancestor_score mempool)) < 2 ^ 64 ->
  exists st l,
    CreateNewBlock_select cc mempool a pindexPrev now fMineWitnessTx = Finished st /\
    vtx (asm st) = NullTx :: (PoolTx <$> l) /\
    vTxFees (asm st) = -1 :: (fee_of mempool <$> l) /\
    vTxSigOpsCost (asm st) = -1 :: (sigops_of mempool <$> l) /\
    nBlockTx (asm st) = Z.of_nat (length l) /\
    nBlockWeight (asm st) = 4000 + sumZ (weight_of mempool <$> l) /\
    nBlockSigOpsCost (asm st) = 400 + sumZ (sigops_of mempool <$> l) /\
    (l <> [] ->
     nBlockWeight (asm st) < nBlockMaxWeight (asm st) /\
     nBlockSigOpsCost (asm st) < MAX_BLOCK_SIGOPS_COST cc).
Proof.
  intros Hstr Hagg Hlim Hmax Hsmall.
  destruct (select_finishes cc mempool Hstr a pindexPrev now fMineWitnessTx)
    as (st & Hrun & HI).
  set (a0 := CreateNewBlock_prelude cc a pindexPrev now fMineWitnessTx) in *.
  assert (Hall : exists l, template_of mempool (asm st) l /\ counters_exact (asm st) l).
  { apply (run_commits
             (fun st => Inv_struct mempool st /\ Inv_budget cc mempool st)
             (fun b => exists l, template_of mempool b l /\ counters_exact b l))
      with (fuel := enough_fuel mempool) (st := addPackageTxs_init mempool a0).
    - tauto.
    - intros st0 [HI0 HB0].
      pose proof (iteration_struct cc mempool Hstr st0 HI0) as Hk.
      pose proof (iteration_budget cc mempool Hstr Hagg Hlim st0 HI0 HB0) as Hb.
      destruct (iteration cc mempool st0); cbn in Hk; tauto.
    - intros st0 st1 c [HI0 HB0] Hold Hc. eapply commit_counters; eassumption.
    - split; [apply Inv_struct_init | apply Inv_budget_init; assumption].
    - destruct (inv_template mempool _ (Inv_struct_init cc mempool a pindexPrev now
                                          fMineWitnessTx)) as [l Hl].
      exists l. split; [exact Hl|].
      pose proof (tpl_vtx mempool _ _ Hl) as Hv. cbn in Hv.
      destruct l as [|x l]; [|discriminate].
      split; try reflexivity. intros Hne. contradiction.
    - exact Hrun. }
  destruct Hall as (l & Hl & [Htx Hw Hs Hstrict]).
  exists st, l. split; [exact Hrun|].
  destruct Hl as [Hv Hf Hso _ _ _ _]. auto 10.
Qed.

(** *** An empty mempool *)

(** With no entry in the mempool [CreateNewBlock] returns the coinbase
    alone: it pays the subsidy of the new height and nothing else, there are
    no fees, and the counters stand at what is reserved for the coinbase. *)
Theorem CreateNewBlock_on_an_empty_mempool (a : BlockAssembler)
    (pindexPrev : CBlockIndex) (now : Z) (scriptPubKeyIn : list ScriptElem)
    (fMineWitnessTx : bool) :
  mapTx_ancestor_score mempool = [] ->
  exists a',
    CreateNewBlock cc mempool a pindexPrev now scriptPubKeyIn fMineWitnessTx = Some a' /\
    vtx a' =
      [CoinbaseTx {| vin0_prevout_null := true;
                     vin0_scriptSig := [PushNum (nHeight_tip pindexPrev + 1); OP_0];
                     vout0_scriptPubKey := scriptPubKeyIn;
                     vout0_nValue := GetBlockSubsidy cc (nHeight_tip pindexPrev + 1) |}] /\
    vTxFees a' = [0] /\ vTxSigOpsCost a' = [-1] /\
    nFees a' = 0 /\ nBlockTx a' = 0 /\ nBlockWeight a' = 4000 /\
    nBlockSigOpsCost a' = 400 /\ inBlock a' = ∅.
Proof.
  intros Hempty. eexists.
  unfold CreateNewBlock, CreateNewBlock_select, addPackageTxs, enough_fuel.
  rewrite Hempty. cbn [length Nat.add Nat.mul run].
  unfold iteration, loop_condition, addPackageTxs_init.
  cbn [mi mapModifiedTx asm]. rewrite Hempty.
  rewrite prelude_inBlock, UpdatePackagesForAdded_empty. cbn [snd].
  rewrite bool_decide_eq_true_2 by reflexivity. cbn [negb].
  split; [reflexivity|]. cbn. repeat split; reflexivity.
Qed.

(** *** What [UpdatePackagesForAdded] touches *)

Lemma size_difference_filter (X P : gset nat) :
  size (X ∖ P) = length (filter (fun d => d ∉ P) (elements X)).
Proof.
  change (size (X ∖ P)) with (length (elements (X ∖ P))).
  apply Permutation_length, NoDup_Permutation.
  - apply NoDup_elements.
  - apply NoDup_filter, NoDup_elements.
  - intros d. rewrite elem_of_elements, list_elem_of_filter, elem_of_elements.
    set_solver.
Qed.

Lemma update_descendants_fst (P : gset nat) (x : nat) (l : list nat) :
  forall (n : Z) (M : gmap nat CTxMemPoolModifiedEntry),
    (foldl (update_descendant mempool P x) (n, M) l).1 =
    n + Z.of_nat (length (filter (fun d => d ∉ P) l)).
Proof.
  induction l as [|d l IH]; intros n M; [cbn; lia|].
  cbn [foldl]. rewrite update_descendant_eq. cbn [fst snd].
  rewrite filter_cons. destruct (decide (d ∈ P)) as [Hd|Hd].
  - rewrite decide_False by (intros H; exact (H Hd)). apply IH.
  - rewrite decide_True by exact Hd. rewrite IH. cbn [length]. lia.
Qed.

Lemma UpdatePackagesForAdded_fst_list (P : gset nat) (l : list nat) :
  forall (n : Z) (M : gmap nat CTxMemPoolModifiedEntry),
    (foldl (fun acc it =>
              foldl (update_descendant mempool P it) acc (elements (desc it)))
           (n, M) l).1 =
    n + sumZ ((fun x => Z.of_nat (size (desc x ∖ P))) <$> l).
Proof.
  induction l as [|x l IH]; intros n M; [cbn; lia|].
  cbn [foldl]. rewrite fmap_cons. cbn [sumZ].
  destruct (foldl (update_descendant mempool P x) (n, M) (elements (desc x)))
    as [n' M'] eqn:Hx.
  rewrite IH. pose proof (update_descendants_fst P x (elements (desc x)) n M) as H1.
  rewrite Hx in H1. cbn in H1. rewrite H1, size_difference_filter. lia.
Qed.

Lemma descendants_updated_all (P : gset nat) (l : list nat) (d : nat) :
  forall M : gmap nat CTxMemPoolModifiedEntry,
    (d ∈ P \/ (forall x, x ∈ l -> d ∉ desc x) ->
     foldl (fun M x => descendants_updated mempool P x M) M l !! d = M !! d) /\
    (is_Some (M !! d) \/ (d ∉ P /\ exists x, x ∈ l /\ d ∈ desc x) ->
     is_Some (foldl (fun M x => descendants_updated mempool P x M) M l !! d)).
Proof.
  induction l as [|x l IH]; intros M.
  - cbn. split; [reflexivity|]. intros [H|(_ & y & Hy & _)]; [exact H|].
    apply elem_of_nil in Hy. contradiction.
  - cbn [foldl]. destruct (IH (descendants_updated mempool P x M)) as [IH1 IH2].
    split.
    + intros Hd. rewrite IH1.
      * rewrite descendants_updated_lookup. apply decide_False.
        intros [H1 H2]. destruct Hd as [Hd|Hd]; [exact (H2 Hd)|].
        apply (Hd x); [left | exact H1].
      * destruct Hd as [Hd|Hd]; [left; exact Hd|].
        right. intros y Hy. apply Hd. right. exact Hy.
    + intros Hd. apply IH2.
      destruct (decide (d ∈ desc x /\ d ∉ P)) as [Hnow|Hnot].
      * left. rewrite descendants_updated_lookup, decide_True by exact Hnow. eauto.
      * destruct Hd as [Hd|(HdP & y & Hy & Hdy)].
        -- left. rewrite descendants_updated_lookup, decide_False by exact Hnot.
           exact Hd.
        -- apply elem_of_cons in Hy as [->|Hy]; [exfalso; apply Hnot; auto|].
           right. eauto.
Qed.

(** [UpdatePackagesForAdded] works on the descendants of the added
    transactions that are not added themselves, and on nothing else.  The
    number it returns counts these descendants, once for each added
    ancestor; every one of them has an entry in the overlay afterwards; an
    entry of the overlay is never removed; and the entry of any other
    transaction, or the absence of one, is left as it was. *)
Theorem UpdatePackagesForAdded_touches_descendants_only (alreadyAdded : gset nat)
    (mapModifiedTx : gmap nat CTxMemPoolModifiedEntry) :
  let r := UpdatePackagesForAdded mempool alreadyAdded mapModifiedTx in
  r.1 = sum_over (fun x => Z.of_nat (size (desc x ∖ alreadyAdded))) alreadyAdded /\
  (forall x d, x ∈ alreadyAdded -> d ∈ desc x -> d ∉ alreadyAdded ->
               is_Some (r.2 !! d)) /\
  (forall d, is_Some (mapModifiedTx !! d) -> is_Some (r.2 !! d)) /\
  (forall d, d ∈ alreadyAdded \/ (forall x, x ∈ alreadyAdded -> d ∉ desc x) ->
             r.2 !! d = mapModifiedTx !! d).
Proof.
  intros r. subst r. split.
  { unfold UpdatePackagesForAdded. rewrite UpdatePackagesForAdded_fst_list.
    unfold sum_over. lia. }
  rewrite UpdatePackagesForAdded_snd.
  split; [|split].
  - intros x d Hx Hd HdP.
    apply (descendants_updated_all alreadyAdded (elements alreadyAdded) d mapModifiedTx).
    right. split; [exact HdP|]. exists x. split; [apply elem_of_elements, Hx | exact Hd].
  - intros d Hd.
    apply (descendants_updated_all alreadyAdded (elements alreadyAdded) d mapModifiedTx).
    left. exact Hd.
  - intros d Hd.
    apply (descendants_updated_all alreadyAdded (elements alreadyAdded) d mapModifiedTx).
    destruct Hd as [Hd|Hd]; [left; exact Hd|].
    right. intros x Hx. apply Hd, elem_of_elements, Hx.
Qed.

(** *** The order inside a package *)

(** [SortForBlock] returns the entries of the package, each of them once,
    by ancestor count; so, in a snapshot whose ancestor counts are
    consistent, an entry of the package comes after each of its ancestors
    that is in the package too. *)
Theorem SortForBlock_puts_ancestors_first (package : gset nat) :
  mempool_structure mempool -> package ⊆ pool mempool ->
  SortForBlock mempool package ≡ₚ elements package /\
  NoDup (SortForBlock mempool package) /\
  (forall i j x y,
     (i < j)%nat ->
     SortForBlock mempool package !! i = Some x ->
     SortForBlock mempool package !! j = Some y ->
     count_of mempool x <= count_of mempool y) /\
  (forall i j x y,
     SortForBlock mempool package !! i = Some x ->
     SortForBlock mempool package !! j = Some y ->
     y ∈ anc x -> (j < i)%nat).
Proof.
  intros Hstr Hsub.
  assert (Hord : forall i j x y,
             (i < j)%nat ->
             SortForBlock mempool package !! i = Some x ->
             SortForBlock mempool package !! j = Some y ->
             count_of mempool x <= count_of mempool y).
  { intros i j x y Hij Hx Hy. apply CompareTxIterByAncestorCount_le.
    eapply StronglySorted_lookup_lt; [apply SortForBlock_sorted|eassumption..]. }
  split; [apply SortForBlock_perm|]. split; [apply SortForBlock_nodup|].
  split; [exact Hord|].
  intros i j x y Hx Hy Hanc.
  assert (Hxp : x ∈ pool mempool).
  { apply Hsub, (proj1 (SortForBlock_elem mempool package x)).
    eapply list_elem_of_lookup_2. exact Hx. }
  pose proof (wf_anc_count mempool Hstr x y Hxp Hanc) as Hlt.
  destruct (Nat.lt_trichotomy i j) as [Hij|[->|Hji]]; [| |exact Hji].
  - pose proof (Hord i j x y Hij Hx Hy). lia.
  - rewrite Hx in Hy. injection Hy as ->. lia.
Qed.

End AssemblerMore.

(** ** From the template to the submission *)

Section TemplateProofs.

Import Scan Assembler Submit.

Variable env : Miner.Environment.
Variable cc : Collaborators.
Variable mempool : CTxMemPool.
Variable scrypt : CBlockHeader -> Z.
Variable Chain : Type.
Variable Tip_GetBlockHash : Chain -> Z.
Variable ProcessNewBlock : Chain -> CBlock -> bool * Chain.

(** [GenerateCoinbaseCommitment] leaves the coinbase in front. *)
Definition commitment_keeps_coinbase : Prop :=
  forall b i tx rest,
    block_vtx b = CoinbaseTx tx :: rest ->
    exists tx' rest',
      block_vtx (Miner.GenerateCoinbaseCommitment env b i).2 = CoinbaseTx tx' :: rest'.

(** [GenerateCoinbaseCommitment] does not write the header. *)
Definition commitment_keeps_header : Prop :=
  forall b i, header (Miner.GenerateCoinbaseCommitment env b i).2 = header b.

(** [CreateNewBlock], up to the coinbase, returns on a consistent snapshot. *)
Lemma CreateNewBlock_returns (a : BlockAssembler) (pindexPrev : CBlockIndex)
    (now : Z) (scriptPubKeyIn : list ScriptElem) (fMineWitnessTx : bool) :
  mempool_structure mempool ->
  exists a' cb rest sigops,
    CreateNewBlock cc mempool a pindexPrev now scriptPubKeyIn fMineWitnessTx = Some a' /\
    vtx a' = CoinbaseTx cb :: rest /\
    Assembler.vTxSigOpsCost a' = -1 :: sigops /\
    blk_nTime a' = u32 now.
Proof.
  intros Hstr.
  destruct (select_finishes cc mempool Hstr a pindexPrev now fMineWitnessTx)
    as (st & Hrun & HI).
  destruct (inv_template mempool st HI) as [l [Hv _ Hs _ _ _ _]].
  pose proof (run_settings cc mempool _ _ _ Hrun) as (_ & _ & _ & _ & _ & _ & Ht).
  cbn in Ht.
  exists (CreateNewBlock_coinbase cc (asm st) scriptPubKeyIn),
         (coinbaseTx cc (asm st) scriptPubKeyIn), (PoolTx <$> l),
         (sigops_of mempool <$> l).
  unfold CreateNewBlock. rewrite Hrun.
  cbn [vtx Assembler.vTxSigOpsCost blk_nTime CreateNewBlock_coinbase].
  rewrite Hv, Hs, Ht. repeat split; reflexivity.
Qed.

(** The header [CreateNewBlock] fills in. *)
Lemma CreateNewBlock_header_fields (a : BlockAssembler) (pindexPrev : CBlockIndex)
    (now : Z) :
  let blk := (Miner.CreateNewBlock_header env a pindexPrev now).2 in
  hashPrevBlock (header blk) = GetBlockHash pindexPrev /\
  nNonce (header blk) = 0 /\
  block_vtx blk =
    block_vtx (Miner.GenerateCoinbaseCommitment env (Miner.block_of env a) pindexPrev).2 /\
  (commitment_keeps_header ->
   Z.max (GetMedianTimePast pindexPrev + 1) now < 2 ^ 32 ->
   0 <= blk_nTime a < 2 ^ 32 ->
   nTime (header blk) =
     Z.max (blk_nTime a) (Z.max (GetMedianTimePast pindexPrev + 1) now) /\
   nVersion (header blk) = blk_nVersion a).
Proof.
  intros blk. subst blk. unfold Miner.CreateNewBlock_header. cbn zeta.
  cbn [snd Miner.set_header header block_vtx Miner.set_nBits nNonce set_nNonce
       hashPrevBlock].
  set (h0 := Miner.set_hashPrevBlock _ _).
  destruct (UpdateTime_frame env h0 pindexPrev now) as (Hv & Hp & _ & _).
  split; [rewrite Hp; reflexivity|]. split; [reflexivity|]. split; [reflexivity|].
  intros Hkeep Hnew Hold.
  assert (Hh0t : nTime h0 = blk_nTime a) by (unfold h0; cbn; rewrite Hkeep; reflexivity).
  assert (Hh0v : nVersion h0 = blk_nVersion a)
    by (unfold h0; cbn; rewrite Hkeep; reflexivity).
  cbn [nTime nVersion set_nNonce Miner.set_nBits]. rewrite Hv, Hh0v. split; [|reflexivity].
  unfold Miner.UpdateTime. cbn zeta. rewrite Hh0t.
  destruct (Z.ltb_spec (blk_nTime a) (Z.max (GetMedianTimePast pindexPrev + 1) now));
    destruct (Miner.fPowAllowMinDifficultyBlocks env); cbn;
    rewrite ?Hkeep, ?u32_small by lia; cbn; lia.
Qed.

(** The two ways [CreateNewBlock] ends. *)
Lemma CreateNewBlock_template_cases (a : BlockAssembler)
    (pindexPrev : CBlockIndex) (now now' : Z) (scriptPubKeyIn : list ScriptElem)
    (fMineWitnessTx : bool) :
  mempool_structure mempool ->
  commitment_keeps_coinbase ->
  exists a' commitment blk sigops0,
    CreateNewBlock cc mempool a pindexPrev now scriptPubKeyIn fMineWitnessTx = Some a' /\
    blk_nTime a' = u32 now /\
    Miner.CreateNewBlock_header env a' pindexPrev now' = (commitment, blk) /\
    (exists tx rest, block_vtx blk = CoinbaseTx tx :: rest) /\
    Miner.CreateNewBlock_template env cc mempool a pindexPrev now now'
      scriptPubKeyIn fMineWitnessTx =
    Some (a',
          {| Miner.nLastBlockTx := nBlockTx a';
             Miner.nLastBlockWeight := nBlockWeight a' |},
          match Miner.TestBlockValidity env blk pindexPrev with
          | Some msg =>
              inl (Miner.runtime_error
                     ("CreateNewBlock: TestBlockValidity failed: " ++ msg))
          | None =>
              inr {| Miner.block := blk;
                     Miner.vTxFees := Assembler.vTxFees a';
                     Miner.vTxSigOpsCost := sigops0 :: tail (Assembler.vTxSigOpsCost a');
                     Miner.vchCoinbaseCommitment := commitment |}
          end).
Proof.
  intros Hstr Hcb.
  destruct (CreateNewBlock_returns a pindexPrev now scriptPubKeyIn fMineWitnessTx Hstr)
    as (a' & cb & rest & sigops & Ha' & Hvtx & Hsig & Htime).
  destruct (Miner.CreateNewBlock_header env a' pindexPrev now') as [commitment blk] eqn:Hb.
  pose proof (CreateNewBlock_header_fields a' pindexPrev now') as Hf.
  rewrite Hb in Hf. cbn [snd] in Hf. destruct Hf as (_ & _ & Hv & _).
  destruct (Hcb (Miner.block_of env a') pindexPrev cb rest Hvtx) as (tx' & rest' & Hgen).
  rewrite Hgen in Hv.
  exists a', commitment, blk,
    (u32 (WITNESS_SCALE_FACTOR * Miner.GetLegacySigOpCount env (CoinbaseTx tx'))).
  split; [exact Ha'|]. split; [exact Htime|]. split; [exact Hb|].
  split; [eauto|].
  unfold Miner.CreateNewBlock_template, Miner.CreateNewBlock_finish.
  rewrite Ha', Hb. cbn [snd fst]. rewrite Hv, Hsig. cbn [tail].
  destruct (Miner.TestBlockValidity env blk pindexPrev); reflexivity.
Qed.

(** On a consistent snapshot [CreateNewBlock] ends in one of two ways.  It
    builds a block on [pindexPrev], with nonce 0 and, when the times fit in
    32 bits, with the latest of the clock at line 141, the median time past
    plus one and the clock at line 181 as its time; it throws
    [runtime_error] when [TestBlockValidity] refuses this block, and
    returns it in the template otherwise.  The two globals hold the number
    of transactions and the weight the assembler counted. *)
Theorem CreateNewBlock_template_is_checked (a : BlockAssembler)
    (pindexPrev : CBlockIndex) (now now' : Z) (scriptPubKeyIn : list ScriptElem)
    (fMineWitnessTx : bool) :
  mempool_structure mempool ->
  commitment_keeps_coinbase ->
  exists a' commitment blk sigops0,
    CreateNewBlock cc mempool a pindexPrev now scriptPubKeyIn fMineWitnessTx = Some a' /\
    Miner.CreateNewBlock_header env a' pindexPrev now' = (commitment, blk) /\
    hashPrevBlock (header blk) = GetBlockHash pindexPrev /\
    nNonce (header blk) = 0 /\
    (commitment_keeps_header ->
     Z.max (GetMedianTimePast pindexPrev + 1) now' < 2 ^ 32 ->
     nTime (header blk) =
       Z.max (u32 now) (Z.max (GetMedianTimePast pindexPrev + 1) now') /\
     GetMedianTimePast pindexPrev < nTime (header blk)) /\
    Miner.CreateNewBlock_template env cc mempool a pindexPrev now now'
      scriptPubKeyIn fMineWitnessTx =
    Some (a',
          {| Miner.nLastBlockTx := nBlockTx a';
             Miner.nLastBlockWeight := nBlockWeight a' |},
          match Miner.TestBlockValidity env blk pindexPrev with
          | Some msg =>
              inl (Miner.runtime_error
                     ("CreateNewBlock: TestBlockValidity failed: " ++ msg))
          | None =>
              inr {| Miner.block := blk;
                     Miner.vTxFees := Assembler.vTxFees a';
                     Miner.vTxSigOpsCost := sigops0 :: tail (Assembler.vTxSigOpsCost a');
                     Miner.vchCoinbaseCommitment := commitment |}
          end).
Proof.
  intros Hstr Hcb.
  destruct (CreateNewBlock_template_cases a pindexPrev now now' scriptPubKeyIn
              fMineWitnessTx Hstr Hcb)
    as (a' & commitment & blk & sigops0 & Ha' & Htime & Hb & _ & Htpl).
  pose proof (CreateNewBlock_header_fields a' pindexPrev now') as Hf.
  rewrite Hb in Hf. cbn [snd] in Hf. destruct Hf as (Hprev & Hnonce & _ & Ht).
  exists a', commitment, blk, sigops0.
  split; [exact Ha'|]. split; [exact Hb|]. split; [exact Hprev|].
  split; [exact Hnonce|]. split; [|exact Htpl].
  intros Hkeep Hnew. rewrite Htime in Ht.
  destruct (Ht Hkeep Hnew) as [Hnt _]; [apply Z.mod_pos_bound; lia|].
  split; [exact Hnt | lia].
Qed.

(** *** The block [CoinMiner] searches on *)

Local Abbreviation prepare :=
  (Miner.CoinMiner_prepare env cc mempool Chain).
Local Abbreviation search :=
  (Miner.CoinMiner_search env cc scrypt Chain Tip_GetBlockHash ProcessNewBlock).

(** What [CoinMiner] has when the preparation went through. *)
Record prepared (pindexPrev tip : CBlockIndex) (static_hashPrevBlock nExtraNonce
    null_hash rnd : Z) (n : Node Chain)
    (static' nExtraNonce' : Z) (s : Miner.Search Chain) : Prop := {
  prep_static : static' = GetBlockHash tip;
  prep_extra :
    nExtraNonce' = next_extra_nonce static_hashPrevBlock (GetBlockHash tip) nExtraNonce;
  prep_prev : hashPrevBlock (header (Miner.pblock s)) = GetBlockHash tip;
  prep_nonce : nNonce (header (Miner.pblock s)) = 0;
  prep_script :
    exists tx rest,
      block_vtx (Miner.pblock s) = CoinbaseTx tx :: rest /\
      vin0_scriptSig tx =
        Miner.extranonce_scriptSig env (u32 (nHeight_tip pindexPrev + 1)) nExtraNonce' /\
      Miner.script_size env (vin0_scriptSig tx) <= 100;
  prep_root :
    exists before,
      hashMerkleRoot (header (Miner.pblock s)) =
      Miner.BlockMerkleRoot env
        {| header := before; block_vtx := block_vtx (Miner.pblock s) |};
  prep_target :
    Miner.solutionHash s =
    u256 (Miner.SetCompact env (nBits (header (Miner.pblock s))));
  prep_start : Miner.nNonce s = u32 rnd /\ Miner.hash s = null_hash /\
               Miner.hashesScanned s = 0;
  prep_node : Miner.node s = n /\ Miner.KeepScript_called s = false
}.

(** On a consistent snapshot the preparation of a search (lines 625-647)
    ends in one of three ways: with the [runtime_error] of
    [CreateNewBlock]; with a failed assertion, when the coinbase script
    with the extra nonce is longer than 100 bytes; or with a block that
    builds on the tip [CreateNewBlock] saw, whose coinbase script holds the
    height after [pindexPrev] and the extra nonce (1 on a new previous
    block, else one more than before), whose merkle root was computed over
    its transactions, and with a target read from its [nBits]. *)
Theorem CoinMiner_prepare_outcome (gArgs : Miner.ArgsManager)
    (pindexPrev tip : CBlockIndex)
    (now now' : Z) (reserveScript : list ScriptElem) (fMineWitnessTx : bool)
    (static_hashPrevBlock nExtraNonce null_hash rnd : Z) (n : Node Chain) :
  mempool_structure mempool ->
  commitment_keeps_coinbase ->
  match prepare gArgs pindexPrev tip now now' reserveScript fMineWitnessTx
          static_hashPrevBlock nExtraNonce null_hash rnd n with
  | Some (inl e) =>
      exists msg, e = Miner.runtime_error
                        ("CreateNewBlock: TestBlockValidity failed: " ++ msg)
  | Some (inr (static', nExtraNonce', s)) =>
      prepared pindexPrev tip static_hashPrevBlock nExtraNonce null_hash rnd n
        static' nExtraNonce' s
  | None =>
      100 < Miner.script_size env
              (Miner.extranonce_scriptSig env (u32 (nHeight_tip pindexPrev + 1))
                 (next_extra_nonce static_hashPrevBlock (GetBlockHash tip) nExtraNonce))
  end.
Proof.
  intros Hstr Hcb. unfold Miner.CoinMiner_prepare.
  destruct (CreateNewBlock_template_cases (Miner.BlockAssembler_default env cc gArgs)
              tip now now' reserveScript fMineWitnessTx Hstr Hcb)
    as (a' & commitment & blk & sigops0 & Ha' & _ & Hb & Hfront & Htpl).
  pose proof (CreateNewBlock_header_fields a' tip now') as Hf.
  rewrite Hb in Hf. cbn [snd] in Hf. destruct Hf as (Hprev & Hnonce & _).
  rewrite Htpl.
  destruct (Miner.TestBlockValidity env blk tip) as [msg|]; [eauto|].
  cbn [Miner.block].
  pose proof (IncrementExtraNonce_inv env static_hashPrevBlock blk pindexPrev nExtraNonce)
    as Hinc.
  cbv zeta in Hinc. rewrite Hprev in Hinc.
  destruct (Miner.IncrementExtraNonce env static_hashPrevBlock blk pindexPrev nExtraNonce)
    as [[[static' pblock'] nExtraNonce']|].
  - destruct Hinc as (-> & -> & Hsize & (tx & rest & Hold & Hnew) & Hhdr).
    split; cbn [Miner.pblock Miner.solutionHash Miner.nNonce Miner.hash
                Miner.hashesScanned Miner.node Miner.KeepScript_called];
      try reflexivity.
    + rewrite Hhdr. exact Hprev.
    + rewrite Hhdr. exact Hnonce.
    + eexists _, rest. split; [exact Hnew|]. split; [reflexivity | exact Hsize].
    + exists (header blk). rewrite Hhdr. reflexivity.
    + auto.
    + auto.
  - destruct Hinc as [Hno|Hlong]; [|exact Hlong].
    destruct Hfront as (tx & rest & Hfront). exfalso. exact (Hno tx rest Hfront).
Qed.

(** *** From the search to the validation layer *)

Lemma ProcessBlockFound_stale_node (block : CBlock) (n : Node Chain) :
  hashPrevBlock (header block) <> Tip_GetBlockHash (chainActive Chain n) ->
  handed_over Chain (ProcessBlockFound Chain Tip_GetBlockHash ProcessNewBlock block n).2
    = handed_over Chain n /\
  chainActive Chain (ProcessBlockFound Chain Tip_GetBlockHash ProcessNewBlock block n).2
    = chainActive Chain n.
Proof.
  intros Hstale. unfold ProcessBlockFound. cbn.
  destruct (Z.eqb_spec (hashPrevBlock (header block))
                       (Tip_GetBlockHash (chainActive Chain n))) as [He|_];
    [contradiction|].
  cbn. split; reflexivity.
Qed.

(** A block the search submits builds on the tip the template was made
    for.  It reaches [ProcessNewBlock] if the chain still ends there when
    it is submitted; if the tip has moved, the block is dropped and the
    chain stays as it is. *)
Theorem mined_block_needs_the_tip_of_its_template (gArgs : Miner.ArgsManager)
    (pindexPrev tip : CBlockIndex)
    (now now' : Z) (reserveScript : list ScriptElem) (fMineWitnessTx : bool)
    (static_hashPrevBlock nExtraNonce null_hash rnd : Z) (n : Node Chain)
    (static' nExtraNonce' : Z) (s : Miner.Search Chain) (rds : list Miner.Readings)
    (e : Miner.TurnEnd Chain) :
  prepare gArgs pindexPrev tip now now' reserveScript fMineWitnessTx
    static_hashPrevBlock nExtraNonce null_hash rnd n
  = Some (inr (static', nExtraNonce', s)) ->
  search pindexPrev rds s = Some e ->
  submitted env cc Chain Tip_GetBlockHash ProcessNewBlock s e ->
  hashPrevBlock (header (Miner.pblock (Miner.state_of e))) = GetBlockHash tip /\
  (Tip_GetBlockHash (chainActive Chain n) = GetBlockHash tip ->
   handed_over Chain (Miner.node (Miner.state_of e)) =
   handed_over Chain n ++ [Miner.pblock (Miner.state_of e)]) /\
  (Tip_GetBlockHash (chainActive Chain n) <> GetBlockHash tip ->
   handed_over Chain (Miner.node (Miner.state_of e)) = handed_over Chain n /\
   chainActive Chain (Miner.node (Miner.state_of e)) = chainActive Chain n).
Proof.
  intros Hprep _ Hsub.
  assert (Hs : hashPrevBlock (header (Miner.pblock s)) = GetBlockHash tip /\
               Miner.node s = n).
  { unfold Miner.CoinMiner_prepare, Miner.CreateNewBlock_template in Hprep.
    destruct (CreateNewBlock cc mempool _ tip now reserveScript fMineWitnessTx)
      as [a'|]; [|discriminate].
    unfold Miner.CreateNewBlock_finish in Hprep.
    pose proof (CreateNewBlock_header_fields a' tip now') as (Hprev & _).
    destruct (Miner.CreateNewBlock_header env a' tip now') as [commitment blk].
    cbn [snd fst] in *.
    destruct (block_vtx blk) as [|tx0 txs]; [discriminate|].
    destruct (Assembler.vTxSigOpsCost a') as [|s0 sigops]; [discriminate|].
    destruct (Miner.TestBlockValidity env blk tip); [discriminate|].
    cbn [Miner.block] in Hprep.
    pose proof (IncrementExtraNonce_inv env static_hashPrevBlock blk pindexPrev
                  nExtraNonce) as Hinc.
    cbv zeta in Hinc.
    destruct (Miner.IncrementExtraNonce env static_hashPrevBlock blk pindexPrev
                nExtraNonce) as [[[st1 pblock1] k1]|]; [|discriminate].
    destruct Hinc as (_ & _ & _ & _ & Hhdr).
    injection Hprep as _ _ <-. cbn. rewrite Hhdr. split; [exact Hprev | reflexivity]. }
  destruct Hs as [Hprev Hnode].
  destruct Hsub as [[_ Hp _ _] _ _ _ Hn _ _].
  rewrite Hnode in Hn. rewrite Hp in *.
  split; [exact Hprev|]. rewrite Hn. split.
  - intros Htip.
    apply (ProcessBlockFound_fresh Chain Tip_GetBlockHash ProcessNewBlock).
    unfold stale. rewrite Hp, Hprev, Htip. intros H. exact (H eq_refl).
  - intros Htip. apply ProcessBlockFound_stale_node.
    rewrite Hp, Hprev. intros H. exact (Htip (eq_sym H)).
Qed.

End TemplateProofs.

(** ** A block on the current tip *)

Section SubmitMore.

Import Submit.

Variable Chain : Type.
Variable Tip_GetBlockHash : Chain -> Z.
Variable ProcessNewBlock : Chain -> CBlock -> bool * Chain.

(** A found block that builds on the current tip is handed to
    [ProcessNewBlock], once; [ProcessBlockFound] returns what
    [ProcessNewBlock] returns and leaves the chain as [ProcessNewBlock]
    leaves it; the log has the block, the amount generated and, when the
    block was refused, the error "block not accepted". *)
Theorem ProcessBlockFound_hands_over_a_fresh_block (block : CBlock) (n : Node Chain) :
  Scan.hashPrevBlock (header block) = Tip_GetBlockHash (chainActive Chain n) ->
  let r := ProcessBlockFound Chain Tip_GetBlockHash ProcessNewBlock block n in
  let verdict := ProcessNewBlock (chainActive Chain n) block in
  r.1 = verdict.1 /\
  chainActive Chain r.2 = verdict.2 /\
  handed_over Chain r.2 = handed_over Chain n ++ [block] /\
  debug_log Chain r.2 =
    debug_log Chain n ++ [LogBlock block; LogGenerated block] ++
    (if verdict.1 then []
     else [LogError "ProcessBlockFound: ProcessNewBlock, block not accepted"]).
Proof.
  intros Hfresh. unfold ProcessBlockFound. cbn.
  rewrite (proj2 (Z.eqb_eq _ _) Hfresh). cbn.
  destruct (ProcessNewBlock (chainActive Chain n) block) as [[] c]; cbn;
    rewrite <- ?app_assoc; auto.
Qed.

End SubmitMore.

(** ** When everything fits *)

Section Completeness.

Import Assembler.

Variable cc : Collaborators.
Variable mempool : CTxMemPool.

Local Abbreviation E := (entry mempool).
Local Abbreviation anc := (CalculateMemPoolAncestors mempool).
Local Abbreviation desc := (CalculateDescendants mempool).
Local Abbreviation pool := (pool mempool).
Local Abbreviation size_of := (size_of mempool).
Local Abbreviation sigops_of := (sigops_of mempool).
Local Abbreviation weight_of := (weight_of mempool).
Local Abbreviation modfee_of := (modfee_of mempool).

Lemma sum_over_union (f : nat -> Z) (X Y : gset nat) :
  X ## Y -> sum_over f (X ∪ Y) = sum_over f X + sum_over f Y.
Proof.
  induction X as [|x X Hx IH] using set_ind_L; intros Hdisj.
  - rewrite (left_id_L ∅ (∪)), sum_over_empty. lia.
  - rewrite <- (assoc_L (∪)).
    rewrite !sum_over_insert by set_solver. rewrite IH by set_solver. lia.
Qed.

Lemma sum_over_split (f : nat -> Z) (X I : gset nat) :
  sum_over f X = sum_over f (X ∖ I) + sum_over f (I ∩ X).
Proof.
  rewrite <- sum_over_union by set_solver. f_equal.
  apply set_eq. intros x. destruct (decide (x ∈ I)); set_solver.
Qed.

(** What is left of the fees of the package of [d]. *)
Definition remaining_fees (d : nat) (I : gset nat) : Z :=
  sum_over modfee_of ((anc d ∪ {[ d ]}) ∖ I).

(** The cached fees are the sums over the entry and its ancestors. *)
Definition mempool_fees : Prop :=
  forall x, x ∈ pool ->
    GetModFeesWithAncestors (E x) = sum_over modfee_of (anc x ∪ {[ x ]}).

Lemma exact_entry_remaining (d : nat) (I : gset nat) :
  mempool_aggregates mempool -> mempool_fees ->
  d ∈ pool -> d ∉ I ->
  exact_entry mempool d I =
  {| nSizeWithAncestors := remaining_size mempool d I;
     nModFeesWithAncestors := remaining_fees d I;
     nSigOpCostWithAncestors := remaining_sigops mempool d I |}.
Proof.
  intros Hagg Hfees Hd HdI. unfold exact_entry, remaining_size, remaining_fees,
    remaining_sigops.
  assert (Hcap : I ∩ (anc d ∪ {[ d ]}) = I ∩ anc d) by set_solver.
  rewrite (wf_size_anc mempool Hagg d Hd), (Hfees d Hd), (wf_sigops_anc mempool Hagg d Hd).
  rewrite (sum_over_split size_of (anc d ∪ {[ d ]}) I).
  rewrite (sum_over_split modfee_of (anc d ∪ {[ d ]}) I).
  rewrite (sum_over_split sigops_of (anc d ∪ {[ d ]}) I).
  rewrite Hcap. f_equal; lia.
Qed.

Lemma TestPackage_pass (a : BlockAssembler) (size sigops : Z) :
  limits_ok cc ->
  0 <= nBlockWeight a -> 0 <= size ->
  nBlockWeight a + WITNESS_SCALE_FACTOR * size < nBlockMaxWeight a ->
  nBlockMaxWeight a < 2 ^ 32 ->
  0 <= nBlockSigOpsCost a -> 0 <= sigops ->
  nBlockSigOpsCost a + sigops < MAX_BLOCK_SIGOPS_COST cc ->
  TestPackage cc a size sigops = true.
Proof.
  unfold limits_ok, TestPackage, WITNESS_SCALE_FACTOR.
  intros Hlim Hw Hs Hfit Hmax Hso Hsg Hfits.
  rewrite (u64_small (4 * size)) by lia.
  rewrite (u64_small (nBlockWeight a + 4 * size)) by lia.
  rewrite (u64_small (nBlockSigOpsCost a + sigops)) by lia.
  rewrite (u64_small (MAX_BLOCK_SIGOPS_COST cc)) by lia.
  destruct (Z.geb_spec (nBlockWeight a + 4 * size) (nBlockMaxWeight a)); [lia|].
  destruct (Z.geb_spec (nBlockSigOpsCost a + sigops) (MAX_BLOCK_SIGOPS_COST cc));
    [lia | reflexivity].
Qed.

Lemma TestPackageTransactions_pass (a : BlockAssembler) (P : gset nat) :
  (forall x, x ∈ P -> tx_checked cc mempool a x) ->
  TestPackageTransactions cc mempool a P = true.
Proof.
  intros H. unfold TestPackageTransactions. apply forallb_forall. intros x Hx.
  apply list_elem_of_In, elem_of_elements in Hx. destruct (H x Hx) as [Hf Hw].
  rewrite Hf. cbn. destruct (fIncludeWitness a); cbn; [reflexivity|].
  rewrite Hw by reflexivity. reflexivity.
Qed.

(** [UpdatePackagesForAdded] carries exact entries from [I] to [I ∪ P]. *)
Lemma overlay_exact_update (I P : gset nat) (M : gmap nat CTxMemPoolModifiedEntry) :
  mempool_structure mempool -> mempool_aggregates mempool ->
  P ⊆ pool -> P ## I ->
  (forall d, d ∈ pool -> d ∉ I ∪ P ->
     match M !! d with
     | Some m => m = exact_entry mempool d I
     | None => I ∩ anc d = ∅
     end) ->
  overlay_exact mempool (I ∪ P) (UpdatePackagesForAdded mempool P M).2.
Proof.
  intros Hstr Hagg HP Hdisj Hpre.
  pose (Q := fun (J : gset nat) (M' : gmap nat CTxMemPoolModifiedEntry) =>
               forall d, d ∈ pool -> d ∉ I ∪ P ->
                 match M' !! d with
                 | Some m => m = exact_entry mempool d J
                 | None => J ∩ anc d = ∅
                 end).
  change (Q (I ∪ P) (UpdatePackagesForAdded mempool P M).2).
  apply UpdatePackagesForAdded_ind; [exact Hpre|].
  intros X x M' HX HxP HxX HQ d Hd HdI.
  assert (Hxp : x ∈ pool) by (apply HP, HxP).
  assert (HxJ : x ∉ I ∪ X) by set_solver.
  assert (Hne : d <> x) by (intros ->; set_solver).
  replace (I ∪ (X ∪ {[ x ]})) with ((I ∪ X) ∪ {[ x ]}) by set_solver.
  specialize (HQ d Hd HdI). rewrite descendants_updated_lookup.
  destruct (decide (d ∈ desc x /\ d ∉ P)) as [[Hdx _]|Hn].
  - assert (Hxd : x ∈ anc d) by (apply (wf_duality mempool Hstr x d); assumption).
    destruct (M' !! d) as [m|]; cbn [default].
    + rewrite HQ. apply exact_entry_add; assumption.
    + rewrite (fresh_is_exact mempool d (I ∪ X) HQ). apply exact_entry_add; assumption.
  - assert (Hxd : x ∉ anc d).
    { intros Hxd. apply Hn. split; [|set_solver].
      apply (wf_duality mempool Hstr x d); assumption. }
    destruct (M' !! d) as [m|].
    + rewrite HQ. symmetry. apply exact_entry_same, Hxd.
    + set_solver.
Qed.

(** *** The loop when the whole snapshot fits *)

(** For the assembler [a] the loop starts from: the snapshot is consistent,
    all of it fits into the block beside the coinbase reserve, every set of
    entries pays the minimum fee for its size, and every entry passes the
    checks of [TestPackageTransactions]. *)
Record fits (a : BlockAssembler) : Prop := {
  fits_structure : mempool_structure mempool;
  fits_aggregates : mempool_aggregates mempool;
  fits_fees : mempool_fees;
  fits_limits : limits_ok cc;
  fits_max : nBlockMaxWeight a < 2 ^ 32;
  fits_weight :
    4000 + WITNESS_SCALE_FACTOR * sum_over size_of pool < nBlockMaxWeight a;
  fits_sigops : 400 + sum_over sigops_of pool < MAX_BLOCK_SIGOPS_COST cc;
  fits_floor : forall R : gset nat, R ⊆ pool ->
    FeeRate_GetFee cc (blockMinFeeRate a) (sum_over size_of R) <= sum_over modfee_of R;
  fits_checked : forall x, x ∈ pool -> tx_checked cc mempool a x
}.

(** The invariant of the loop in that case: the overlay is exact, nothing
    has failed, every entry is still ahead of the cursor, in the overlay or
    in the block, and the counters are bounded by what the block holds. *)
Record Inv_fits (a : BlockAssembler) (st : PackageLoop) : Prop := {
  fit_struct : Inv_struct mempool st;
  fit_budget : Inv_budget cc mempool st;
  fit_exact : overlay_exact mempool (inBlock (asm st)) (mapModifiedTx st);
  fit_failed : failedTx st = ∅;
  fit_covered : forall x, x ∈ pool ->
    x ∈ mi st \/ x ∈ inBlock (asm st) \/ is_Some (mapModifiedTx st !! x);
  fit_weight :
    nBlockWeight (asm st)
    <= 4000 + WITNESS_SCALE_FACTOR * sum_over size_of (inBlock (asm st));
  fit_sigops :
    nBlockSigOpsCost (asm st) <= 400 + sum_over sigops_of (inBlock (asm st));
  fit_settings : same_settings a (asm st)
}.

(** What a pass does, with the origin of the candidate. *)
Lemma iteration_cases (st : PackageLoop) :
  (loop_condition st = false /\ iteration cc mempool st = Stop st) \/
  (exists it rest,
     mi st = it :: rest /\
     SkipMapTxEntry (asm st) it (mapModifiedTx st) (failedTx st) = true /\
     iteration cc mempool st = Continue (set_mi st rest)) \/
  (exists c,
     choose cc mempool st = Some c /\
     candidate_source mempool st c /\
     iteration cc mempool st = consider cc mempool (set_mi st (mi_next c)) c /\
     (fUsingModified c = false ->
      SkipMapTxEntry (asm st) (iter c) (mapModifiedTx st) (failedTx st) = false)).
Proof.
  unfold iteration.
  destruct (loop_condition st) eqn:Hcond; cbn [negb]; [|left; split; reflexivity].
  right. destruct (choose_is_some cc mempool st Hcond) as [c Hc].
  pose proof (choose_source cc mempool st c Hc) as Hsrc.
  assert (He : evaluate cc mempool st = consider cc mempool (set_mi st (mi_next c)) c).
  { unfold evaluate. rewrite Hc. reflexivity. }
  destruct (mi st) as [|it rest] eqn:Hmi.
  - right. exists c. split; [exact Hc|]. split; [exact Hsrc|]. split; [exact He|].
    destruct Hsrc as [m _ Hu _ _ _ _|rest Hmi' _]; [|rewrite Hmi in Hmi'; discriminate].
    rewrite Hu. discriminate.
  - destruct (SkipMapTxEntry (asm st) it (mapModifiedTx st) (failedTx st)) eqn:Hskip.
    + left. exists it, rest. repeat split. exact Hskip.
    + right. exists c. split; [exact Hc|]. split; [exact Hsrc|]. split; [exact He|].
      destruct Hsrc as [m _ Hu _ _ _ _|rest' Hmi' _]; [rewrite Hu; discriminate|].
      rewrite Hmi in Hmi'. injection Hmi' as <- <-. intros _. exact Hskip.
Qed.

(** With an exact overlay the aggregates of a candidate are those of what
    is left of its package. *)
Lemma candidate_is_remaining (a : BlockAssembler) (st : PackageLoop) (c : Candidate) :
  fits a -> Inv_fits a st ->
  candidate_source mempool st c ->
  (fUsingModified c = false ->
   SkipMapTxEntry (asm st) (iter c) (mapModifiedTx st) (failedTx st) = false) ->
  iter c ∉ inBlock (asm st) /\
  packageSize c = remaining_size mempool (iter c) (inBlock (asm st)) /\
  packageFees c = remaining_fees (iter c) (inBlock (asm st)) /\
  packageSigOpsCost c = remaining_sigops mempool (iter c) (inBlock (asm st)).
Proof.
  intros Hf HK Hsrc Hskip.
  pose proof (candidate_in_pool mempool st c (fit_struct a st HK) Hsrc) as Hp.
  assert (Hnew : iter c ∉ inBlock (asm st)).
  { destruct Hsrc as [m Hm _ _ _ _ _|rest Hmi Hc].
    - apply (inv_overlay_keys mempool st (fit_struct a st HK)). eauto.
    - assert (Hu : fUsingModified c = false) by (rewrite Hc; reflexivity).
      specialize (Hskip Hu). unfold SkipMapTxEntry in Hskip.
      apply orb_false_elim in Hskip as [Hskip _].
      apply orb_false_elim in Hskip as [_ Hskip].
      apply bool_decide_eq_false in Hskip. exact Hskip. }
  split; [exact Hnew|].
  pose proof (exact_entry_remaining (iter c) (inBlock (asm st))
                (fits_aggregates a Hf) (fits_fees a Hf) Hp Hnew) as Hex.
  pose proof (fit_exact a st HK (iter c) Hp Hnew) as Hov.
  destruct Hsrc as [m Hm _ Hs Hfe Hg _|rest Hmi Hc].
  - rewrite Hm in Hov. rewrite Hov in Hs, Hfe, Hg. rewrite Hex in Hs, Hfe, Hg.
    repeat split; assumption.
  - assert (Hu : fUsingModified c = false) by (rewrite Hc; reflexivity).
    specialize (Hskip Hu). unfold SkipMapTxEntry in Hskip.
    apply orb_false_elim in Hskip as [Hskip _].
    apply orb_false_elim in Hskip as [Hskip _].
    apply bool_decide_eq_false in Hskip.
    destruct (mapModifiedTx st !! iter c) as [m|] eqn:Hm; [exfalso; apply Hskip; eauto|].
    pose proof (fresh_is_exact mempool (iter c) (inBlock (asm st)) Hov) as Hfr.
    rewrite Hex in Hfr. rewrite Hc. cbn [packageSize packageFees packageSigOpsCost from_mapTx iter].
    unfold fresh_modified in Hfr. injection Hfr as H1 H2 H3.
    repeat split; assumption.
Qed.

(** A candidate is committed, and the invariant is kept. *)
Lemma consider_fits (a : BlockAssembler) (st : PackageLoop) (c : Candidate) :
  fits a -> Inv_fits a st ->
  candidate_source mempool st c ->
  (fUsingModified c = false ->
   SkipMapTxEntry (asm st) (iter c) (mapModifiedTx st) (failedTx st) = false) ->
  exists st',
    consider cc mempool (set_mi st (mi_next c)) c = Continue st' /\
    Inv_fits a st' /\ (measure mempool st' < measure mempool st)%nat.
Proof.
  intros Hf HK Hsrc Hskip.
  destruct (candidate_is_remaining a st c Hf HK Hsrc Hskip) as (Hnew & Hs & Hfe & Hg).
  pose proof (fits_structure a Hf) as Hstr. pose proof (fits_aggregates a Hf) as Hagg.
  pose proof (fits_limits a Hf) as Hlim.
  pose proof (fit_struct a st HK) as HI. pose proof (fit_budget a st HK) as HB.
  pose proof (candidate_in_pool mempool st c HI Hsrc) as Hp.
  pose proof (Inv_struct_set_mi mempool st (mi_next c) HI (candidate_cursor mempool st c Hsrc))
    as HI1.
  pose proof (Inv_budget_set_mi cc mempool st (mi_next c) HB) as HB1.
  pose proof (package_eq mempool st (iter c) Hnew) as HPeq.
  pose proof (package_pool mempool Hstr st (iter c) Hp Hnew) as HPpool.
  pose proof (package_fresh mempool st (iter c) Hnew) as HPnew.
  pose proof (inv_inBlock_pool mempool st HI) as HIpool.
  destruct (fit_settings a st HK) as (Hmaxeq & Hrate & Hsettings).
  set (P := package_of mempool (asm st) (iter c)) in *.
  set (I := inBlock (asm st)) in *.
  unfold remaining_size in Hs. unfold remaining_fees in Hfe. unfold remaining_sigops in Hg.
  rewrite <- HPeq in Hs, Hfe, Hg.
  assert (Hdisj : I ## P) by (intros x HxI HxP; exact (HPnew x HxP HxI)).
  pose proof (sum_over_union size_of I P Hdisj) as Hsplit_s.
  pose proof (sum_over_union sigops_of I P Hdisj) as Hsplit_g.
  assert (Hsub : I ∪ P ⊆ pool) by set_solver.
  pose proof (sum_over_subseteq size_of (I ∪ P) pool Hsub (size_of_nonneg mempool Hagg))
    as Hle_s.
  pose proof (sum_over_subseteq sigops_of (I ∪ P) pool Hsub (sigops_of_nonneg mempool Hagg))
    as Hle_g.
  assert (Hs0 : 0 <= sum_over size_of P).
  { apply sum_over_nonneg. intros x Hx. apply (size_of_nonneg mempool Hagg), HPpool, Hx. }
  assert (Hg0 : 0 <= sum_over sigops_of P).
  { apply sum_over_nonneg. intros x Hx. apply (sigops_of_nonneg mempool Hagg), HPpool, Hx. }
  pose proof (fit_weight a st HK) as Hw. pose proof (fit_sigops a st HK) as Hso.
  pose proof (inv_weight cc mempool st HB) as Hw0.
  pose proof (inv_sigops cc mempool st HB) as Hso0.
  pose proof (fits_weight a Hf) as Hroom_w. pose proof (fits_sigops a Hf) as Hroom_s.
  fold I in Hw, Hso. unfold WITNESS_SCALE_FACTOR in *.
  assert (Htest : TestPackage cc (asm st) (packageSize c) (packageSigOpsCost c) = true).
  { apply TestPackage_pass; rewrite ?Hmaxeq; unfold WITNESS_SCALE_FACTOR;
      try exact Hlim; try (pose proof (fits_max a Hf)); lia. }
  assert (Hchk : TestPackageTransactions cc mempool (asm st) P = true).
  { apply TestPackageTransactions_pass. intros x Hx.
    apply (tx_checked_settings cc mempool a); [exact (fit_settings a st HK)|].
    apply (fits_checked a Hf), HPpool, Hx. }
  assert (Hfloor :
    (packageFees c <? FeeRate_GetFee cc (blockMinFeeRate (asm st)) (packageSize c)) = false).
  { apply Z.ltb_ge. rewrite Hrate, Hs, Hfe. apply (fits_floor a Hf), HPpool. }
  exists (commit mempool (set_mi st (mi_next c)) P).
  assert (HI' : Inv_struct mempool (commit mempool (set_mi st (mi_next c)) P)).
  { exact (Inv_struct_commit mempool Hstr (set_mi st (mi_next c)) (iter c) HI1 Hp Hnew). }
  split; [|split].
  - unfold consider, try_package. cbn [asm set_mi].
    rewrite bool_decide_eq_false_2 by exact Hnew.
    rewrite Hfloor, Htest. cbn [negb]. fold P. rewrite Hchk. reflexivity.
  - split.
    + exact HI'.
    + destruct (candidate_bounds cc mempool Hstr Hagg st c HI HB Hsrc) as [Hb1 Hb2].
      exact (Inv_budget_commit cc mempool Hstr Hagg Hlim (set_mi st (mi_next c)) (iter c)
               Hp Hnew (packageSize c) (packageSigOpsCost c) HB1 Hb1 Hb2 Htest).
    + rewrite commit_inBlock_eq, commit_overlay_eq. cbn [asm set_mi mapModifiedTx]. fold I.
      apply overlay_exact_update; [exact Hstr | exact Hagg | exact HPpool | | ].
      * intros x HxP HxI. exact (HPnew x HxP HxI).
      * intros x Hx HxIP. rewrite erase_all_lookup.
        destruct (decide (x ∈ SortForBlock mempool P)) as [HxS|_].
        { apply SortForBlock_elem in HxS. set_solver. }
        apply (fit_exact a st HK x Hx). set_solver.
    + exact (fit_failed a st HK).
    + intros x Hx. rewrite commit_inBlock_eq, commit_overlay_eq.
      cbn [asm set_mi mapModifiedTx mi commit]. fold I.
      destruct (decide (x ∈ P)) as [HxP|HxP]; [right; left; set_solver|].
      destruct (fit_covered a st HK x Hx) as [Hmi|[HxI|Hov]].
      * destruct Hsrc as [m _ _ _ _ _ Hnext|rest Hmi' Hc].
        { left. rewrite Hnext. exact Hmi. }
        rewrite Hmi' in Hmi. apply elem_of_cons in Hmi as [->|Hmi].
        { exfalso. apply HxP. unfold P, package_of. set_solver. }
        left. rewrite Hc. exact Hmi.
      * right. left. set_solver.
      * right. right. rewrite UpdatePackagesForAdded_snd.
        apply descendants_updated_all. left. rewrite erase_all_lookup.
        destruct (decide (x ∈ SortForBlock mempool P)) as [HxS|_]; [|exact Hov].
        apply SortForBlock_elem in HxS. contradiction.
    + rewrite commit_inBlock_eq, commit_asm_eq. cbn [asm set_mi]. fold I P.
      pose proof (package_weight mempool Hstr Hagg st (iter c) Hp Hnew) as Hpw.
      fold P I in Hpw. unfold remaining_size, WITNESS_SCALE_FACTOR in Hpw.
      rewrite <- HPeq in Hpw.
      assert (0 <= sumZ (weight_of <$> SortForBlock mempool P)) as Hwn.
      { apply sumZ_nonneg. intros x Hx.
        apply (weight_of_nonneg mempool Hagg), HPpool, (proj1 (SortForBlock_elem mempool P x)), Hx. }
      unfold WITNESS_SCALE_FACTOR.
      rewrite AddToBlock_all_nBlockWeight; [lia | lia | | pose proof (fits_max a Hf); lia].
      intros x Hx. apply (weight_of_nonneg mempool Hagg), HPpool, (proj1 (SortForBlock_elem mempool P x)), Hx.
    + rewrite commit_inBlock_eq, commit_asm_eq. cbn [asm set_mi]. fold I P.
      pose proof (package_sigops mempool st (iter c) Hnew) as Hps.
      fold P I in Hps. unfold remaining_sigops in Hps. rewrite <- HPeq in Hps.
      unfold limits_ok in Hlim.
      rewrite AddToBlock_all_nBlockSigOpsCost; [lia | lia | | lia].
      intros x Hx. apply (sigops_of_nonneg mempool Hagg), HPpool, (proj1 (SortForBlock_elem mempool P x)), Hx.
    + rewrite commit_asm_eq. cbn [asm set_mi].
      eapply same_settings_trans; [exact (fit_settings a st HK)|].
      apply AddToBlock_all_settings.
  - apply (measure_commit mempool Hstr st _ (iter c) HI' Hp Hnew);
      rewrite commit_inBlock_eq; cbn [asm set_mi]; unfold P, package_of; set_solver.
Qed.

(** One pass: the invariant is kept, the measure goes down, and the loop
    stops only when its condition is false. *)
Lemma iteration_fits (a : BlockAssembler) (st : PackageLoop) :
  fits a -> Inv_fits a st ->
  match iteration cc mempool st with
  | Continue st' => Inv_fits a st' /\ (measure mempool st' < measure mempool st)%nat
  | Stop st' => Inv_fits a st' /\ loop_condition st' = false
  | AssertFailed => False
  end.
Proof.
  intros Hf HK.
  destruct (iteration_cases st)
    as [[Hcond ->]|[(it & rest & Hmi & Hskip & ->)|(c & _ & Hsrc & -> & Hskip)]].
  - split; [exact HK | exact Hcond].
  - split.
    + destruct HK as [HI HB Hex Hfail Hcov Hw Hso Hset]. split; cbn [asm set_mi mapModifiedTx failedTx mi]; try assumption.
      * apply Inv_struct_set_mi; [exact HI|]. rewrite Hmi. apply suffix_cons_r. reflexivity.
      * apply Inv_budget_set_mi, HB.
      * intros x Hx. destruct (Hcov x Hx) as [Hin|Hother]; [|right; exact Hother].
        rewrite Hmi in Hin. apply elem_of_cons in Hin as [->|Hin]; [|left; exact Hin].
        right. unfold SkipMapTxEntry in Hskip. rewrite Hfail in Hskip.
        apply orb_true_iff in Hskip as [Hskip|Hskip].
        { apply orb_true_iff in Hskip as [Hskip|Hskip];
            apply bool_decide_eq_true in Hskip; [right | left]; exact Hskip. }
        apply bool_decide_eq_true in Hskip. set_solver.
    + unfold measure. cbn [asm set_mi mapModifiedTx mi]. rewrite Hmi. cbn [length]. lia.
  - destruct (consider_fits a st c Hf HK Hsrc Hskip) as (st' & -> & HK' & Hlt).
    split; assumption.
Qed.

Lemma run_fits (a : BlockAssembler) (fuel : nat) :
  fits a ->
  forall st, Inv_fits a st -> (measure mempool st < fuel)%nat ->
    exists st', run cc mempool fuel st = Finished st' /\
                Inv_fits a st' /\ loop_condition st' = false.
Proof.
  intros Hf. induction fuel as [|fuel IH]; intros st HK Hm; [lia|].
  cbn [run]. pose proof (iteration_fits a st Hf HK) as Hit.
  destruct (iteration cc mempool st) as [st'|st'|].
  - destruct Hit as [HK' Hlt]. apply IH; [exact HK' | lia].
  - exists st'. split; [reflexivity | exact Hit].
  - contradiction.
Qed.

(** When the whole snapshot fits into the block, passes the checks and pays
    the minimum fee, the selection takes all of it: the block holds every
    entry, the template has one transaction for each of them behind the
    placeholder of the coinbase, and the fees add up to the fees of the
    snapshot. *)
Theorem selection_takes_everything_that_fits (a : BlockAssembler)
    (pindexPrev : CBlockIndex) (now : Z) (fMineWitnessTx : bool) :
  mempool_structure mempool -> mempool_aggregates mempool -> mempool_fees ->
  limits_ok cc ->
  nBlockMaxWeight a < 2 ^ 32 ->
  4000 + WITNESS_SCALE_FACTOR * sum_over size_of pool < nBlockMaxWeight a ->
  400 + sum_over sigops_of pool < MAX_BLOCK_SIGOPS_COST cc ->
  (forall R : gset nat, R ⊆ pool ->
     FeeRate_GetFee cc (blockMinFeeRate a) (sum_over size_of R)
     <= sum_over modfee_of R) ->
  (forall x, x ∈ pool ->
     IsFinalTx cc x (nHeight_tip pindexPrev + 1)
       (if locktime_median_time_past cc then GetMedianTimePast pindexPrev else u32 now)
     = true /\
     (IsWitnessEnabled cc pindexPrev && fMineWitnessTx = false ->
      HasWitness (E x) = false)) ->
  exists st,
    CreateNewBlock_select cc mempool a pindexPrev now fMineWitnessTx = Finished st /\
    inBlock (asm st) = pool /\
    (forall x, x ∈ pool -> PoolTx x ∈ vtx (asm st)) /\
    length (vtx (asm st)) = S (length (mapTx_ancestor_score mempool)) /\
    nFees (asm st) = sum_over (fee_of mempool) pool.
Proof.
  intros Hstr Hagg Hfees Hlim Hmax Hroom_w Hroom_s Hfloor Hchecked.
  set (a0 := CreateNewBlock_prelude cc a pindexPrev now fMineWitnessTx).
  assert (Hsum : 0 <= sum_over size_of pool).
  { apply sum_over_nonneg, (size_of_nonneg mempool Hagg). }
  assert (Hf : fits a0).
  { split; try assumption. }
  assert (HK : Inv_fits a0 (addPackageTxs_init mempool a0)).
  { split.
    - apply Inv_struct_init.
    - apply Inv_budget_init; [exact Hlim|]. unfold WITNESS_SCALE_FACTOR in Hroom_w. lia.
    - unfold a0. rewrite init_overlay. intros d _ _. rewrite lookup_empty.
      cbn [asm addPackageTxs_init]. rewrite prelude_inBlock. set_solver.
    - reflexivity.
    - intros x Hx. left. apply in_list_to_set, Hx.
    - cbn. rewrite sum_over_empty. lia.
    - cbn. rewrite sum_over_empty. lia.
    - apply same_settings_refl. }
  destruct (run_fits a0 (enough_fuel mempool) Hf _ HK (measure_init cc mempool Hstr _ _ _ _))
    as (st & Hrun & HK' & Hcond).
  exists st. split; [exact Hrun|].
  pose proof (fit_struct a0 st HK') as HI.
  assert (Hall : inBlock (asm st) = pool).
  { apply set_eq. intros x. split; [apply (inv_inBlock_pool mempool st HI)|]. intros Hx.
    unfold loop_condition in Hcond.
    destruct (mi st) as [|y l] eqn:Hmi; [|discriminate].
    apply negb_false_iff, bool_decide_eq_true in Hcond.
    destruct (fit_covered a0 st HK' x Hx) as [Hin|[Hin|[m Hm]]].
    - rewrite Hmi in Hin. inversion Hin.
    - exact Hin.
    - rewrite Hcond, lookup_empty in Hm. discriminate. }
  split; [exact Hall|].
  destruct (inv_template mempool st HI) as [l [Hv _ _ Hn Hi Hnd _]].
  rewrite Hall in Hi.
  split; [|split].
  - intros x Hx. rewrite Hv. apply elem_of_cons. right.
    apply list_elem_of_fmap. exists x. split; [reflexivity|].
    apply in_list_to_set. rewrite <- Hi. exact Hx.
  - rewrite Hv. cbn [length]. rewrite length_fmap. f_equal.
    rewrite <- (size_pool mempool Hstr), Hi. symmetry. apply size_list_to_set, Hnd.
  - rewrite Hn. apply sum_over_list. apply NoDup_Permutation.
    + exact Hnd.
    + apply NoDup_elements.
    + intros x. rewrite elem_of_elements, Hi. symmetry. apply in_list_to_set.
Qed.

End Completeness.

(** ** Why the selection stops *)

Section LoopExit.

Import Assembler.

Variable cc : Collaborators.
Variable mempool : CTxMemPool.

(** The three ways out of the [while] of [addPackageTxs], read off the
    state the loop is left in: the condition of the loop is false; the
    candidate just picked pays less than the minimum fee for its size (line
    386); or [nConsecutiveFailed] has passed [MAX_CONSECUTIVE_FAILURES] and
    the block is within 4000 weight units of its limit (lines 401-405). *)
Inductive exit_reason (st : PackageLoop) : Prop :=
  | exit_exhausted :
      mi st = [] -> mapModifiedTx st = ∅ -> exit_reason st
  | exit_below_floor (st0 : PackageLoop) (c : Candidate) :
      Inv_struct mempool st0 ->
      choose cc mempool st0 = Some c ->
      st = set_mi st0 (mi_next c) ->
      iter c ∈ pool mempool ->
      iter c ∉ inBlock (asm st) ->
      packageFees c < FeeRate_GetFee cc (blockMinFeeRate (asm st)) (packageSize c) ->
      exit_reason st
  | exit_nearly_full :
      MAX_CONSECUTIVE_FAILURES < nConsecutiveFailed st ->
      u32 (nBlockMaxWeight (asm st) - 4000) < nBlockWeight (asm st) ->
      exit_reason st.

Lemma record_failure_asm (st : PackageLoop) (c : Candidate) :
  asm (record_failure st c) = asm st.
Proof. unfold record_failure. destruct (fUsingModified c); reflexivity. Qed.

Lemma iteration_stop_reason (st st' : PackageLoop) :
  Inv_struct mempool st ->
  iteration cc mempool st = Stop st' -> exit_reason st'.
Proof.
  intros HI.
  destruct (iteration_cases cc mempool st)
    as [[Hcond ->]|[(it & rest & _ & _ & ->)|(c & Hc & Hsrc & -> & Hskip)]].
  - intros [= <-]. unfold loop_condition in Hcond.
    destruct (mi st) as [|y l] eqn:Hmi; [|discriminate].
    apply negb_false_iff, bool_decide_eq_true in Hcond.
    apply exit_exhausted; assumption.
  - discriminate.
  - unfold consider. cbn [asm set_mi].
    destruct (bool_decide (iter c ∈ inBlock (asm st))) eqn:Hin; [discriminate|].
    apply bool_decide_eq_false in Hin.
    destruct (Z.ltb_spec (packageFees c)
                (FeeRate_GetFee cc (blockMinFeeRate (asm st)) (packageSize c)))
      as [Hlow|Hfee].
    + intros [= <-].
      eapply exit_below_floor; try eassumption; try reflexivity.
      eapply candidate_in_pool; eassumption.
    + unfold try_package. cbn [asm set_mi].
      destruct (TestPackage cc (asm st) (packageSize c) (packageSigOpsCost c)) eqn:Ht;
        cbn [negb].
      * destruct (TestPackageTransactions cc mempool (asm st) _); discriminate.
      * destruct (_ && _) eqn:Hboth; [|discriminate]. intros [= <-].
        apply andb_true_iff in Hboth as [Hn Hw].
        apply Z.gtb_lt in Hn. apply Z.gtb_lt in Hw.
        apply exit_nearly_full; cbn [asm bump_failed];
          rewrite ?record_failure_asm; cbn [asm set_mi]; assumption.
Qed.

Lemma run_stop_reason (fuel : nat) :
  mempool_structure mempool ->
  forall st st', Inv_struct mempool st ->
                 run cc mempool fuel st = Finished st' -> exit_reason st'.
Proof.
  intros Hstr. induction fuel as [|fuel IH]; intros st st' HI; [discriminate|].
  cbn [run]. pose proof (iteration_struct cc mempool Hstr st HI) as Hkeep.
  pose proof (iteration_stop_reason st) as Hstop.
  destruct (iteration cc mempool st) as [st1|st1|]; cbn in Hkeep.
  - destruct Hkeep as [HI1 _]. apply IH, HI1.
  - intros [= <-]. apply Hstop; [exact HI | reflexivity].
  - discriminate.
Qed.

(** The selection of [CreateNewBlock] stops for one of three reasons only:
    the index is used up and the overlay is empty; or the candidate picked
    last, an entry of the snapshot outside the block, has package fees
    below [blockMinFeeRate.GetFee] of its package size; or the counter
    [nConsecutiveFailed] is above 1000 and the block weight is above
    [nBlockMaxWeight - 4000], computed in 32 bits. *)
Theorem selection_stops_for_a_reason (a : BlockAssembler)
    (pindexPrev : CBlockIndex) (now : Z) (fMineWitnessTx : bool) :
  mempool_structure mempool ->
  exists st,
    CreateNewBlock_select cc mempool a pindexPrev now fMineWitnessTx = Finished st /\
    ((mi st = [] /\ mapModifiedTx st = ∅) \/
     (exists st0 c,
        Inv_struct mempool st0 /\
        choose cc mempool st0 = Some c /\
        st = set_mi st0 (mi_next c) /\
        iter c ∈ pool mempool /\ iter c ∉ inBlock (asm st) /\
        packageFees c < FeeRate_GetFee cc (blockMinFeeRate a) (packageSize c)) \/
     (1000 < nConsecutiveFailed st /\
      u32 (nBlockMaxWeight a - 4000) < nBlockWeight (asm st))).
Proof.
  intros Hstr.
  destruct (select_finishes cc mempool Hstr a pindexPrev now fMineWitnessTx)
    as (st & Hrun & _).
  exists st. split; [exact Hrun|].
  unfold CreateNewBlock_select, addPackageTxs in Hrun.
  destruct (run_settings cc mempool _ _ _ Hrun) as (Hmax & Hrate & _).
  cbn [nBlockMaxWeight blockMinFeeRate CreateNewBlock_prelude resetBlock] in Hmax, Hrate.
  destruct (run_stop_reason _ Hstr _ _ (Inv_struct_init cc mempool a pindexPrev now fMineWitnessTx)
              Hrun)
    as [Hmi Hov|st0 c HI0 Hc Hst Hp Hnew Hlow|Hn Hw].
  - left. split; assumption.
  - right. left. exists st0, c. rewrite Hrate in Hlow.
    exact (conj HI0 (conj Hc (conj Hst (conj Hp (conj Hnew Hlow))))).
  - right. right. rewrite Hmax in Hw. unfold MAX_CONSECUTIVE_FAILURES in Hn.
    split; [exact Hn | exact Hw].
Qed.

End LoopExit.

(** ** Concrete runs of the rest of the miner *)

(** A stand-in hash that is the nonce itself. *)
Definition nonce_as_hash (h : Scan.CBlockHeader) : Z := Scan.nNonce h.

(** An environment with plain stand-ins: the commitment leaves the block
    alone, every block is valid, a script is as long as it has elements,
    the proof-of-work hash is the stand-in hash above. *)
Definition env0 : Miner.Environment :=
  {| Miner.fPowAllowMinDifficultyBlocks := false;
     Miner.GetNextWorkRequired := fun _ _ => 504365040;
     Miner.GenerateCoinbaseCommitment := fun b _ => ([], b);
     Miner.GetLegacySigOpCount := fun _ => 1;
     Miner.TestBlockValidity := fun _ _ => None;
     Miner.null_header := header0;
     Miner.extranonce_scriptSig := fun h n => [Assembler.PushNum h; Assembler.PushNum n];
     Miner.script_size := fun s => Z.of_nat (length s);
     Miner.BlockMerkleRoot := fun b => Z.of_nat (length (Submit.block_vtx b));
     Miner.SetCompact := fun _ => 2 ^ 200;
     Miner.GetPoWHash := nonce_as_hash;
     Miner.DEFAULT_BLOCK_MAX_WEIGHT := 3000000;
     Miner.DEFAULT_BLOCK_MIN_TX_FEE := 1000;
     Miner.ParseMoney := fun _ n => (false, n);
     Miner.GetNumCores := 4 |}.

Definition no_arguments : Miner.ArgsManager :=
  {| Miner.arg_blockmaxweight := None; Miner.arg_blockmintxfee := None |}.

Definition negative_weight : Miner.ArgsManager :=
  {| Miner.arg_blockmaxweight := Some (-1); Miner.arg_blockmintxfee := None |}.

Definition header_at_1500 : Scan.CBlockHeader :=
  {| Scan.nVersion := 1; Scan.hashPrevBlock := 77; Scan.hashMerkleRoot := 0;
     Scan.nTime := 1500; Scan.nBits := 0; Scan.nNonce := 0 |}.

Lemma UpdateTime_moves_the_time_forward_witness :
  Scan.nTime (Miner.UpdateTime env0 header_at_1500 tip100 1400).1 =
    Z.max 1500 (Z.max (1000 + 1) 1400) /\
  (Miner.UpdateTime env0 header_at_1500 tip100 1400).2 = Z.max (1000 + 1) 1400 - 1500.
Proof.
  pose proof (UpdateTime_moves_the_time_forward env0 header_at_1500 tip100 1400
                ltac:(cbn; lia) ltac:(cbn; lia)) as (H1 & _ & H2 & _).
  split; [exact H1 | exact H2].
Defined.

Lemma BlockAssembler_default_weight_limit_witness :
  Assembler.nBlockMaxWeight (Miner.BlockAssembler_default env0 plain_rules negative_weight)
  = Assembler.MAX_BLOCK_WEIGHT plain_rules - 4000.
Proof.
  pose proof (BlockAssembler_default_weight_limit env0 plain_rules negative_weight
                ltac:(cbn; lia) ltac:(cbn; lia)) as (_ & _ & _ & _ & H).
  apply H. cbn. lia.
Defined.

Definition one_group : Miner.Threads :=
  {| Miner.minerThreads := Some [49; 50]; Miner.interrupted := [] |}.

Lemma GenerateCoins_replaces_the_group_witness :
  Miner.HowManyMiningThreads (Miner.GenerateCoins env0 true (-1) one_group) = 4 /\
  Miner.interrupted (Miner.GenerateCoins env0 true (-1) one_group) = [[49; 50]].
Proof.
  pose proof (GenerateCoins_replaces_the_group env0 true (-1) one_group
                ltac:(lia) ltac:(cbn; lia)) as (H1 & H2 & _).
  split; [exact H1 | exact H2].
Defined.

(** *** A search *)

Definition search_at_3 : Miner.Search Z :=
  {| Miner.pblock := block_on_5;
     Miner.nNonce := 3;
     Miner.hash := 0;
     Miner.hashesScanned := 0;
     Miner.solutionHash := 2 ^ 200;
     Miner.node := node_at_6;
     Miner.KeepScript_called := false |}.

Definition calm : Miner.Readings :=
  {| Miner.randomNumber := 9; Miner.interruption_requested := false;
     Miner.tip_moved := false; Miner.adjusted_time := 1400 |}.

Lemma nonce_as_hash_differs (h : Scan.CBlockHeader) (n : Z) :
  0 <= n < 2 ^ 32 ->
  u256 (nonce_as_hash (Scan.set_nNonce h (u32 (n + 1)))) <>
  u256 (nonce_as_hash (Scan.set_nNonce h n)).
Proof.
  intros Hn. unfold nonce_as_hash. cbn [Scan.nNonce Scan.set_nNonce].
  pose proof (u32_range (n + 1)) as Hr.
  unfold u256. rewrite !Z.mod_small by lia.
  unfold u32. destruct (Z.eq_dec n (2 ^ 32 - 1)) as [->|Hne].
  - vm_compute. discriminate.
  - rewrite Z.mod_small by lia. lia.
Qed.

(** The stand-in hash meets the target at nonce 3; the scanner reports
    nonce 4, the block hashes to 4 there, and the turn ends with the
    exception. *)
Lemma CoinMiner_turn_throws_on_scanned_solution_witness :
  Scan.ScanScryptHash nonce_as_hash (Submit.header block_on_5) 3 0 (2 ^ 200) 0 =
    Some {| Scan.ret := true; Scan.out_nNonce := 4; Scan.out_phash := 3;
            Scan.out_hashesScanned := 1; Scan.scrypt_calls := 1 |} /\
  Miner.CoinMiner_turn env0 plain_rules nonce_as_hash Z (fun c => c) accept_all
    tip100 calm search_at_3 =
  Some (Miner.Throw (Miner.runtime_error "hash != pblock->GetPoWHash()")
          {| Miner.pblock :=
               Miner.set_header block_on_5
                 (Scan.set_nNonce (Submit.header block_on_5) 4);
             Miner.nNonce := 4;
             Miner.hash := 3;
             Miner.hashesScanned := 1;
             Miner.solutionHash := 2 ^ 200;
             Miner.node := node_at_6;
             Miner.KeepScript_called := false |}).
Proof.
  assert (H : Scan.ScanScryptHash nonce_as_hash (Submit.header block_on_5) 3 0 (2 ^ 200) 0 =
              Some {| Scan.ret := true; Scan.out_nNonce := 4; Scan.out_phash := 3;
                      Scan.out_hashesScanned := 1; Scan.scrypt_calls := 1 |})
    by (vm_compute; reflexivity).
  split; [exact H|].
  exact (CoinMiner_turn_throws_on_scanned_solution env0 plain_rules nonce_as_hash Z
           (fun c => c) accept_all (fun h => eq_refl) nonce_as_hash_differs
           tip100 calm search_at_3 _ ltac:(cbn; lia) ltac:(vm_compute; reflexivity)
           H eq_refl ltac:(vm_compute; discriminate)).
Defined.

Lemma CoinMiner_search_never_submits_witness :
  match Miner.CoinMiner_search env0 plain_rules nonce_as_hash Z (fun c => c) accept_all
          tip100 [calm; calm] search_at_3 with
  | Some e =>
      Miner.node (Miner.state_of e) = node_at_6 /\
      Miner.KeepScript_called (Miner.state_of e) = false
  | None => False
  end.
Proof.
  exact (CoinMiner_search_never_submits env0 plain_rules nonce_as_hash Z
           (fun c => c) accept_all (fun h => eq_refl) nonce_as_hash_differs
           tip100 [calm; calm] search_at_3 eq_refl ltac:(cbn; lia)
           ltac:(vm_compute; reflexivity)).
Defined.

(** *** The assembler *)

Lemma selection_takes_checked_entries_only_witness :
  exists st,
    Assembler.CreateNewBlock_select plain_rules pool4 assembler0 tip100 2000 true =
      Assembler.Finished st /\
    forall i x,
      Assembler.vtx (Assembler.asm st) !! i = Some (Assembler.PoolTx x) ->
      x ∈ pool pool4.
Proof.
  destruct (selection_takes_checked_entries_only plain_rules pool4 assembler0 tip100
              2000 true pool4_structure) as (st & Hrun & H).
  exists st. split; [exact Hrun|]. intros i x Hx. exact (proj1 (H i x Hx)).
Defined.

Lemma selection_counters_are_exact_witness :
  exists st l,
    Assembler.CreateNewBlock_select plain_rules pool4 assembler0 tip100 2000 true =
      Assembler.Finished st /\
    Assembler.nBlockTx (Assembler.asm st) = Z.of_nat (length l) /\
    Assembler.nBlockWeight (Assembler.asm st) = 4000 + sumZ (weight_of pool4 <$> l).
Proof.
  destruct (selection_counters_are_exact plain_rules pool4 assembler0 tip100 2000 true
              pool4_structure pool4_aggregates plain_rules_limits
              ltac:(vm_compute; split; [discriminate | reflexivity])
              ltac:(vm_compute; reflexivity))
    as (st & l & Hrun & _ & _ & _ & Htx & Hw & _).
  exists st, l. auto.
Defined.

Definition empty_pool : Assembler.CTxMemPool :=
  {| Assembler.entry := fun _ => entry_of 0 0 0 1 0 0 0;
     Assembler.mapTx_ancestor_score := [];
     Assembler.CalculateDescendants := fun it => {[ it ]};
     Assembler.CalculateMemPoolAncestors := fun _ => ∅ |}.

Lemma CreateNewBlock_on_an_empty_mempool_witness :
  exists a',
    Assembler.CreateNewBlock plain_rules empty_pool assembler0 tip100 2000
      [Assembler.OP_0] true = Some a' /\
    Assembler.vTxFees a' = [0] /\ Assembler.nBlockWeight a' = 4000.
Proof.
  destruct (CreateNewBlock_on_an_empty_mempool plain_rules empty_pool assembler0 tip100
              2000 [Assembler.OP_0] true eq_refl)
    as (a' & Hrun & _ & Hf & _ & _ & _ & Hw & _).
  exists a'. auto.
Defined.

Lemma SortForBlock_puts_ancestors_first_witness :
  Assembler.SortForBlock pool4 {[ 3; 1; 2 ]}%nat ≡ₚ elements ({[ 3; 1; 2 ]}%nat : gset nat) /\
  NoDup (Assembler.SortForBlock pool4 {[ 3; 1; 2 ]}%nat).
Proof.
  pose proof (SortForBlock_puts_ancestors_first pool4 {[ 3; 1; 2 ]}%nat pool4_structure
                ltac:(by_compute)) as (H1 & H2 & _).
  split; [exact H1 | exact H2].
Defined.

(** *** From the template to the submission *)

Lemma env0_keeps_coinbase : commitment_keeps_coinbase env0.
Proof. intros b i tx rest H. exists tx, rest. exact H. Qed.

Lemma CreateNewBlock_template_is_checked_witness :
  exists a' commitment blk,
    Assembler.CreateNewBlock plain_rules pool4 assembler0 tip100 2000
      [Assembler.OP_0] true = Some a' /\
    Miner.CreateNewBlock_header env0 a' tip100 2100 = (commitment, blk) /\
    Scan.hashPrevBlock (Submit.header blk) = 77 /\
    Scan.nNonce (Submit.header blk) = 0.
Proof.
  destruct (CreateNewBlock_template_is_checked env0 plain_rules pool4 assembler0 tip100
              2000 2100 [Assembler.OP_0] true pool4_structure env0_keeps_coinbase)
    as (a' & commitment & blk & _ & Ha & Hb & Hp & Hn & _).
  exists a', commitment, blk. auto.
Defined.

Lemma CoinMiner_prepare_outcome_witness :
  match Miner.CoinMiner_prepare env0 plain_rules pool4 Z no_arguments tip100 tip100
          2000 2100 [Assembler.OP_0] true 0 0 0 3 node_at_6 with
  | Some (inl e) =>
      exists msg, e = Miner.runtime_error
                        ("CreateNewBlock: TestBlockValidity failed: " ++ msg)
  | Some (inr (static', nExtraNonce', s)) =>
      prepared env0 Z tip100 tip100 0 0 0 3 node_at_6 static' nExtraNonce' s
  | None =>
      100 < Miner.script_size env0
              (Miner.extranonce_scriptSig env0 (u32 (Assembler.nHeight_tip tip100 + 1))
                 (next_extra_nonce 0 (Assembler.GetBlockHash tip100) 0))
  end.
Proof.
  exact (CoinMiner_prepare_outcome env0 plain_rules pool4 Z no_arguments tip100 tip100
           2000 2100 [Assembler.OP_0] true 0 0 0 3 node_at_6
           pool4_structure env0_keeps_coinbase).
Defined.

(** An environment in which the block, at the nonce after the one hashed,
    has the hash that was found: here the search does submit. *)
Definition env1 : Miner.Environment :=
  {| Miner.fPowAllowMinDifficultyBlocks := false;
     Miner.GetNextWorkRequired := fun _ _ => 504365040;
     Miner.GenerateCoinbaseCommitment := fun b _ => ([], b);
     Miner.GetLegacySigOpCount := fun _ => 1;
     Miner.TestBlockValidity := fun _ _ => None;
     Miner.null_header := header0;
     Miner.extranonce_scriptSig := fun h n => [Assembler.PushNum h; Assembler.PushNum n];
     Miner.script_size := fun s => Z.of_nat (length s);
     Miner.BlockMerkleRoot := fun b => Z.of_nat (length (Submit.block_vtx b));
     Miner.SetCompact := fun _ => 2 ^ 200;
     Miner.GetPoWHash := fun h => Scan.nNonce h - 1;
     Miner.DEFAULT_BLOCK_MAX_WEIGHT := 3000000;
     Miner.DEFAULT_BLOCK_MIN_TX_FEE := 1000;
     Miner.ParseMoney := fun _ n => (false, n);
     Miner.GetNumCores := 4 |}.

Definition node_at_77 : Submit.Node Z :=
  {| Submit.chainActive := 77; Submit.debug_log := []; Submit.handed_over := [] |}.

(** The search the miner prepares on [pool4], and how its first turn ends. *)
Definition search_on_pool4 : option (Miner.Thrown + Z * Z * Miner.Search Z) :=
  Eval vm_compute in
    Miner.CoinMiner_prepare env1 plain_rules pool4 Z no_arguments tip100 tip100
      2000 2100 [Assembler.OP_0] true 0 0 0 3 node_at_77.

Definition first_turn_on_pool4 : option (Miner.TurnEnd Z) :=
  Eval vm_compute in
    match search_on_pool4 with
    | Some (inr (_, _, s)) =>
        Miner.CoinMiner_search env1 plain_rules nonce_as_hash Z (fun c => c) accept_all
          tip100 [calm] s
    | _ => None
    end.

Lemma mined_block_needs_the_tip_of_its_template_witness :
  exists static' nExtraNonce' s e,
    Miner.CoinMiner_prepare env1 plain_rules pool4 Z no_arguments tip100 tip100
      2000 2100 [Assembler.OP_0] true 0 0 0 3 node_at_77
    = Some (inr (static', nExtraNonce', s)) /\
    Miner.CoinMiner_search env1 plain_rules nonce_as_hash Z (fun c => c) accept_all
      tip100 [calm] s = Some e /\
    submitted env1 plain_rules Z (fun c => c) accept_all s e /\
    Submit.handed_over Z (Miner.node (Miner.state_of e)) =
      [Miner.pblock (Miner.state_of e)].
Proof.
  assert (H : Miner.CoinMiner_prepare env1 plain_rules pool4 Z no_arguments tip100 tip100
                2000 2100 [Assembler.OP_0] true 0 0 0 3 node_at_77 = search_on_pool4)
    by (vm_compute; reflexivity).
  unfold search_on_pool4 in H.
  match type of H with
  | _ = Some (inr (?a, ?b, ?s)) =>
      assert (Hrun : Miner.CoinMiner_search env1 plain_rules nonce_as_hash Z (fun c => c)
                       accept_all tip100 [calm] s = first_turn_on_pool4)
        by (vm_compute; reflexivity);
      unfold first_turn_on_pool4 in Hrun;
      match type of Hrun with
      | _ = Some ?e =>
          assert (Hsub : submitted env1 plain_rules Z (fun c => c) accept_all s e)
            by (split; [split|..]; vm_compute; first [reflexivity | discriminate]);
          exists a, b, s, e; split; [exact H|]; split; [exact Hrun|];
          split; [exact Hsub|];
          exact (proj1 (proj2 (mined_block_needs_the_tip_of_its_template env1 plain_rules
                   pool4 nonce_as_hash Z (fun c => c) accept_all no_arguments tip100
                   tip100 2000 2100 [Assembler.OP_0] true 0 0 0 3 node_at_77 a b s
                   [calm] e H Hrun Hsub)) eq_refl)
      end
  end.
Defined.

Lemma ProcessBlockFound_hands_over_a_fresh_block_witness :
  Submit.handed_over Z
    (Submit.ProcessBlockFound Z (fun c => c) accept_all block_on_5
       {| Submit.chainActive := 5; Submit.debug_log := []; Submit.handed_over := [] |}).2
  = [block_on_5].
Proof.
  pose proof (ProcessBlockFound_hands_over_a_fresh_block Z (fun c => c) accept_all
                block_on_5
                {| Submit.chainActive := 5; Submit.debug_log := [];
                   Submit.handed_over := [] |} eq_refl) as (_ & _ & H & _).
  exact H.
Defined.

Lemma pool4_fees : mempool_fees pool4.
Proof.
  change (set_Forall (fun x =>
            Assembler.GetModFeesWithAncestors (Assembler.entry pool4 x) =
            sum_over (modfee_of pool4)
              (Assembler.CalculateMemPoolAncestors pool4 x ∪ {[ x ]})) (pool pool4)).
  by_compute.
Qed.

Lemma pool4_pays_the_floor (R : gset nat) :
  R ⊆ pool pool4 ->
  Assembler.FeeRate_GetFee plain_rules (Assembler.blockMinFeeRate assembler0)
    (sum_over (size_of pool4) R)
  <= sum_over (modfee_of pool4) R.
Proof.
  intros HR. cbn [Assembler.FeeRate_GetFee plain_rules].
  change (Assembler.nSatoshisPerK (Assembler.blockMinFeeRate assembler0)) with 1000.
  rewrite Z.mul_comm, Z.div_mul by lia.
  apply sum_over_le. intros x Hx. apply HR in Hx. revert x Hx.
  change (set_Forall (fun x => size_of pool4 x <= modfee_of pool4 x) (pool pool4)).
  by_compute.
Qed.

Lemma selection_takes_everything_that_fits_witness :
  exists st,
    Assembler.CreateNewBlock_select plain_rules pool4 assembler0 tip100 2000 true =
      Assembler.Finished st /\
    Assembler.inBlock (Assembler.asm st) = pool pool4 /\
    length (Assembler.vtx (Assembler.asm st)) = 5%nat /\
    Assembler.nFees (Assembler.asm st) = sum_over (fee_of pool4) (pool pool4).
Proof.
  destruct (selection_takes_everything_that_fits plain_rules pool4 assembler0 tip100 2000 true
              pool4_structure pool4_aggregates pool4_fees plain_rules_limits
              ltac:(vm_compute; reflexivity)
              ltac:(vm_compute; reflexivity)
              ltac:(vm_compute; reflexivity)
              pool4_pays_the_floor
              ltac:(intros x _; split; [reflexivity|];
                    intros _; destruct x as [|[|[|[|x]]]]; reflexivity))
    as (st & Hrun & Hall & _ & Hlen & Hfee).
  exists st. auto.
Defined.

Lemma selection_stops_for_a_reason_witness :
  exists st,
    Assembler.CreateNewBlock_select plain_rules pool4 assembler0 tip100 2000 true =
      Assembler.Finished st /\
    ((Assembler.mi st = [] /\ Assembler.mapModifiedTx st = ∅) \/
     (exists st0 c,
        Inv_struct pool4 st0 /\
        Assembler.choose plain_rules pool4 st0 = Some c /\
        st = Assembler.set_mi st0 (Assembler.mi_next c) /\
        Assembler.iter c ∈ pool pool4 /\
        Assembler.iter c ∉ Assembler.inBlock (Assembler.asm st) /\
        Assembler.packageFees c <
        Assembler.FeeRate_GetFee plain_rules (Assembler.blockMinFeeRate assembler0)
          (Assembler.packageSize c)) \/
     (1000 < Assembler.nConsecutiveFailed st /\
      u32 (Assembler.nBlockMaxWeight assembler0 - 4000) <
      Assembler.nBlockWeight (Assembler.asm st))).
Proof.
  exact (selection_stops_for_a_reason plain_rules pool4 assembler0 tip100 2000 true
           pool4_structure).
Defined.
